(** * Modern Art server: auction state machine, round orchestration and
      automated bidders

    A shallow embedding of [server/cards.py], [server/auction.py],
    [server/game.py] and the bid deciders of [server/ai_player.py].

    Conventions.
    - Python integers are [Z]; [%] and [//] are [Z.modulo] and [Z.div]
      (both round towards minus infinity, as Python's do).
    - A Python object mutated in place is threaded explicitly: a method
      returns the object it leaves behind next to its return value.
    - A raised exception ([IndexError], [ValueError]) is [None].
    - [Auction.bids] is a dict whose key set grows: an association list in
      insertion order.  [Game.board] and [Game.market] are dicts whose key
      set is [ARTISTS] from construction on: total functions on [artist],
      iterated in the order of [ARTISTS]. *)

From Stdlib Require Import String QArith ZArith List Lia Bool Permutation Sorted.
Import ListNotations.
Open Scope Z_scope.

(** ** Python helpers *)

Section PyDict.
Context {V : Type}.

(** [d.get(k)] on a dict with integer keys. *)
Fixpoint dict_get (d : list (Z * V)) (k : Z) : option V :=
  match d with
  | [] => None
  | (k', v) :: d' => if k' =? k then Some v else dict_get d' k
  end.

(** [k in d]. *)
Definition dict_mem (d : list (Z * V)) (k : Z) : bool :=
  match dict_get d k with Some _ => true | None => false end.

(** [d[k] = v]: an existing key keeps its place, a new one goes last. *)
Fixpoint dict_set (d : list (Z * V)) (k : Z) (v : V) : list (Z * V) :=
  match d with
  | [] => [(k, v)]
  | (k', v') :: d' =>
      if k' =? k then (k', v) :: d' else (k', v') :: dict_set d' k v
  end.
End PyDict.

(** [x in l] for a list of integers. *)
Definition memZ (x : Z) (l : list Z) : bool := existsb (Z.eqb x) l.

(** [range(lo, hi)]. *)
Definition range (lo hi : Z) : list Z :=
  map (fun k => lo + Z.of_nat k) (seq 0 (Z.to_nat (hi - lo))).

(** Position reached by [l[i]]: Python counts a negative index from the end. *)
Definition py_index (len : nat) (i : Z) : option nat :=
  if (0 <=? i) && (i <? Z.of_nat len) then Some (Z.to_nat i)
  else if (i <? 0) && (- Z.of_nat len <=? i) then Some (Z.to_nat (Z.of_nat len + i))
  else None.

Definition py_get {A : Type} (l : list A) (i : Z) : option A :=
  match py_index (length l) i with
  | Some k => nth_error l k
  | None => None
  end.

(** Replace the element at position [k]. *)
Fixpoint list_update {A : Type} (l : list A) (k : nat) (f : A -> A) : list A :=
  match l, k with
  | [], _ => []
  | x :: l', O => f x :: l'
  | x :: l', S k' => x :: list_update l' k' f
  end.

(** [l.pop(k)] for an index already known to be in range: the list left. *)
Fixpoint list_pop {A : Type} (l : list A) (k : nat) : list A :=
  match l, k with
  | [], _ => []
  | _ :: l', O => l'
  | x :: l', S k' => x :: list_pop l' k'
  end.

Definition sumZ (l : list Z) : Z := fold_right Z.add 0 l.

(** [sorted(l, key=...)], with [le x y] standing for [key(x) <= key(y)]:
    the stable sort, by insertion from the right. *)
Section Sorted.
Context {A : Type} (le : A -> A -> bool).

Fixpoint insert_by (x : A) (l : list A) : list A :=
  match l with
  | [] => [x]
  | y :: l' => if le x y then x :: y :: l' else y :: insert_by x l'
  end.

Definition sorted_by (l : list A) : list A := fold_right insert_by [] l.
End Sorted.

(** ** cards.py *)

Module Cards.

Inductive artist : Type :=
| OrangeTarou | GreenTarou | BlueTarou | YellowTarou | RedTarou.

Definition ARTISTS : list artist :=
  [OrangeTarou; GreenTarou; BlueTarou; YellowTarou; RedTarou].

(** [ARTISTS.index(a)]. *)
Definition artist_index (a : artist) : Z :=
  match a with
  | OrangeTarou => 0 | GreenTarou => 1 | BlueTarou => 2
  | YellowTarou => 3 | RedTarou => 4
  end.

Definition artist_eqb (a b : artist) : bool :=
  artist_index a =? artist_index b.

(** The auction type printed on a card, a string of [AUCTION_TYPES]. *)
Inductive atype : Type :=
| t_open | t_once_around | t_sealed | t_fixed_price | t_double.

Definition AUCTION_TYPES : list atype :=
  [t_open; t_once_around; t_sealed; t_fixed_price; t_double].

Definition atype_eqb (s t : atype) : bool :=
  match s, t with
  | t_open, t_open | t_once_around, t_once_around | t_sealed, t_sealed
  | t_fixed_price, t_fixed_price | t_double, t_double => true
  | _, _ => false
  end.

Definition AUCTION_DISTRIBUTION (a : artist) : list nat :=
  match a with
  | OrangeTarou => [3; 2; 2; 2; 3]
  | GreenTarou  => [3; 3; 2; 2; 3]
  | BlueTarou   => [3; 3; 3; 2; 3]
  | YellowTarou => [3; 3; 3; 3; 3]
  | RedTarou    => [3; 3; 3; 3; 4]
  end%nat.

(** [DEAL_COUNTS.get(num_players)]. *)
Definition DEAL_COUNTS (num_players : Z) : option (list nat) :=
  if num_players =? 3 then Some [10; 6; 6; 6]%nat
  else if num_players =? 4 then Some [9; 4; 4; 4]%nat
  else if num_players =? 5 then Some [8; 3; 3; 3]%nat
  else None.

(** [ROUND_VALUES.get(rank)], [None] when [rank not in ROUND_VALUES]. *)
Definition ROUND_VALUES (rank : Z) : option Z :=
  if rank =? 1 then Some 30000
  else if rank =? 2 then Some 20000
  else if rank =? 3 then Some 10000
  else None.

Definition STARTING_MONEY : Z := 100000.
Definition MAX_ROUNDS : Z := 4.
Definition ROUND_END_CARD_COUNT : Z := 5.

Record Card : Type := mkCard {
  card_id : Z;
  artist_of : artist;
  auction_type : atype
}.

(** [create_deck]: artists in order, for each the types in order, [count]
    cards of each, ids counting up from 0. *)
Definition create_deck : list Card :=
  fst (fold_left
         (fun (st : list Card * Z) (a : artist) =>
            fold_left
              (fun (st : list Card * Z) (tc : atype * nat) =>
                 (fst st ++ map (fun k => mkCard (snd st + Z.of_nat k) a (fst tc))
                                (seq 0 (snd tc)),
                  snd st + Z.of_nat (snd tc)))
              (combine AUCTION_TYPES (AUCTION_DISTRIBUTION a)) st)
         ARTISTS ([], 0)).

(** One turn of the inner loop of [deal_cards]:
    [if deck: hands[player_idx].append(deck.pop(0))]. *)
Definition deal_one (st : list (list Card) * list Card) (player_idx : nat)
  : list (list Card) * list Card :=
  match snd st with
  | [] => st
  | c :: deck' => (list_update (fst st) player_idx (fun h => h ++ [c]), deck')
  end.

(** [deal_cards(deck, num_players, round_num)]: the hands and the deck
    left; [None] for the two [ValueError]s. *)
Definition deal_cards (deck : list Card) (num_players round_num : Z)
  : option (list (list Card) * list Card) :=
  match DEAL_COUNTS num_players with
  | None => None
  | Some counts =>
      if (round_num <? 1) || (MAX_ROUNDS <? round_num) then None
      else
        let count := nth (Z.to_nat (round_num - 1)) counts 0%nat in
        let n := Z.to_nat num_players in
        Some (fold_left deal_one
                (concat (repeat (seq 0 n) count))
                (repeat [] n, deck))
  end.

(** The sort key of [calculate_round_values]:
    [(-count, ARTISTS.index(artist))], compared as Python compares tuples. *)
Definition key_le (x y : artist * Z) : bool :=
  (- snd x <? - snd y)
  || ((- snd x =? - snd y) && (artist_index (fst x) <=? artist_index (fst y))).

(** A dict over [ARTISTS]. *)
Definition ArtistMap : Type := artist -> Z.

Definition amap_set (m : ArtistMap) (a : artist) (v : Z) : ArtistMap :=
  fun b => if artist_eqb b a then v else m b.

(** [m.items()]. *)
Definition items (m : ArtistMap) : list (artist * Z) :=
  map (fun a => (a, m a)) ARTISTS.

(** The loop [for rank, (artist, count) in enumerate(sorted_artists)]. *)
Fixpoint assign_values (rank : Z) (l : list (artist * Z)) (values : ArtistMap)
  : ArtistMap :=
  match l with
  | [] => values
  | (a, _) :: l' =>
      let rank_1based := rank + 1 in
      let values' := match ROUND_VALUES rank_1based with
                     | Some v => amap_set values a v
                     | None => values
                     end in
      assign_values (rank + 1) l' values'
  end.

Definition calculate_round_values (board : ArtistMap) : ArtistMap :=
  let sorted_artists :=
    sorted_by key_le (filter (fun x => 0 <? snd x) (items board)) in
  assign_values 0 sorted_artists (fun _ => 0).

End Cards.

(** ** auction.py *)

Module Auction.
Import Cards.

Inductive AuctionState : Type :=
| WAITING_FOR_BIDS | WAITING_FOR_PRICE | WAITING_FOR_ACCEPT
| WAITING_FOR_DOUBLE | RESOLVED.

Definition state_eqb (s t : AuctionState) : bool :=
  match s, t with
  | WAITING_FOR_BIDS, WAITING_FOR_BIDS
  | WAITING_FOR_PRICE, WAITING_FOR_PRICE
  | WAITING_FOR_ACCEPT, WAITING_FOR_ACCEPT
  | WAITING_FOR_DOUBLE, WAITING_FOR_DOUBLE
  | RESOLVED, RESOLVED => true
  | _, _ => false
  end.

(** The error strings the auction returns.  Each is a non-empty string,
    so [if not error] tests for [None]. *)
Inductive error : Type :=
| WrongAuctionType            (* "Wrong auction type" *)
| SellerCannotBid             (* "Seller cannot bid" *)
| BidMustBeHigher (cur : Z)   (* f"Bid must be higher than {current_bid}" *)
| BidMultiple                 (* "Bid must be in multiples of 1000" *)
| NotYourTurn                 (* "Not your turn" *)
| AlreadySubmitted            (* "Already submitted a bid" *)
| InvalidBidAmount            (* "Invalid bid amount" *)
| NotWaitingForPrice          (* "Not waiting for price" *)
| PriceMustBePositive         (* "Price must be positive" *)
| PriceMultiple.              (* "Price must be in multiples of 1000" *)

(** The [action] string of [process_action]; [a_other] is any string
    the dispatcher does not name. *)
Inductive action : Type :=
| a_bid | a_pass | a_set_price | a_accept | a_decline | a_other.

Record AuctionResult : Type := mkResult {
  winner_index : Z;
  price : Z;
  res_seller_index : Z
}.

Record Auction : Type := mkAuction {
  auction_type : atype;
  seller_index : Z;
  card : Card;
  num_players : Z;
  double_card : option Card;
  state : AuctionState;
  current_bid : Z;
  current_bidder : Z;
  fixed_price : Z;
  bids : list (Z * Z);
  passed : list Z;
  current_turn_index : Z;
  sealed_bids_received : Z
}.

Definition set_state (a : Auction) (s : AuctionState) : Auction :=
  mkAuction (auction_type a) (seller_index a) (card a) (num_players a)
    (double_card a) s (current_bid a) (current_bidder a) (fixed_price a)
    (bids a) (passed a) (current_turn_index a) (sealed_bids_received a).

Definition set_passed (a : Auction) (l : list Z) : Auction :=
  mkAuction (auction_type a) (seller_index a) (card a) (num_players a)
    (double_card a) (state a) (current_bid a) (current_bidder a) (fixed_price a)
    (bids a) l (current_turn_index a) (sealed_bids_received a).

Definition set_turn (a : Auction) (i : Z) : Auction :=
  mkAuction (auction_type a) (seller_index a) (card a) (num_players a)
    (double_card a) (state a) (current_bid a) (current_bidder a) (fixed_price a)
    (bids a) (passed a) i (sealed_bids_received a).

(** [current_bid], [current_bidder] and [bids[player]] written together. *)
Definition set_bid (a : Auction) (player_index amount : Z) : Auction :=
  mkAuction (auction_type a) (seller_index a) (card a) (num_players a)
    (double_card a) (state a) amount player_index (fixed_price a)
    (dict_set (bids a) player_index amount) (passed a)
    (current_turn_index a) (sealed_bids_received a).

(** [bids[player] = amount; sealed_bids_received += 1]. *)
Definition set_sealed (a : Auction) (player_index amount : Z) : Auction :=
  mkAuction (auction_type a) (seller_index a) (card a) (num_players a)
    (double_card a) (state a) (current_bid a) (current_bidder a) (fixed_price a)
    (dict_set (bids a) player_index amount) (passed a)
    (current_turn_index a) (sealed_bids_received a + 1).

(** The constructor with [__post_init__]. *)
Definition new_auction (t : atype) (seller : Z) (c : Card) (n : Z)
    (dc : option Card) : Auction :=
  mkAuction t seller c n dc
    (match t with t_fixed_price => WAITING_FOR_PRICE | _ => WAITING_FOR_BIDS end)
    0 (-1) 0 [] [] (-1) 0.

Definition get_next_player (a : Auction) (from_index : Z) : Z :=
  match find (fun i => negb (memZ ((from_index + i) mod num_players a) (passed a)))
             (range 1 (num_players a)) with
  | Some i => (from_index + i) mod num_players a
  | None => -1
  end.

Definition get_can_act_player (a : Auction) : Z :=
  if state_eqb (state a) RESOLVED then -1
  else match auction_type a with
       | t_open => -1
       | t_once_around => current_turn_index a
       | t_sealed => -1
       | t_fixed_price =>
           if state_eqb (state a) WAITING_FOR_PRICE then seller_index a
           else current_turn_index a
       | t_double => -1
       end.

(** *** Open auction *)

Definition open_bid (a : Auction) (player_index amount : Z)
  : option error * Auction :=
  if negb (atype_eqb (auction_type a) t_open) then (Some WrongAuctionType, a)
  else if player_index =? seller_index a then (Some SellerCannotBid, a)
  else if amount <=? current_bid a then (Some (BidMustBeHigher (current_bid a)), a)
  else if negb (amount mod 1000 =? 0) then (Some BidMultiple, a)
  else (None, set_bid a player_index amount).

Definition open_pass (a : Auction) (player_index : Z) : Auction :=
  if negb (memZ player_index (passed a))
  then set_passed a (passed a ++ [player_index])
  else a.

(** The list [active] of [check_open_resolved]. *)
Definition active (a : Auction) : list Z :=
  filter (fun i => negb (i =? seller_index a) && negb (memZ i (passed a)))
         (range 0 (num_players a)).

Definition default_result (a : Auction) : AuctionResult :=
  if current_bidder a =? -1
  then mkResult (seller_index a) 0 (seller_index a)
  else mkResult (current_bidder a) (current_bid a) (seller_index a).

Definition check_open_resolved (a : Auction) : option AuctionResult * Auction :=
  let act := active a in
  if (Z.of_nat (length act) =? 0)
     || ((Z.of_nat (length act) =? 1)
         && (nth 0 act 0 =? current_bidder a) && (0 <? current_bid a))
  then (Some (default_result a), set_state a RESOLVED)
  else (None, a).

(** *** Once around *)

Definition start_once_around (a : Auction) : Auction :=
  set_state (set_turn a (get_next_player a (seller_index a))) WAITING_FOR_BIDS.

Definition once_around_bid (a : Auction) (player_index amount : Z)
  : option error * Auction :=
  if negb (player_index =? current_turn_index a) then (Some NotYourTurn, a)
  else if amount <=? current_bid a then (Some (BidMustBeHigher (current_bid a)), a)
  else if negb (amount mod 1000 =? 0) then (Some BidMultiple, a)
  else
    let a1 := set_bid a player_index amount in
    let a2 := set_passed a1 (passed a1 ++ [player_index]) in
    (None, set_turn a2 (get_next_player a2 player_index)).

Definition once_around_pass (a : Auction) (player_index : Z) : Auction :=
  let a1 := if negb (memZ player_index (passed a))
            then set_passed a (passed a ++ [player_index]) else a in
  set_turn a1 (get_next_player a1 player_index).

Definition check_once_around_resolved (a : Auction)
  : option AuctionResult * Auction :=
  if (current_turn_index a =? seller_index a) || (current_turn_index a =? -1)
  then (Some (default_result a), set_state a RESOLVED)
  else (None, a).

(** *** Sealed bid *)

Definition sealed_bid (a : Auction) (player_index amount : Z)
  : option error * Auction :=
  if player_index =? seller_index a then (Some SellerCannotBid, a)
  else if dict_mem (bids a) player_index then (Some AlreadySubmitted, a)
  else if amount <? 0 then (Some InvalidBidAmount, a)
  else if negb (amount mod 1000 =? 0) then (Some BidMultiple, a)
  else (None, set_sealed a player_index amount).

Definition sealed_pass (a : Auction) (player_index : Z) : Auction :=
  if negb (dict_mem (bids a) player_index)
     && negb (player_index =? seller_index a)
  then set_sealed a player_index 0
  else a.

(** [max(values)] of a non-empty list, from its first element on. *)
Definition max_value (first : Z) (rest : list Z) : Z :=
  fold_left Z.max rest first.

(** Python compares the keys [(x[1], -x[0])] as tuples. *)
Definition bid_key_lt (x y : Z * Z) : bool :=
  (snd x <? snd y) || ((snd x =? snd y) && (- fst x <? - fst y)).

(** [max(items, key=...)]: the first item no later item's key exceeds. *)
Definition max_bid_item (first : Z * Z) (rest : list (Z * Z)) : Z * Z :=
  fold_left (fun best x => if bid_key_lt best x then x else best) rest first.

Definition check_sealed_resolved (a : Auction)
  : option AuctionResult * Auction :=
  let expected := num_players a - 1 in
  if expected <=? sealed_bids_received a then
    let a' := set_state a RESOLVED in
    match bids a with
    | [] => (Some (mkResult (seller_index a) 0 (seller_index a)), a')
    | b :: rest =>
        if max_value (snd b) (map snd rest) =? 0
        then (Some (mkResult (seller_index a) 0 (seller_index a)), a')
        else let winner := max_bid_item b rest in
             (Some (mkResult (fst winner) (snd winner) (seller_index a)), a')
    end
  else (None, a).

(** *** Fixed price *)

Definition set_fixed_price (a : Auction) (p : Z) : option error * Auction :=
  if negb (state_eqb (state a) WAITING_FOR_PRICE) then (Some NotWaitingForPrice, a)
  else if p <=? 0 then (Some PriceMustBePositive, a)
  else if negb (p mod 1000 =? 0) then (Some PriceMultiple, a)
  else
    let a1 :=
      mkAuction (auction_type a) (seller_index a) (card a) (num_players a)
        (double_card a) WAITING_FOR_ACCEPT p (current_bidder a) p
        (bids a) (passed a) (current_turn_index a) (sealed_bids_received a) in
    (None, set_turn a1 (get_next_player a1 (seller_index a1))).

Definition fixed_price_accept (a : Auction) (player_index : Z)
  : option AuctionResult * Auction :=
  if negb (player_index =? current_turn_index a) then (None, a)
  else (Some (mkResult player_index (fixed_price a) (seller_index a)),
        set_state a RESOLVED).

Definition fixed_price_decline (a : Auction) (player_index : Z) : Auction :=
  let a1 := if negb (memZ player_index (passed a))
            then set_passed a (passed a ++ [player_index]) else a in
  set_turn a1 (get_next_player a1 player_index).

Definition check_fixed_price_resolved (a : Auction)
  : option AuctionResult * Auction :=
  if negb (state_eqb (state a) WAITING_FOR_ACCEPT) then (None, a)
  else if (current_turn_index a =? -1) || (current_turn_index a =? seller_index a)
  then (Some (mkResult (seller_index a) (fixed_price a) (seller_index a)),
        set_state a RESOLVED)
  else (None, a).

(** *** Dispatch *)

(** [error, result = ...; if not error: result = check()]. *)
Definition checked (er : option error * Auction)
    (check : Auction -> option AuctionResult * Auction)
  : option error * option AuctionResult * Auction :=
  match fst er with
  | Some e => (Some e, None, snd er)
  | None => let ra := check (snd er) in (None, fst ra, snd ra)
  end.

Definition unchecked (ra : option AuctionResult * Auction)
  : option error * option AuctionResult * Auction :=
  (None, fst ra, snd ra).

(** [process_action(player_index, action, amount)]: the pair
    [(error, result)] and the auction as the call leaves it. *)
Definition process_action (a : Auction) (player_index : Z) (act : action)
    (amount : Z) : option error * option AuctionResult * Auction :=
  match auction_type a with
  | t_open =>
      match act with
      | a_bid => checked (open_bid a player_index amount) check_open_resolved
      | a_pass => unchecked (check_open_resolved (open_pass a player_index))
      | _ => (None, None, a)
      end
  | t_once_around =>
      match act with
      | a_bid => checked (once_around_bid a player_index amount)
                   check_once_around_resolved
      | a_pass => unchecked (check_once_around_resolved
                               (once_around_pass a player_index))
      | _ => (None, None, a)
      end
  | t_sealed =>
      match act with
      | a_bid => checked (sealed_bid a player_index amount) check_sealed_resolved
      | a_pass => unchecked (check_sealed_resolved (sealed_pass a player_index))
      | _ => (None, None, a)
      end
  | t_fixed_price =>
      match act with
      | a_set_price => checked (set_fixed_price a amount) check_fixed_price_resolved
      | a_accept => unchecked (fixed_price_accept a player_index)
      | a_pass | a_decline =>
          unchecked (check_fixed_price_resolved
                       (fixed_price_decline a player_index))
      | _ => (None, None, a)
      end
  | t_double => (None, None, a)
  end.

(** *** Double auction *)

Definition set_type (a : Auction) (t : atype) : Auction :=
  mkAuction t (seller_index a) (card a) (num_players a)
    (double_card a) (state a) (current_bid a) (current_bidder a) (fixed_price a)
    (bids a) (passed a) (current_turn_index a) (sealed_bids_received a).

Definition setup_double (a : Auction) (effective_type : atype) : Auction :=
  let a1 := set_type a effective_type in
  match effective_type with
  | t_once_around => start_once_around a1
  | t_fixed_price => set_state a1 WAITING_FOR_PRICE
  | t_sealed => set_state a1 WAITING_FOR_BIDS
  | _ => set_state a1 WAITING_FOR_BIDS
  end.

End Auction.

(** ** game.py

    The game of a room without automated players: [ai_controller] is [None]
    (the lobby passes a controller only when the room has one), so every
    [_trigger_ai_*] call returns at once and is left out.  An automated
    player acts through the same [handle_*] entry points, each called after
    the triggering handler has finished its own writes, so a game with
    automated players passes through the states of some sequence of
    [handle_*] calls of this model.

    Every handler returns the game it leaves behind and the events it
    produced, in order.  An event is what the handler passes to [_send],
    [_send_error] or [_broadcast] (delivery itself is the transport's), with
    one addition: [ev_payout] marks each execution of
    [player.money += player_earnings] in [_end_round]. *)

Module Game.
Import Cards.

Record Player : Type := mkPlayer {
  player_id : string;
  name : string;
  money : Z;
  hand : list Card;
  paintings : list Card;
  is_ai : bool
}.

Record Game : Type := mkGame {
  players : list Player;
  num_players : Z;
  deck : list Card;
  round_num : Z;
  current_turn : Z;
  board : ArtistMap;
  market : ArtistMap;
  current_auction : option Auction.Auction;
  round_active : bool;
  game_over : bool;
  waiting_for_double : bool;
  double_base_card : option Card;
  double_player_index : Z
}.

(** The messages of [_send_error]. *)
Inductive game_error : Type :=
| GameNotActive               (* "Game not active" *)
| AuctionInProgress           (* "Auction in progress" *)
| NotYourTurn                 (* "Not your turn" *)
| InvalidCardIndex            (* "Invalid card index" *)
| InvalidDoubleCardIndex      (* "Invalid double card index" *)
| DoubleCardSameArtist        (* "Double card must be same artist" *)
| NotEnoughMoney              (* "Not enough money" *)
| AuctionError (e : Auction.error).

Inductive event : Type :=
| ev_error (to : Z) (e : game_error)
| ev_game_started
| ev_your_turn (p : Z)
| ev_turn_changed (p : Z)
| ev_card_played (a : artist) (board_count : Z) (p : Z) (t : atype)
    (is_double : bool)
| ev_double_request (p : Z) (a : artist)
| ev_auction_started (t : atype) (c : Card) (seller : Z) (dc : option Card)
| ev_bid_update (p : Z) (amount : Z)
| ev_bid_confirmed (p : Z) (amount : Z)
| ev_auction_result (winner : Z) (price : Z) (c : Card)
| ev_payout (p : nat) (amount : Z)
| ev_round_ended (round_values mkt : ArtistMap) (earnings : list (string * Z))
    (next_round : Z)
| ev_game_ended (winner : Z).

(** What a handler produces; [None] when it raises. *)
Definition outcome : Type := option (Game * list event).

Definition done (g : Game) (evs : list event) : outcome := Some (g, evs).

(** Events already produced, then the rest of the handler. *)
Definition after (evs : list event) (o : outcome) : outcome :=
  match o with
  | Some (g, evs') => Some (g, evs ++ evs')
  | None => None
  end.

(** *** Field writes *)

Definition with_players (g : Game) (ps : list Player) : Game :=
  mkGame ps (num_players g) (deck g) (round_num g) (current_turn g) (board g)
    (market g) (current_auction g) (round_active g) (game_over g)
    (waiting_for_double g) (double_base_card g) (double_player_index g).

Definition with_board (g : Game) (b : ArtistMap) : Game :=
  mkGame (players g) (num_players g) (deck g) (round_num g) (current_turn g) b
    (market g) (current_auction g) (round_active g) (game_over g)
    (waiting_for_double g) (double_base_card g) (double_player_index g).

Definition with_market (g : Game) (m : ArtistMap) : Game :=
  mkGame (players g) (num_players g) (deck g) (round_num g) (current_turn g)
    (board g) m (current_auction g) (round_active g) (game_over g)
    (waiting_for_double g) (double_base_card g) (double_player_index g).

Definition with_auction (g : Game) (a : option Auction.Auction) : Game :=
  mkGame (players g) (num_players g) (deck g) (round_num g) (current_turn g)
    (board g) (market g) a (round_active g) (game_over g)
    (waiting_for_double g) (double_base_card g) (double_player_index g).

Definition with_turn (g : Game) (t : Z) : Game :=
  mkGame (players g) (num_players g) (deck g) (round_num g) t
    (board g) (market g) (current_auction g) (round_active g) (game_over g)
    (waiting_for_double g) (double_base_card g) (double_player_index g).

Definition with_round (g : Game) (r : Z) (active : bool) : Game :=
  mkGame (players g) (num_players g) (deck g) r (current_turn g)
    (board g) (market g) (current_auction g) active (game_over g)
    (waiting_for_double g) (double_base_card g) (double_player_index g).

Definition with_deck (g : Game) (d : list Card) : Game :=
  mkGame (players g) (num_players g) d (round_num g) (current_turn g)
    (board g) (market g) (current_auction g) (round_active g) (game_over g)
    (waiting_for_double g) (double_base_card g) (double_player_index g).

Definition with_game_over (g : Game) : Game :=
  mkGame (players g) (num_players g) (deck g) (round_num g) (current_turn g)
    (board g) (market g) (current_auction g) (round_active g) true
    (waiting_for_double g) (double_base_card g) (double_player_index g).

Definition with_double (g : Game) (w : bool) (c : option Card) (p : Z) : Game :=
  mkGame (players g) (num_players g) (deck g) (round_num g) (current_turn g)
    (board g) (market g) (current_auction g) (round_active g) (game_over g)
    w c p.

Definition with_money (p : Player) (m : Z) : Player :=
  mkPlayer (player_id p) (name p) m (hand p) (paintings p) (is_ai p).

Definition with_hand (p : Player) (h : list Card) : Player :=
  mkPlayer (player_id p) (name p) (money p) h (paintings p) (is_ai p).

Definition with_paintings (p : Player) (l : list Card) : Player :=
  mkPlayer (player_id p) (name p) (money p) (hand p) l (is_ai p).

(** [Game(players)]. *)
Definition new_game (ps : list Player) : Game :=
  mkGame ps (Z.of_nat (length ps)) [] 0 0 (fun _ => 0) (fun _ => 0) None
    false false false None (-1).

(** [self.board[artist] += 1]. *)
Definition board_incr (g : Game) (a : artist) : Game :=
  with_board g (amap_set (board g) a (board g a + 1)).

Definition _check_round_end (g : Game) (a : artist) : bool :=
  ROUND_END_CARD_COUNT <=? board g a.

(** *** Round end *)

(** [earnings[player.name] = player_earnings] on a dict with string keys. *)
Fixpoint earnings_set (d : list (string * Z)) (k : string) (v : Z)
  : list (string * Z) :=
  match d with
  | [] => [(k, v)]
  | (k', v') :: d' =>
      if String.eqb k' k then (k', v) :: d' else (k', v') :: earnings_set d' k v
  end.

(** The inner loop of [_end_round] over one player's paintings. *)
Definition player_earnings (m : ArtistMap) (p : Player) : Z :=
  fold_left (fun acc c => acc + m (artist_of c)) (paintings p) 0.

(** One player of the payout loop: paid, and the paintings pile emptied. *)
Definition pay_player (m : ArtistMap) (p : Player) : Player :=
  with_paintings (with_money p (money p + player_earnings m p)) [].

(** The events and the [earnings] dict of the payout loop. *)
Fixpoint payout_events (m : ArtistMap) (i : nat) (ps : list Player)
  : list event :=
  match ps with
  | [] => []
  | p :: ps' => ev_payout i (player_earnings m p) :: payout_events m (S i) ps'
  end.

Definition earnings_dict (m : ArtistMap) (ps : list Player) : list (string * Z) :=
  fold_left (fun d p => earnings_set d (name p) (player_earnings m p)) ps [].

(** [max(range(n), key=lambda i: players[i].money)]: the first index of
    the largest balance; [None] when a lookup raises or the range is
    empty. *)
Definition money_at (ps : list Player) (i : Z) : option Z :=
  option_map money (py_get ps i).

Definition argmax_money (ps : list Player) (n : Z) : option Z :=
  match range 0 n with
  | [] => None
  | i0 :: rest =>
      match money_at ps i0 with
      | None => None
      | Some m0 =>
          option_map fst
            (fold_left
               (fun best i =>
                  match best, money_at ps i with
                  | Some (bi, bm), Some m =>
                      if bm <? m then Some (i, m) else Some (bi, bm)
                  | _, _ => None
                  end)
               rest (Some (i0, m0)))
      end
  end.

Definition _end_game (g : Game) (last_round_values : ArtistMap)
    (last_earnings : list (string * Z)) : outcome :=
  let g1 := with_game_over g in
  match argmax_money (players g1) (num_players g1) with
  | None => None
  | Some winner_index =>
      done g1 [ev_round_ended last_round_values (market g1) last_earnings
                 (round_num g1);
               ev_game_ended winner_index]
  end.

Definition _end_round (g : Game) : outcome :=
  let g1 := with_round g (round_num g) false in
  let round_values := calculate_round_values (board g1) in
  let m := fun a => market g1 a + round_values a in
  let g2 := with_market g1 m in
  let earnings := earnings_dict m (players g2) in
  let pays := payout_events m 0 (players g2) in
  let g3 := with_players g2 (map (pay_player m) (players g2)) in
  let g4 := with_round g3 (round_num g3 + 1) false in
  if MAX_ROUNDS <? round_num g4 then
    after pays (_end_game g4 round_values earnings)
  else
    let g5 := with_board g4 (fun _ => 0) in
    match deal_cards (deck g5) (num_players g5) (round_num g5) with
    | None => None
    | Some (new_hands, deck') =>
        let ps := map (fun ph => with_hand (fst ph) (hand (fst ph) ++ snd ph))
                      (combine (players g5) new_hands) in
        let g6 := with_players (with_deck g5 deck') ps in
        let g7 := with_turn (with_round g6 (round_num g6) true) 0 in
        match py_get (players g7) 0 with
        | None => None
        | Some _ =>
            done g7 (pays ++ [ev_round_ended round_values m earnings (round_num g7);
                              ev_turn_changed 0; ev_your_turn 0])
        end
    end.

(** *** Turn order and settlement *)

Definition hand_size_at (ps : list Player) (i : Z) : option Z :=
  option_map (fun p => Z.of_nat (length (hand p))) (py_get ps i).

(** The [for ... break] loop of [_advance_turn] over [range(1, n + 1)]:
    the new [current_turn], which stays as it is when no candidate has a
    card; [None] when a lookup raises. *)
Fixpoint next_with_cards (g : Game) (candidates : list Z) : option Z :=
  match candidates with
  | [] => Some (current_turn g)
  | i :: rest =>
      let next_idx := (current_turn g + i) mod num_players g in
      match hand_size_at (players g) next_idx with
      | None => None
      | Some n => if 0 <? n then Some next_idx else next_with_cards g rest
      end
  end.

Definition _advance_turn (g : Game) : outcome :=
  let has_cards := existsb (fun p => 0 <? Z.of_nat (length (hand p))) (players g) in
  if negb has_cards then _end_round g
  else
    match next_with_cards g (range 1 (num_players g + 1)) with
    | None => None
    | Some t =>
        let g1 := with_turn g t in
        match py_get (players g1) t with
        | None => None
        | Some _ => done g1 [ev_turn_changed t; ev_your_turn t]
        end
    end.

(** [_resolve_auction] up to and including [self.current_auction = None]:
    the money and the painting change hands. *)
Definition settle_auction (g : Game) (a : Auction.Auction)
    (result : Auction.AuctionResult) : option Game :=
  let n := length (players g) in
  match py_index n (Auction.winner_index result),
        py_index n (Auction.res_seller_index result) with
  | Some w, Some s =>
      let card_info := Auction.card a in
      let ps1 :=
        if negb (Auction.winner_index result =? Auction.res_seller_index result)
        then
          let ps := list_update (players g) w
                      (fun p => with_money p (money p - Auction.price result)) in
          list_update ps s
            (fun p => with_money p (money p + Auction.price result))
        else players g in
      let ps2 := list_update ps1 w
                   (fun p => with_paintings p (paintings p ++ [card_info])) in
      Some (with_auction (with_players g ps2) None)
  | _, _ => None
  end.

Definition _resolve_auction (g : Game) (result : Auction.AuctionResult)
  : outcome :=
  match current_auction g with
  | None => None
  | Some a =>
      match settle_auction g a result with
      | None => None
      | Some g1 =>
          after [ev_auction_result (Auction.winner_index result)
                   (Auction.price result) (Auction.card a)]
                (_advance_turn g1)
      end
  end.

(** *** Playing cards *)

Definition _start_auction (g : Game) (seller_index : Z) (c : Card)
    (t : atype) (dc : option Card) : outcome :=
  let a := Auction.new_auction t seller_index c (num_players g) dc in
  let a' := match t with
            | t_once_around => Auction.start_once_around a
            | _ => a
            end in
  done (with_auction g (Some a')) [ev_auction_started t c seller_index dc].

(** [player.hand.pop(k)] on [self.players[player_index]]. *)
Definition pop_hand (g : Game) (player_index : nat) (k : nat) : Game :=
  with_players g
    (list_update (players g) player_index
       (fun p => with_hand p (list_pop (hand p) k))).

Definition _play_single_card (g : Game) (player_index : Z) (c : Card)
    (card_index : Z) : outcome :=
  match py_index (length (players g)) player_index with
  | None => None
  | Some pi =>
      let g1 := pop_hand g pi (Z.to_nat card_index) in
      let g2 := board_incr g1 (artist_of c) in
      let played := ev_card_played (artist_of c) (board g2 (artist_of c))
                      player_index (auction_type c) false in
      if _check_round_end g2 (artist_of c) then after [played] (_end_round g2)
      else after [played]
             (_start_auction g2 player_index c (auction_type c) None)
  end.

(** The effective type of a double play: the second card's, [open] when
    that is [double] too. *)
Definition effective_type (second : Card) : atype :=
  match auction_type second with
  | t_double => t_open
  | t => t
  end.

Definition _play_double (g : Game) (player_index : Z) (card1 : Card)
    (idx1 : Z) (card2 : Card) (idx2 : Z) : outcome :=
  match py_index (length (players g)) player_index with
  | None => None
  | Some pi =>
      let g1 := pop_hand (pop_hand g pi (Z.to_nat (Z.max idx1 idx2)))
                  pi (Z.to_nat (Z.min idx1 idx2)) in
      let a := artist_of card1 in
      let g2 := board_incr g1 a in
      if _check_round_end g2 a then
        after [ev_card_played a (board g2 a) player_index t_double true]
              (_end_round g2)
      else
        let g3 := board_incr g2 a in
        if _check_round_end g3 a then
          after [ev_card_played a (board g3 a) player_index t_double true]
                (_end_round g3)
        else
          after [ev_card_played a (board g3 a) player_index
                   (effective_type card2) true]
                (_start_auction g3 player_index card1 (effective_type card2)
                   (Some card2))
  end.

(** [any(c.artist == card.artist and i != card_index for i, c in enumerate(hand))]. *)
Definition has_match (h : list Card) (c : Card) (card_index : Z) : bool :=
  existsb (fun ic => artist_eqb (artist_of (snd ic)) (artist_of c)
                     && negb (fst ic =? card_index))
          (combine (range 0 (Z.of_nat (length h))) h).

Definition handle_play_card (g : Game) (player_index card_index
    double_card_index : Z) : outcome :=
  match py_get (players g) player_index with
  | None => None
  | Some player =>
      if game_over g || negb (round_active g) then
        done g [ev_error player_index GameNotActive]
      else if match current_auction g with Some _ => true | None => false end then
        done g [ev_error player_index AuctionInProgress]
      else if negb (player_index =? current_turn g) then
        done g [ev_error player_index NotYourTurn]
      else if (card_index <? 0) || (Z.of_nat (length (hand player)) <=? card_index) then
        done g [ev_error player_index InvalidCardIndex]
      else
        match nth_error (hand player) (Z.to_nat card_index) with
        | None => None
        | Some c =>
            match auction_type c with
            | t_double =>
                if 0 <=? double_card_index then
                  if (Z.of_nat (length (hand player)) <=? double_card_index)
                     || (double_card_index =? card_index) then
                    done g [ev_error player_index InvalidDoubleCardIndex]
                  else
                    match nth_error (hand player) (Z.to_nat double_card_index) with
                    | None => None
                    | Some second_card =>
                        if negb (artist_eqb (artist_of second_card) (artist_of c)) then
                          done g [ev_error player_index DoubleCardSameArtist]
                        else _play_double g player_index c card_index
                               second_card double_card_index
                    end
                else if has_match (hand player) c card_index then
                  match py_index (length (players g)) player_index with
                  | None => None
                  | Some pi =>
                      let g1 := with_double g true (Some c) player_index in
                      let g2 := pop_hand g1 pi (Z.to_nat card_index) in
                      done g2 [ev_double_request player_index (artist_of c)]
                  end
                else
                  (* card.auction_type = "open" *)
                  _play_single_card g player_index
                    (mkCard (card_id c) (artist_of c) t_open) card_index
            | _ => _play_single_card g player_index c card_index
            end
        end
  end.

Definition handle_double_response (g : Game) (player_index
    second_card_index : Z) : outcome :=
  if negb (waiting_for_double g) || negb (player_index =? double_player_index g)
  then done g []
  else
    match py_get (players g) player_index,
          py_index (length (players g)) player_index,
          double_base_card g with
    | Some player, Some pi, Some base_card =>
        let g0 := with_double g false None (-1) in
        let a := artist_of base_card in
        let decline :=
          let g1 := board_incr g0 a in
          if _check_round_end g1 a then _end_round g1
          else after [ev_card_played a (board g1 a) player_index t_open false]
                     (_start_auction g1 player_index base_card t_open None) in
        if (0 <=? second_card_index)
           && (second_card_index <? Z.of_nat (length (hand player))) then
          match nth_error (hand player) (Z.to_nat second_card_index) with
          | None => None
          | Some second_card =>
              if artist_eqb (artist_of second_card) a then
                let g1 := pop_hand g0 pi (Z.to_nat second_card_index) in
                let g2 := board_incr g1 a in
                if _check_round_end g2 a then _end_round g2
                else
                  let g3 := board_incr g2 a in
                  if _check_round_end g3 a then _end_round g3
                  else
                    after [ev_card_played a (board g3 a) player_index
                             (effective_type second_card) true]
                          (_start_auction g3 player_index base_card
                             (effective_type second_card) (Some second_card))
              else decline
          end
        else decline
    | _, _, _ => None
    end.

(** *** Auction actions *)

(** The tail shared by [handle_bid], [handle_pass] and
    [handle_set_price]: [if result: await self._resolve_auction(result)]. *)
Definition resolve_if (g : Game) (evs : list event)
    (result : option Auction.AuctionResult) : outcome :=
  match result with
  | Some r => after evs (_resolve_auction g r)
  | None => done g evs
  end.

Definition handle_bid (g : Game) (player_index amount : Z) : outcome :=
  match current_auction g with
  | None => done g []
  | Some a =>
      match py_get (players g) player_index with
      | None => None
      | Some player =>
          if money player <? amount then
            done g [ev_error player_index NotEnoughMoney]
          else
            match Auction.process_action a player_index Auction.a_bid amount with
            | (Some e, _, a') =>
                done (with_auction g (Some a'))
                     [ev_error player_index (AuctionError e)]
            | (None, result, a') =>
                let g1 := with_auction g (Some a') in
                let evs :=
                  match Auction.auction_type a' with
                  | t_sealed => [ev_bid_confirmed player_index amount]
                  | _ => [ev_bid_update player_index amount]
                  end in
                resolve_if g1 evs result
            end
      end
  end.

Definition handle_pass (g : Game) (player_index : Z) : outcome :=
  match current_auction g with
  | None => done g []
  | Some a =>
      match Auction.process_action a player_index Auction.a_pass 0 with
      | (Some e, _, a') =>
          match py_get (players g) player_index with
          | None => None
          | Some _ =>
              done (with_auction g (Some a'))
                   [ev_error player_index (AuctionError e)]
          end
      | (None, result, a') =>
          let g1 := with_auction g (Some a') in
          match Auction.auction_type a' with
          | t_sealed => resolve_if g1 [] result
          | _ =>
              match py_get (players g) player_index with
              | None => None
              | Some _ => resolve_if g1 [ev_bid_update player_index 0] result
              end
          end
      end
  end.

Definition handle_accept (g : Game) (player_index : Z) : outcome :=
  match current_auction g with
  | None => done g []
  | Some a =>
      match Auction.auction_type a with
      | t_fixed_price =>
          match py_get (players g) player_index with
          | None => None
          | Some player =>
              if money player <? Auction.fixed_price a then
                done g [ev_error player_index NotEnoughMoney]
              else
                match Auction.process_action a player_index Auction.a_accept 0 with
                | (Some e, _, a') =>
                    done (with_auction g (Some a'))
                         [ev_error player_index (AuctionError e)]
                | (None, result, a') =>
                    resolve_if (with_auction g (Some a')) [] result
                end
          end
      | _ => done g []
      end
  end.

Definition handle_set_price (g : Game) (player_index p : Z) : outcome :=
  match current_auction g with
  | None => done g []
  | Some a =>
      match Auction.auction_type a with
      | t_fixed_price =>
          if negb (player_index =? Auction.seller_index a) then done g []
          else
            match Auction.process_action a player_index Auction.a_set_price p,
                  py_get (players g) player_index with
            | _, None => None
            | (Some e, _, a'), Some _ =>
                done (with_auction g (Some a'))
                     [ev_error player_index (AuctionError e)]
            | (None, result, a'), Some _ =>
                resolve_if (with_auction g (Some a'))
                  [ev_bid_update player_index p] result
            end
      | _ => done g []
      end
  end.

(** *** Start *)

(** [start()], with the outcome of [shuffle_deck(create_deck())] given. *)
Definition start (g : Game) (shuffled : list Card) : outcome :=
  let g1 := with_turn (with_round (with_deck g shuffled) 1 true) 0 in
  match deal_cards (deck g1) (num_players g1) (round_num g1) with
  | None => None
  | Some (hands, deck') =>
      let ps := map (fun ph => with_hand (fst ph) (snd ph))
                    (combine (players g1) hands) in
      let g2 := with_players (with_deck g1 deck') ps in
      match py_get (players g2) (current_turn g2) with
      | None => None
      | Some _ => done g2 [ev_game_started; ev_your_turn (current_turn g2)]
      end
  end.

(** A player as the lobby creates it: [Player(player_id, name, ws)]. *)
Definition new_player (id nm : string) : Player :=
  mkPlayer id nm STARTING_MONEY [] [] false.

(** *** Messages of the clients *)

(** One inbound message of [_handle_game_action] from the player at
    [player_index]. *)
Inductive request : Type :=
| play_card (player_index card_index double_card_index : Z)
| double_response (player_index card_index : Z)
| bid (player_index amount : Z)
| pass (player_index : Z)
| accept (player_index : Z)
| set_price (player_index amount : Z).

Definition sender (r : request) : Z :=
  match r with
  | play_card p _ _ | double_response p _ | bid p _ | pass p | accept p
  | set_price p _ => p
  end.

Definition handle (g : Game) (r : request) : outcome :=
  match r with
  | play_card p i d => handle_play_card g p i d
  | double_response p i => handle_double_response g p i
  | bid p x => handle_bid g p x
  | pass p => handle_pass g p
  | accept p => handle_accept g p
  | set_price p x => handle_set_price g p x
  end.

(** The requests of a room handled one after the other. *)
Fixpoint run (g : Game) (rs : list request) : outcome :=
  match rs with
  | [] => done g []
  | r :: rs' =>
      match handle g r with
      | None => None
      | Some (g1, evs) => after evs (run g1 rs')
      end
  end.

(** *** Ledgers *)

Definition total_money (g : Game) : Z := sumZ (map money (players g)).

(** The market payouts among the events. *)
Definition payouts (evs : list event) : Z :=
  sumZ (map (fun e => match e with ev_payout _ x => x | _ => 0 end) evs).

End Game.

(** ** ai_player.py: the bid deciders of [AIBrain]

    A Python float is a rational here: every finite double is one, Python
    compares an [int] with a [float] exactly, and [int(x)] truncates
    exactly.  The rounding of the float operations is left open: the
    deciders take the multiplication and the addition of floats as
    parameters, and every random draw as a parameter too. *)

Module AI.
Import Cards.

Inductive difficulty : Type := DIFFICULTY_EASY | DIFFICULTY_NORMAL | DIFFICULTY_HARD.

(** [int(x)]: truncation towards zero. *)
Definition py_int (x : Q) : Z := Z.quot (Qnum x) (Z.pos (Qden x)).

(** [x < y] and [min(x, y)] on numbers: [min] keeps its first argument
    unless the second is smaller. *)
Definition Qltb (x y : Q) : bool := negb (Qle_bool y x).

Definition py_min (x y : Q) : Q := if Qltb y x then y else x.

Section Deciders.
(** Float multiplication and addition. *)
Variable fmul fadd : Q -> Q -> Q.
Variable self_difficulty : difficulty.

(** The base of [_get_aggression_factor]; a decimal literal stands for
    the double nearest to it. *)
Definition base_aggression : Q :=
  match self_difficulty with
  | DIFFICULTY_EASY => 6 # 10
  | DIFFICULTY_NORMAL => 75 # 100
  | DIFFICULTY_HARD => 85 # 100
  end.

(** [_get_aggression_factor], [draw] being [random.uniform(-0.1, 0.1)]. *)
Definition _get_aggression_factor (draw : Q) : Q := fadd base_aggression draw.

(** The position of [a] in the sorted items, 4 when it is absent. *)
Fixpoint rank_of (a : artist) (i : Z) (l : list (artist * Z)) : Z :=
  match l with
  | [] => 4
  | (b, _) :: l' => if artist_eqb b a then i else rank_of a (i + 1) l'
  end.

Definition _estimate_card_value (card : Card) (board market : ArtistMap)
    (is_double : bool) : Q :=
  let a := artist_of card in
  let board_count := board a in
  let current_market := market a in
  let simulated :=
    amap_set board a (board_count + (if is_double then 2 else 1)) in
  let sorted_artists :=
    sorted_by (fun x y => - snd x <=? - snd y) (items simulated) in
  let rank := rank_of a 0 sorted_artists in
  let round_value :=
    if rank =? 0 then 30000 else if rank =? 1 then 20000
    else if rank =? 2 then 10000 else 0 in
  let expected_value := current_market + round_value in
  if board_count <=? 1 then fmul (inject_Z expected_value) (5 # 10)
  else if 3 <=? board_count then fmul (inject_Z expected_value) (85 # 100)
  else inject_Z expected_value.

(** [random.choice([1000, 2000, 3000, 5000])], [k] being the position
    drawn. *)
Definition bid_increment_choice (k : nat) : Z :=
  nth (k mod 4) [1000; 2000; 3000; 5000] 1000.

(** [decide_bid_open]: [agg_draw] is the draw of the aggression factor,
    [k] the one of [random.choice]. *)
Definition decide_bid_open (card : Card) (current_bid my_money : Z)
    (board market : ArtistMap) (is_double : bool) (agg_draw : Q) (k : nat)
  : option Z :=
  let max_value := _estimate_card_value card board market is_double in
  let willingness := fmul max_value (_get_aggression_factor agg_draw) in
  let willingness := py_min willingness (inject_Z my_money) in
  let min_bid := current_bid + 1000 in
  if Qltb willingness (inject_Z min_bid) then None
  else
    let bid_increment :=
      match self_difficulty with
      | DIFFICULTY_HARD => 1000
      | _ => bid_increment_choice k
      end in
    let bid := current_bid + bid_increment in
    let bid := Z.min bid (py_int willingness) in
    let bid := Z.max bid min_bid in
    let bid := (bid / 1000) * 1000 in
    if my_money <? bid then None else Some bid.

(** [decide_bid_once_around]: [u] is [random.uniform(0.6, 0.9)]. *)
Definition decide_bid_once_around (card : Card) (current_bid my_money : Z)
    (board market : ArtistMap) (is_double : bool) (agg_draw u : Q)
  : option Z :=
  let max_value := _estimate_card_value card board market is_double in
  let willingness := fmul max_value (_get_aggression_factor agg_draw) in
  let willingness := py_min willingness (inject_Z my_money) in
  let min_bid := Z.max (current_bid + 1000) 1000 in
  if Qltb willingness (inject_Z min_bid) then None
  else
    let bid := py_int (fmul willingness u) in
    let bid := Z.max bid min_bid in
    let bid := (bid / 1000) * 1000 in
    if my_money <? bid then None else Some bid.

(** [decide_bid_sealed]: [u] is [random.uniform(0.4, 0.75)]. *)
Definition decide_bid_sealed (card : Card) (my_money : Z)
    (board market : ArtistMap) (num_players : Z) (is_double : bool)
    (agg_draw u : Q) : Z :=
  let max_value := _estimate_card_value card board market is_double in
  let willingness := fmul max_value (_get_aggression_factor agg_draw) in
  let willingness := py_min willingness (inject_Z my_money) in
  if Qltb willingness (inject_Z 1000) then 0
  else
    let bid := py_int (fmul willingness u) in
    let bid := Z.max bid 1000 in
    let bid := (bid / 1000) * 1000 in
    if my_money <? bid then 0 else bid.
End Deciders.

End AI.

(** * The vocabulary of the properties

    What the statements below are written in: the ranking of the rules of
    the game, scripts of calls on one auction, the invariants of the
    auctions and of the game, and the concrete games the examples run. *)

Module RoundSpec.
Import Cards.

(** [b] stands before [a] in the ranking: more cards on the board, or as
    many and earlier in the fixed artist order. *)
Definition outranks (board : ArtistMap) (b a : artist) : bool :=
  (board a <? board b)
  || ((board b =? board a) && (artist_index b <? artist_index a)).

(** The rank of [a], from 1: one more than the number of artists that
    stand before it. *)
Definition rank (board : ArtistMap) (a : artist) : Z :=
  1 + Z.of_nat (length (filter (fun b => outranks board b a) ARTISTS)).

(** 30000, 20000 and 10000 for the ranks 1, 2 and 3, nothing below. *)
Definition award (r : Z) : Z :=
  if r =? 1 then 30000 else if r =? 2 then 20000
  else if r =? 3 then 10000 else 0.
End RoundSpec.

Module AuctionSpec.
Import Cards Auction.

(** One call of [process_action]: who, what, how much. *)
Definition call : Type := (Z * action * Z)%type.

Definition actor (c : call) : Z := fst (fst c).

(** The calls of a script made in order on one auction: what each
    returned, and the auction left at the end. *)
Fixpoint play (a : Auction) (script : list call)
  : list (option error * option AuctionResult) * Auction :=
  match script with
  | [] => ([], a)
  | (p, act, amount) :: rest =>
      let '(err, res, a1) := process_action a p act amount in
      let '(outs, a2) := play a1 rest in
      ((err, res) :: outs, a2)
  end.

(** The players [(s + i) mod n] for [i] from [lo] up to [hi - 1] decline
    a fixed price one after the other. *)
Definition declines (n s lo hi : Z) : list call :=
  map (fun i => ((s + i) mod n, a_pass, 0)) (range lo hi).

(** The action kinds a protocol does not know. *)
Definition wrong_protocol (t : atype) (act : action) : bool :=
  match t, act with
  | (t_open | t_once_around | t_sealed), (a_bid | a_pass) => false
  | t_fixed_price, (a_set_price | a_accept | a_pass | a_decline) => false
  | _, _ => true
  end.
End AuctionSpec.

Section AuctionInvariants.
Import Cards Auction AuctionSpec.

(** [y] is sorted before [x], and is another artist. *)
Definition before (y x : artist * Z) : bool :=
  key_le y x && negb (artist_eqb (fst y) (fst x)).




(** What holds of a sealed auction of [n] players and seller [s] however
    it was bid on. *)
Definition sealed_inv (n s : Z) (a : Auction) : Prop :=
  auction_type a = t_sealed /\ seller_index a = s /\ num_players a = n
  /\ sealed_bids_received a = Z.of_nat (length (bids a))
  /\ NoDup (map fst (bids a))
  /\ (forall q v, In (q, v) (bids a) -> 0 <= q < n /\ q <> s /\ 0 <= v).

(** Every non-seller has a bid on record. *)
Definition all_bids_in (n s : Z) (a : Auction) : Prop :=
  forall q, 0 <= q < n -> q <> s -> dict_mem (bids a) q = true.

(** What a sealed auction resolves to. *)
Definition sealed_outcome (s : Z) (a : Auction) (r : AuctionResult) : Prop :=
  res_seller_index r = s
  /\ (((forall q v, In (q, v) (bids a) -> v = 0)
       /\ winner_index r = s /\ price r = 0)
      \/ (0 < price r
          /\ In (winner_index r, price r) (bids a)
          /\ forall q v, In (q, v) (bids a) ->
               v < price r \/ (v = price r /\ winner_index r <= q))).

(** A fixed-price auction after [k] declines made in turn. *)
Definition declined (n s the_price : Z) (the_card : Card) (k : Z)
    (a : Auction) : Prop :=
  auction_type a = t_fixed_price /\ seller_index a = s /\ num_players a = n
  /\ state a = WAITING_FOR_ACCEPT /\ fixed_price a = the_price
  /\ card a = the_card
  /\ current_turn_index a = (s + k + 1) mod n
  /\ forall x, In x (passed a) -> exists j, 1 <= j <= k /\ x = (s + j) mod n.

(** Every index an auction of [n] players holds names one of them. *)
Definition auction_wf (n : Z) (a : Auction) : Prop :=
  num_players a = n /\ 0 <= seller_index a < n
  /\ (current_bidder a = -1 \/ 0 <= current_bidder a < n)
  /\ (forall q v, In (q, v) (bids a) -> 0 <= q < n).

(** A resolution check keeps the auction well formed and names players. *)
Definition check_wf (n : Z) (check : Auction -> option AuctionResult * Auction) : Prop :=
  forall a, auction_wf n a ->
    auction_wf n (snd (check a))
    /\ forall r, fst (check a) = Some r ->
                 0 <= winner_index r < n
                 /\ res_seller_index r = seller_index a.
End AuctionInvariants.

Section GameInvariants.
Import Cards Game.

Definition is_error (e : event) : bool :=
  match e with ev_error _ _ => true | _ => false end.

(** Some player still holds a card. *)
Definition has_cards (g : Game) : bool :=
  existsb (fun p => 0 <? Z.of_nat (length (hand p))) (players g).

(** The game after the seller bought the own card: the card is on the
    seller's pile and the auction is gone. *)
Definition kept_by_seller (g : Game) (s : Z) (c : Card) : Game :=
  with_auction
    (with_players g
       (list_update (players g) (Z.to_nat s)
          (fun p => with_paintings p (paintings p ++ [c]))))
    None.

(** The shape every handler relies on and leaves behind. *)
Definition game_wf (g : Game) : Prop :=
  num_players g = Z.of_nat (length (players g))
  /\ (exists counts, DEAL_COUNTS (num_players g) = Some counts)
  /\ 0 <= current_turn g < num_players g
  /\ 1 <= round_num g
  /\ (forall a, current_auction g = Some a -> auction_wf (num_players g) a)
  /\ (waiting_for_double g = true -> exists c, double_base_card g = Some c).

(** While the game is on, no artist has five cards on the board. *)
Definition board_below_five (g : Game) : Prop :=
  game_over g = false -> forall a, board g a < ROUND_END_CARD_COUNT.

(** A handler started in [g0] returns, in a well-formed game, and the
    balances changed by the payouts it made. *)
Definition good (g0 : Game) (o : outcome) : Prop :=
  exists g evs,
    o = Some (g, evs) /\ game_wf g /\ board_below_five g
    /\ num_players g = num_players g0
    /\ total_money g = total_money g0 + payouts evs.
End GameInvariants.

Module Scenario.
Import Cards Game.

(** The ids of the cards dealt to each player in round 1, in the order
    dealt. *)
Definition first_hands : list (list nat) :=
  [[0; 3; 12; 15; 25; 28; 54; 57; 5; 6];
   [1; 4; 13; 16; 26; 29; 55; 66; 58; 7];
   [2; 14; 27; 56; 8; 9; 10; 11; 17; 18]]%nat.

(** The deck order that deals [first_hands]: the hands interleaved, then
    the other cards by id. *)
Definition deck_order : list nat :=
  concat (map (fun k => map (fun h => nth k h 0%nat) first_hands) (seq 0 10))
  ++ filter (fun i => negb (existsb (Nat.eqb i) (concat first_hands))) (seq 0 70).

Definition shuffled : list Card :=
  map (fun i => nth i create_deck (mkCard 0 OrangeTarou t_open)) deck_order.

Definition three_players : list Player :=
  [new_player "a" "Ann"; new_player "b" "Bob"; new_player "c" "Cy"].

(** The player at [p] plays the first card of the hand and the two others
    pass in turn: the seller keeps the card for nothing. *)
Definition unsold (p : Z) : list request :=
  [play_card p 0 (-1); pass ((p + 1) mod 3); pass ((p + 2) mod 3)].

(** Four cards of one artist go unsold, the fifth ends the round. *)
Definition quick_round : list request :=
  unsold 0 ++ unsold 1 ++ unsold 2 ++ unsold 0 ++ [play_card 1 0 (-1)].

Definition to_round_4 : list request :=
  quick_round ++ quick_round ++ quick_round
  ++ unsold 0 ++ unsold 1 ++ unsold 2 ++ unsold 0.

(** The game from [start] on. *)
Definition play_out (rs : list request) : outcome :=
  match start (new_game three_players) shuffled with
  | Some (g0, evs0) => after evs0 (run g0 rs)
  | None => None
  end.

(** What is read off an outcome: the board count of [RedTarou], the round
    number, whether the game is over, whether a double is pending, and
    the number of errors sent. *)
Definition view (o : outcome) : option (Z * Z * bool * bool * nat) :=
  option_map
    (fun x => (board (fst x) RedTarou, round_num (fst x), game_over (fst x),
               waiting_for_double (fst x),
               length (filter is_error (snd x))))
    o.
End Scenario.

Module Examples.
Import Cards Auction.

Definition a_card : Card := mkCard 0 OrangeTarou t_open.

(** Three players, seller P0. *)
Definition open_3 : Auction := new_auction t_open 0 a_card 3 None.

Definition once_around_3 : Auction :=
  start_once_around (new_auction t_once_around 0 a_card 3 None).

Definition fixed_price_3 : Auction :=
  new_auction t_fixed_price 0 a_card 3 None.
End Examples.

Module PendingDouble.
Import Cards Game.

(** Round 4 of the scenario with four cards of [RedTarou] on the board:
    P1 has played a double card of that artist and owes the answer. *)
Definition game : Game :=
  match Scenario.play_out (Scenario.to_round_4 ++ [play_card 1 0 (-1)]) with
  | Some (g, _) => g
  | None => new_game []
  end.

Definition base : Card := mkCard 66 RedTarou t_double.

Definition player : Player :=
  match py_get (players game) 1 with
  | Some pl => pl
  | None => new_player "" ""
  end.
End PendingDouble.

Module OnceAroundSpec.
Import Cards Auction AuctionSpec.

(** What a player does with the one turn: a bid, or a pass. *)
Definition call_of (p : Z) (choice : option Z) : call :=
  match choice with
  | Some x => (p, a_bid, x)
  | None => (p, a_pass, 0)
  end.

(** The players [(s + k) mod n], [(s + k + 1) mod n], ... take their
    turns one after the other, each with the own choice. *)
Fixpoint in_turn (n s k : Z) (choices : list (option Z)) : list call :=
  match choices with
  | [] => []
  | c :: rest => call_of ((s + k) mod n) c :: in_turn n s (k + 1) rest
  end.

(** Every bid among the choices is a multiple of 1000 above the bid
    before it ([cur] at first). *)
Fixpoint raising (cur : Z) (choices : list (option Z)) : bool :=
  match choices with
  | [] => true
  | None :: rest => raising cur rest
  | Some x :: rest => (cur <? x) && (x mod 1000 =? 0) && raising x rest
  end.

(** Who made the last bid among the choices, and the bid; [best] when
    there is none. *)
Fixpoint last_bid (n s k : Z) (best : Z * Z) (choices : list (option Z))
  : Z * Z :=
  match choices with
  | [] => best
  | None :: rest => last_bid n s (k + 1) best rest
  | Some x :: rest => last_bid n s (k + 1) ((s + k) mod n, x) rest
  end.

(** A once-around auction in which the first [k] players after the seller
    have had their turn, [best] being the last bid and its bidder. *)
Definition went_around (n s k : Z) (best : Z * Z) (a : Auction) : Prop :=
  auction_type a = t_once_around /\ seller_index a = s /\ num_players a = n
  /\ current_turn_index a = (s + k + 1) mod n
  /\ (forall x, In x (passed a) -> exists j, 1 <= j <= k /\ x = (s + j) mod n)
  /\ current_bid a = snd best
  /\ default_result a = mkResult (fst best) (snd best) s.
End OnceAroundSpec.

Section SettlementSpec.
Import Cards Game.

(** What the sale [r] of the card [c] does to the player at seat [i]: the
    winner pays the price to the seller unless they are one player, and
    the card goes on the winner's pile. *)
Definition settled (r : Auction.AuctionResult) (c : Card) (i : Z) (p : Player)
  : Player :=
  let w := Auction.winner_index r in
  let s := Auction.res_seller_index r in
  let paid :=
    if w =? s then money p
    else if i =? w then money p - Auction.price r
    else if i =? s then money p + Auction.price r
    else money p in
  mkPlayer (player_id p) (name p) paid (hand p)
    (if i =? w then paintings p ++ [c] else paintings p) (is_ai p).
End SettlementSpec.

Section DealSpec.
Import Cards.

(** The numbers of cards the players receive in the fourth round, when
    the deck of 70 cards runs out. *)
Definition last_deal (num_players : Z) : list nat :=
  if num_players =? 3 then [2; 1; 1]%nat
  else if num_players =? 4 then [1; 1; 0; 0]%nat
  else [0; 0; 0; 0; 0]%nat.
End DealSpec.

Module RoundEndExample.
Import Cards Game.

(** Round 1 of the scenario after four cards went unsold: every seller
    holds the own card. *)
Definition game : Game :=
  match Scenario.play_out
          (Scenario.unsold 0 ++ Scenario.unsold 1 ++ Scenario.unsold 2
           ++ Scenario.unsold 0) with
  | Some (g, _) => g
  | None => new_game []
  end.

(** The game and the events [_end_round] makes of it. *)
Definition next : Game :=
  match _end_round game with
  | Some (g, _) => g
  | None => game
  end.

Definition events : list event :=
  match _end_round game with
  | Some (_, evs) => evs
  | None => []
  end.
End RoundEndExample.

Section GameEndSpec.
Import Cards Game.

(** The player at seat [w] has the most money, and is the first to have
    that much. *)
Definition first_richest (ps : list Player) (w : Z) : Prop :=
  0 <= w < Z.of_nat (length ps)
  /\ exists pw, nth_error ps (Z.to_nat w) = Some pw
       /\ forall i p, nth_error ps i = Some p ->
            money p <= money pw /\ (Z.of_nat i < w -> money p < money pw).
(** The best seat so far: no seat below [hi] has more, no seat before it
    as much. *)
Definition best_so_far (ps : list Player) (hi : Z) (best : Z * Z) : Prop :=
  0 <= fst best < hi
  /\ money_at ps (fst best) = Some (snd best)
  /\ forall q mq, 0 <= q < hi -> money_at ps q = Some mq ->
       mq <= snd best /\ (q < fst best -> mq < snd best).
End GameEndSpec.

Module GameEndExample.
Import Cards Game.

(** Round 4 of the scenario, four cards on the board. *)
Definition game : Game :=
  match Scenario.play_out Scenario.to_round_4 with
  | Some (g, _) => g
  | None => new_game []
  end.

(** The game and the events [_end_round] makes of it. *)
Definition next : Game :=
  match _end_round game with
  | Some (g, _) => g
  | None => game
  end.

Definition events : list event :=
  match _end_round game with
  | Some (_, evs) => evs
  | None => []
  end.

(** P1, whose turn it is, holds a double card of [RedTarou] and, next to
    it, another card of that artist. *)
Definition player : Player :=
  match nth_error (players game) 1 with
  | Some pl => pl
  | None => new_player "" ""
  end.

Definition double : Card := mkCard 66 RedTarou t_double.

Definition partner : Card := mkCard 58 RedTarou t_once_around.
End GameEndExample.

Section RejectionSpec.
Import Cards Game.

(** The handler sent no error. *)
Definition clean (o : outcome) : Prop :=
  forall g evs, o = Some (g, evs) -> existsb is_error evs = false.

(** If the handler started in [g0] for the player [p] sent an error, it
    sent that one message to [p] and left the game as it was. *)
Definition turned_away (g0 : Game) (p : Z) (o : outcome) : Prop :=
  forall g evs, o = Some (g, evs) -> existsb is_error evs = true ->
    g = g0 /\ exists e, evs = [ev_error p e].
End RejectionSpec.

Section SolvencySpec.
Import Cards Game.

(** Every bid the auction has on record is one its bidder can pay from
    the balance in [ps]; in a fixed-price auction [current_bid] is the
    seller's price and there is no bidder. *)
Definition backed (ps : list Player) (a : Auction.Auction) : Prop :=
  0 <= Auction.current_bid a /\ 0 <= Auction.fixed_price a
  /\ (Auction.auction_type a = t_fixed_price
      \/ Auction.current_bidder a = -1
      \/ exists p, nth_error ps (Z.to_nat (Auction.current_bidder a)) = Some p
                   /\ Auction.current_bid a <= money p)
  /\ forall q v, In (q, v) (Auction.bids a) ->
       0 <= v /\ exists p, nth_error ps (Z.to_nat q) = Some p /\ v <= money p.

(** A result the winner can pay. *)
Definition payable (ps : list Player) (r : Auction.AuctionResult) : Prop :=
  0 <= Auction.price r
  /\ (Auction.winner_index r = Auction.res_seller_index r
      \/ exists p, nth_error ps (Z.to_nat (Auction.winner_index r)) = Some p
                   /\ Auction.price r <= money p).

(** What a check returns in an auction of type [t] can be paid, and it
    touches no bid. *)
Definition check_backed (ps : list Player) (t : atype)
    (check : Auction.Auction -> option Auction.AuctionResult * Auction.Auction)
  : Prop :=
  forall a, Auction.auction_type a = t -> backed ps a ->
    backed ps (snd (check a))
    /\ forall r, fst (check a) = Some r -> payable ps r.

(** No seat has lost money from [ps] to [ps']. *)
Definition grows (ps ps' : list Player) : Prop :=
  forall i p, nth_error ps i = Some p ->
    exists p', nth_error ps' i = Some p' /\ money p <= money p'.

(** Nobody is in debt, no artist has a negative value, and the bids of
    the auction in progress are backed. *)
Definition solvent (g : Game) : Prop :=
  Forall (fun p => 0 <= money p) (players g)
  /\ (forall a, 0 <= market g a)
  /\ forall a, current_auction g = Some a -> backed (players g) a.

(** The handler leaves a solvent game. *)
Definition stays_solvent (o : outcome) : Prop :=
  forall g evs, o = Some (g, evs) -> solvent g.
End SolvencySpec.

Module SkipExample.
Import Cards Game.

(** Round 1 of the scenario after four cards went unsold, the turn with
    P1, and P2 left without cards. *)
Definition game : Game :=
  with_players RoundEndExample.game
    (list_update (players RoundEndExample.game) 2 (fun p => with_hand p [])).
End SkipExample.

Module SaleExample.
Import Cards Game.

(** P0 plays the first card, an open auction: P1 bids 5000 and P2 passes,
    which sells the card to P1.  Then P1 plays a card, P2 bids 98000, P0
    bids 99000 and P2, who may bid again, bids all of 100000. *)
Definition requests : list request :=
  [play_card 0 0 (-1); bid 1 5000; pass 2;
   play_card 1 0 (-1); bid 2 98000; bid 0 99000; bid 2 100000; pass 0].
End SaleExample.

Module DeclinedDouble.
Import Cards Game.

(** Round 1 of the scenario with one card of [OrangeTarou] on the board:
    P1 has played the double card of [RedTarou] alone and owes the
    answer. *)
Definition game : Game :=
  match Scenario.play_out (Scenario.unsold 0 ++ [play_card 1 7 (-1)]) with
  | Some (g, _) => g
  | None => new_game []
  end.

Definition base : Card := mkCard 66 RedTarou t_double.

Definition player : Player :=
  match py_get (players game) 1 with
  | Some pl => pl
  | None => new_player "" ""
  end.
End DeclinedDouble.

(** * Properties *)

(** ** Arithmetic used throughout *)

Lemma floor_1000_multiple (x : Z) : ((x / 1000) * 1000) mod 1000 = 0.
Proof. apply Z.mod_mul; lia. Qed.

Lemma floor_1000_above (x m : Z) :
  m mod 1000 = 0 -> m <= x -> m <= (x / 1000) * 1000.
Proof.
  intros Hm Hle.
  pose proof (Z.div_mod m 1000 ltac:(lia)) as Em.
  pose proof (Z.div_le_mono m x 1000 ltac:(lia) Hle).
  lia.
Qed.

Lemma multiple_step (cb : Z) : cb mod 1000 = 0 -> (cb + 1000) mod 1000 = 0.
Proof.
  intros H. rewrite <- (Z.mul_1_l 1000) at 1.
  rewrite Z.mod_add by lia. exact H.
Qed.

(** ** The automated bidders (C9) *)

Section DeciderFacts.
Import AI.

Lemma Qltb_true (x y : Q) : Qltb x y = true <-> (x < y)%Q.
Proof.
  unfold Qltb. rewrite negb_true_iff. split.
  - intros H. apply Qnot_le_lt. intros Hle.
    apply Qle_bool_iff in Hle. congruence.
  - intros H. destruct (Qle_bool y x) eqn:E; [|reflexivity].
    apply Qle_bool_iff in E. exfalso. exact (Qlt_not_le _ _ H E).
Qed.

Lemma py_min_le_right (x y : Q) : (py_min x y <= y)%Q.
Proof.
  unfold py_min. destruct (Qltb y x) eqn:E.
  - apply Qle_refl.
  - apply Qnot_lt_le. intros H. apply Qltb_true in H. congruence.
Qed.

(** With less money than the smallest bid, the capped willingness is
    below that bid. *)
Lemma capped_below (w : Q) (my_money min_bid : Z) :
  my_money < min_bid ->
  Qltb (py_min w (inject_Z my_money)) (inject_Z min_bid) = true.
Proof.
  intros H. apply Qltb_true.
  eapply Qle_lt_trans; [apply py_min_le_right|].
  rewrite <- Zlt_Qlt. exact H.
Qed.
End DeciderFacts.

(** C9.  Whatever the floats round to and whatever is drawn: with the current
    bid a non-negative multiple of 1000 and non-negative funds, a bid of
    [decide_bid_open] or [decide_bid_once_around] is a multiple of 1000, at
    most the funds and above the current bid; [decide_bid_sealed] returns a
    multiple of 1000 between 0 and the funds; and when no multiple of 1000
    above the current bid (above 0, for sealed) is within the funds, the
    answer is the pass: [None], or 0 for sealed. *)
Theorem automation_bids_are_legal :
  forall (fmul fadd : Q -> Q -> Q) (d : AI.difficulty) (card : Cards.Card)
         (current_bid my_money : Z) (board market : Cards.ArtistMap)
         (num_players : Z) (is_double : bool) (agg_draw u : Q) (k : nat),
    0 <= current_bid -> current_bid mod 1000 = 0 -> 0 <= my_money ->
    (forall b,
        AI.decide_bid_open fmul fadd d card current_bid my_money board market
          is_double agg_draw k = Some b ->
        b mod 1000 = 0 /\ b <= my_money /\ current_bid < b)
    /\ (forall b,
        AI.decide_bid_once_around fmul fadd d card current_bid my_money board
          market is_double agg_draw u = Some b ->
        b mod 1000 = 0 /\ b <= my_money /\ current_bid < b)
    /\ (let b := AI.decide_bid_sealed fmul fadd d card my_money board market
                   num_players is_double agg_draw u in
        b mod 1000 = 0 /\ b <= my_money /\ 0 <= b)
    /\ ((forall b, b mod 1000 = 0 -> current_bid < b -> b <= my_money -> False) ->
        AI.decide_bid_open fmul fadd d card current_bid my_money board market
          is_double agg_draw k = None
        /\ AI.decide_bid_once_around fmul fadd d card current_bid my_money board
             market is_double agg_draw u = None)
    /\ ((forall b, b mod 1000 = 0 -> 0 < b -> b <= my_money -> False) ->
        AI.decide_bid_sealed fmul fadd d card my_money board market
          num_players is_double agg_draw u = 0).
Proof.
  intros fmul fadd d card cb m board market n dbl agg u k Hcb Hmod Hm.
  pose proof (multiple_step cb Hmod) as Hstep.
  repeat split.
  - unfold AI.decide_bid_open in H.
    destruct (AI.Qltb _ _); [discriminate|].
    destruct (m <? _) eqn:E in H; [discriminate|].
    injection H as <-. apply floor_1000_multiple.
  - unfold AI.decide_bid_open in H.
    destruct (AI.Qltb _ _); [discriminate|].
    destruct (m <? _) eqn:E in H; [discriminate|].
    injection H as <-. apply Z.ltb_ge in E. exact E.
  - unfold AI.decide_bid_open in H.
    destruct (AI.Qltb _ _); [discriminate|].
    destruct (m <? _) eqn:E in H; [discriminate|].
    injection H as <-.
    match goal with |- _ < (?x / 1000) * 1000 =>
      pose proof (floor_1000_above x (cb + 1000) Hstep ltac:(lia)) end.
    lia.
  - unfold AI.decide_bid_once_around in H.
    destruct (AI.Qltb _ _); [discriminate|].
    destruct (m <? _) eqn:E in H; [discriminate|].
    injection H as <-. apply floor_1000_multiple.
  - unfold AI.decide_bid_once_around in H.
    destruct (AI.Qltb _ _); [discriminate|].
    destruct (m <? _) eqn:E in H; [discriminate|].
    injection H as <-. apply Z.ltb_ge in E. exact E.
  - unfold AI.decide_bid_once_around in H.
    destruct (AI.Qltb _ _); [discriminate|].
    destruct (m <? _) eqn:E in H; [discriminate|].
    injection H as <-.
    match goal with |- _ < (?x / 1000) * 1000 =>
      pose proof (floor_1000_above x (cb + 1000) Hstep ltac:(lia)) end.
    lia.
  - cbv zeta. unfold AI.decide_bid_sealed.
    destruct (AI.Qltb _ _); [reflexivity|].
    destruct (m <? _); [reflexivity|]. apply floor_1000_multiple.
  - cbv zeta. unfold AI.decide_bid_sealed.
    destruct (AI.Qltb _ _); [exact Hm|].
    destruct (m <? _) eqn:E; [exact Hm|]. apply Z.ltb_ge in E. exact E.
  - cbv zeta. unfold AI.decide_bid_sealed.
    destruct (AI.Qltb _ _); [lia|].
    destruct (m <? _); [lia|].
    match goal with |- _ <= (?x / 1000) * 1000 =>
      pose proof (floor_1000_above x 1000 eq_refl ltac:(lia)) end.
    lia.
  - assert (m < cb + 1000) as Hlt.
    { destruct (Z_lt_le_dec m (cb + 1000)) as [?|Hge]; [assumption|].
      exfalso. apply (H (cb + 1000)); [exact Hstep | lia | exact Hge]. }
    unfold AI.decide_bid_open.
    rewrite (capped_below _ m (cb + 1000) Hlt). reflexivity.
  - assert (m < cb + 1000) as Hlt.
    { destruct (Z_lt_le_dec m (cb + 1000)) as [?|Hge]; [assumption|].
      exfalso. apply (H (cb + 1000)); [exact Hstep | lia | exact Hge]. }
    unfold AI.decide_bid_once_around.
    replace (Z.max (cb + 1000) 1000) with (cb + 1000) by lia.
    rewrite (capped_below _ m (cb + 1000) Hlt). reflexivity.
  - intros H.
    assert (m < 1000) as Hlt.
    { destruct (Z_lt_le_dec m 1000) as [?|Hge]; [assumption|].
      exfalso. apply (H 1000); [reflexivity | lia | exact Hge]. }
    unfold AI.decide_bid_sealed.
    rewrite (capped_below _ m 1000 Hlt). reflexivity.
Qed.

Section SortFacts.
Context {A : Type} (le : A -> A -> bool).
Hypothesis le_total : forall x y, le x y = false -> le y x = true.
Hypothesis le_trans : forall x y z, le x y = true -> le y z = true -> le x z = true.

Lemma insert_by_perm (x : A) (l : list A) : Permutation (insert_by le x l) (x :: l).
Proof.
  induction l as [|y l IH]; simpl.
  - reflexivity.
  - destruct (le x y).
    + reflexivity.
    + rewrite IH. apply perm_swap.
Qed.

Lemma sorted_by_perm (l : list A) : Permutation (sorted_by le l) l.
Proof.
  induction l as [|x l IH]; simpl.
  - reflexivity.
  - rewrite insert_by_perm. now constructor.
Qed.

Lemma insert_by_sorted (x : A) (l : list A) :
  StronglySorted (fun a b => le a b = true) l ->
  StronglySorted (fun a b => le a b = true) (insert_by le x l).
Proof.
  induction 1 as [|y l Hs IH Hall]; simpl.
  - constructor; constructor.
  - destruct (le x y) eqn:E.
    + constructor; [constructor; assumption|].
      constructor; [exact E|].
      eapply Forall_impl; [|exact Hall]. intros z Hz. eapply le_trans; eassumption.
    + constructor; [exact IH|].
      eapply Permutation_Forall; [symmetry; apply insert_by_perm|].
      constructor; [apply le_total; exact E | exact Hall].
Qed.

Lemma sorted_by_sorted (l : list A) :
  StronglySorted (fun a b => le a b = true) (sorted_by le l).
Proof.
  induction l as [|x l IH]; simpl.
  - constructor.
  - apply insert_by_sorted. exact IH.
Qed.
End SortFacts.

Lemma filter_none {A : Type} (f : A -> bool) (l : list A) :
  (forall x, In x l -> f x = false) -> filter f l = [].
Proof.
  induction l as [|x l IH]; intros H; simpl.
  - reflexivity.
  - rewrite (H x) by now left. apply IH. intros y Hy. apply H. now right.
Qed.

Section RoundValues.
Import Cards RoundSpec.

Lemma artist_eqb_eq (a b : artist) : artist_eqb a b = true <-> a = b.
Proof.
  unfold artist_eqb. rewrite Z.eqb_eq. split; [|now intros ->].
  destruct a, b; simpl; intros H; try reflexivity; discriminate.
Qed.

Lemma artist_eqb_refl (a : artist) : artist_eqb a a = true.
Proof. now apply artist_eqb_eq. Qed.

Lemma key_le_total (x y : artist * Z) : key_le x y = false -> key_le y x = true.
Proof. unfold key_le. lia. Qed.

Lemma key_le_trans (x y z : artist * Z) :
  key_le x y = true -> key_le y z = true -> key_le x z = true.
Proof. unfold key_le. lia. Qed.

Lemma key_le_antisym (x y : artist * Z) :
  key_le x y = true -> key_le y x = true -> fst x = fst y.
Proof.
  unfold key_le. intros H1 H2. apply artist_eqb_eq. unfold artist_eqb. lia.
Qed.

Lemma amap_set_same (m : ArtistMap) (a : artist) (v : Z) : amap_set m a v a = v.
Proof. unfold amap_set. now rewrite artist_eqb_refl. Qed.

Lemma amap_set_other (m : ArtistMap) (a b : artist) (v : Z) :
  a <> b -> amap_set m a v b = m b.
Proof.
  unfold amap_set. intros H. destruct (artist_eqb b a) eqn:E; [|reflexivity].
  apply artist_eqb_eq in E. congruence.
Qed.

Lemma assign_values_other (l : list (artist * Z)) :
  forall r vals a, ~ In a (map fst l) -> assign_values r l vals a = vals a.
Proof.
  induction l as [|[b c] l IH]; intros r vals a Hn; simpl in *.
  - reflexivity.
  - rewrite IH by tauto.
    destruct (ROUND_VALUES (r + 1)); [|reflexivity].
    apply amap_set_other. tauto.
Qed.

(** In a sorted list of distinct artists the place of an entry is the
    number of entries that stand before it. *)
Lemma assign_values_sorted (l : list (artist * Z)) :
  StronglySorted (fun x y => key_le x y = true) l ->
  NoDup (map fst l) ->
  forall r vals a c, In (a, c) l ->
    assign_values r l vals a =
    match ROUND_VALUES (r + 1 + Z.of_nat (length (filter (fun y => before y (a, c)) l))) with
    | Some v => v
    | None => vals a
    end.
Proof.
  induction 1 as [|[b cb] l Hs IH Hall]; intros Hnd r vals a c Hin.
  - destruct Hin.
  - simpl in Hnd. inversion Hnd as [|? ? Hnotin Hnd']; subst.
    destruct Hin as [E|Hin].
    + injection E as -> ->.
      assert (filter (fun y => before y (a, c)) ((a, c) :: l) = []) as ->.
      { apply filter_none. intros y [<-|Hy].
        - unfold before. simpl. now rewrite artist_eqb_refl, andb_false_r.
        - rewrite Forall_forall in Hall. specialize (Hall y Hy).
          unfold before. destruct (key_le y (a, c)) eqn:E; [|reflexivity].
          pose proof (key_le_antisym _ _ Hall E) as Hk. simpl in Hk.
          exfalso. apply Hnotin. rewrite Hk. apply in_map. exact Hy. }
      simpl. rewrite Z.add_0_r.
      rewrite assign_values_other by exact Hnotin.
      destruct (ROUND_VALUES (r + 1)); [apply amap_set_same|reflexivity].
    + assert (a <> b) as Hab.
      { intros ->. apply Hnotin. change b with (fst (b, c)). now apply in_map. }
      assert (before (b, cb) (a, c) = true) as Hb.
      { unfold before. rewrite Forall_forall in Hall. rewrite (Hall _ Hin). simpl.
        apply negb_true_iff. destruct (artist_eqb b a) eqn:E; [|reflexivity].
        apply artist_eqb_eq in E. congruence. }
      simpl. rewrite Hb. simpl length.
      rewrite (IH Hnd' (r + 1) _ a c Hin).
      replace (r + 1 + 1 + Z.of_nat (length (filter (fun y => before y (a, c)) l)))
        with (r + 1 + Z.of_nat (S (length (filter (fun y => before y (a, c)) l))))
        by lia.
      destruct (ROUND_VALUES (r + 1 + _)); [reflexivity|].
      destruct (ROUND_VALUES (r + 1)); [|reflexivity].
      apply amap_set_other. congruence.
Qed.
End RoundValues.

Section RoundValuesMain.
Import Cards RoundSpec.

Lemma NoDup_ARTISTS : NoDup ARTISTS.
Proof.
  unfold ARTISTS. repeat constructor; simpl; intuition discriminate.
Qed.

Lemma In_ARTISTS (a : artist) : In a ARTISTS.
Proof. destruct a; simpl; tauto. Qed.

Lemma filter_items (f : artist * Z -> bool) (board : ArtistMap) :
  filter f (items board) =
  map (fun a => (a, board a)) (filter (fun a => f (a, board a)) ARTISTS).
Proof.
  unfold items. induction ARTISTS as [|a l IH]; simpl.
  - reflexivity.
  - destruct (f (a, board a)); simpl; now rewrite IH.
Qed.

Lemma length_filter_map {A B : Type} (f : B -> bool) (g : A -> B) (l : list A) :
  length (filter f (map g l)) = length (filter (fun x => f (g x)) l).
Proof.
  induction l as [|x l IH]; simpl.
  - reflexivity.
  - destruct (f (g x)); simpl; now rewrite IH.
Qed.

Lemma filter_filter {A : Type} (f g : A -> bool) (l : list A) :
  filter f (filter g l) = filter (fun x => g x && f x) l.
Proof.
  induction l as [|x l IH]; simpl.
  - reflexivity.
  - destruct (g x); simpl; [destruct (f x)|]; now rewrite IH.
Qed.

Lemma award_ROUND_VALUES (r : Z) :
  match ROUND_VALUES r with Some v => v | None => 0 end = award r.
Proof.
  unfold ROUND_VALUES, award.
  destruct (r =? 1); [reflexivity|].
  destruct (r =? 2); [reflexivity|].
  destruct (r =? 3); reflexivity.
Qed.

Lemma calculate_round_values_rank (board : ArtistMap) (a : artist) :
  calculate_round_values board a =
  if 0 <? board a then award (rank board a) else 0.
Proof.
  unfold calculate_round_values.
  set (L := filter (fun x => 0 <? snd x) (items board)).
  pose proof (sorted_by_perm key_le L) as Hperm.
  pose proof (sorted_by_sorted key_le key_le_total key_le_trans L) as Hsorted.
  assert (L = map (fun a => (a, board a)) (filter (fun a => 0 <? board a) ARTISTS))
    as HL by apply filter_items.
  assert (NoDup (map fst L)) as HndL.
  { rewrite HL, map_map. cbn [fst]. rewrite map_id.
    apply NoDup_filter, NoDup_ARTISTS. }
  assert (NoDup (map fst (sorted_by key_le L))) as Hnd.
  { eapply Permutation_NoDup; [|exact HndL].
    apply Permutation_map. symmetry. exact Hperm. }
  destruct (0 <? board a) eqn:Epos.
  - assert (In (a, board a) (sorted_by key_le L)) as Hin.
    { eapply Permutation_in; [symmetry; exact Hperm|].
      unfold L. apply filter_In. split; [|exact Epos].
      exact (in_map (fun x => (x, board x)) ARTISTS a (In_ARTISTS a)). }
    rewrite (assign_values_sorted _ Hsorted Hnd 0 _ a (board a) Hin).
    rewrite award_ROUND_VALUES. unfold rank. f_equal. f_equal. f_equal.
    transitivity (length (filter (fun y => before y (a, board a)) L)).
    { apply Permutation_length.
      assert (forall (l1 l2 : list (artist * Z)), Permutation l1 l2 ->
                Permutation (filter (fun y => before y (a, board a)) l1)
                            (filter (fun y => before y (a, board a)) l2)) as Hpf.
      { induction 1; simpl.
        - constructor.
        - destruct (before x (a, board a)); [constructor|]; assumption.
        - destruct (before x (a, board a)), (before y (a, board a));
            try reflexivity. apply perm_swap.
        - etransitivity; eassumption. }
      apply Hpf. exact Hperm. }
    rewrite HL, length_filter_map, filter_filter. f_equal.
    apply filter_ext. intros b. unfold before, outranks, key_le, artist_eqb.
    cbn [fst snd]. apply Z.ltb_lt in Epos.
    assert (artist_index b = artist_index a -> board b = board a) as Hinj.
    { intros E. assert (artist_eqb b a = true) as E' by (unfold artist_eqb; lia).
      apply artist_eqb_eq in E'. now subst. }
    destruct (Z.eq_dec (artist_index b) (artist_index a)) as [E|E].
    + specialize (Hinj E). lia.
    + lia.
  - rewrite assign_values_other; [reflexivity|].
    intros Hin.
    assert (In a (map fst L)) as Hin'.
    { eapply Permutation_in; [|exact Hin]. apply Permutation_map. exact Hperm. }
    rewrite HL, map_map in Hin'. cbn [fst] in Hin'. rewrite map_id in Hin'.
    apply filter_In in Hin'. destruct Hin' as [_ Hpos]. congruence.
Qed.
End RoundValuesMain.

Section EndRoundFacts.
Import Cards Game.

Lemma after_Some evs o g' evs' :
  after evs o = Some (g', evs') ->
  exists evs0, o = Some (g', evs0) /\ evs' = evs ++ evs0.
Proof.
  unfold after. destruct o as [[g0 e0]|]; [|discriminate].
  intros H. injection H as <- <-. eauto.
Qed.

Lemma _end_game_Some g rv e g' evs :
  _end_game g rv e = Some (g', evs) ->
  g' = with_game_over g /\
  exists w, evs = [ev_round_ended rv (market g) e (round_num g); ev_game_ended w].
Proof.
  unfold _end_game. destruct (argmax_money _ _); [|discriminate].
  unfold done. intros H. injection H as <- <-. eauto.
Qed.

Lemma _end_round_market g g' evs :
  _end_round g = Some (g', evs) ->
  forall a, market g' a = market g a + calculate_round_values (board g) a.
Proof.
  unfold _end_round. cbn -[calculate_round_values deal_cards].
  destruct (MAX_ROUNDS <? round_num g + 1).
  - intros H a. apply after_Some in H. destruct H as (e0 & H & _).
    apply _end_game_Some in H. destruct H as [-> _]. reflexivity.
  - destruct (deal_cards _ _ _) as [[hands deck']|]; [|discriminate].
    cbn -[calculate_round_values py_get]. destruct (py_get _ 0); [|discriminate].
    unfold done. intros H a. injection H as <- _. reflexivity.
Qed.
End EndRoundFacts.

Section AuctionFacts.
Import Cards Auction AuctionSpec.

Ltac break_if :=
  match goal with
  | |- context [if ?b then _ else _] => destruct b eqn:?
  end.

(** A call that returns an error leaves the auction as it was and
    returns no result. *)
Lemma error_changes_nothing a p act amt e res a' :
  process_action a p act amt = (Some e, res, a') -> a' = a /\ res = None.
Proof.
  unfold process_action.
  destruct (auction_type a) eqn:Et, act;
    unfold checked, unchecked, open_bid, once_around_bid, sealed_bid,
      set_fixed_price; try rewrite Et; cbn [negb atype_eqb fst snd];
    try discriminate;
    repeat (break_if; cbn [fst snd]);
    intros H; inversion H; subst; split; reflexivity.
Qed.

Lemma state_eqb_eq s t : state_eqb s t = true <-> s = t.
Proof. destruct s, t; simpl; split; intros H; try reflexivity; discriminate. Qed.
End AuctionFacts.

(** C3, as the code has it.  A call of [process_action] that returns an error
    leaves the auction as it was and returns no result.  An error is
    returned for a bid or a price with a malformed amount, for a bid of the
    seller (open, sealed), a second sealed bid, a once-around bid out of
    turn, and a price set outside [WAITING_FOR_PRICE].  An action kind the
    protocol does not know, and an [accept] of a player the cursor is not
    on, are ignored: no error, no result, and the auction as it was.
    Nothing is said of [pass] and [decline]. *)
Theorem rejected_actions_change_nothing :
  forall (a : Auction.Auction) (p : Z) (act : Auction.action) (amt : Z),
    let rejected :=
      exists e, Auction.process_action a p act amt = (Some e, None, a) in
    let ignored := Auction.process_action a p act amt = (None, None, a) in
    (forall e res a',
        Auction.process_action a p act amt = (Some e, res, a') ->
        a' = a /\ res = None)
    /\ (act = Auction.a_bid ->
        Auction.auction_type a = Cards.t_open
        \/ Auction.auction_type a = Cards.t_once_around ->
        amt <= Auction.current_bid a \/ amt mod 1000 <> 0 -> rejected)
    /\ (act = Auction.a_bid -> Auction.auction_type a = Cards.t_sealed ->
        amt < 0 \/ amt mod 1000 <> 0 -> rejected)
    /\ (act = Auction.a_set_price ->
        Auction.auction_type a = Cards.t_fixed_price ->
        amt <= 0 \/ amt mod 1000 <> 0 -> rejected)
    /\ (act = Auction.a_bid ->
        Auction.auction_type a = Cards.t_open
        \/ Auction.auction_type a = Cards.t_sealed ->
        p = Auction.seller_index a -> rejected)
    /\ (act = Auction.a_bid -> Auction.auction_type a = Cards.t_sealed ->
        dict_mem (Auction.bids a) p = true -> rejected)
    /\ (act = Auction.a_bid -> Auction.auction_type a = Cards.t_once_around ->
        p <> Auction.current_turn_index a -> rejected)
    /\ (act = Auction.a_set_price ->
        Auction.auction_type a = Cards.t_fixed_price ->
        Auction.state a <> Auction.WAITING_FOR_PRICE -> rejected)
    /\ (AuctionSpec.wrong_protocol (Auction.auction_type a) act = true -> ignored)
    /\ (act = Auction.a_accept ->
        Auction.auction_type a = Cards.t_fixed_price ->
        p <> Auction.current_turn_index a -> ignored).
Proof.
  intros a p act amt rejected ignored. subst rejected ignored.
  split; [intros e res a'; apply error_changes_nothing|].
  unfold Auction.process_action, Auction.checked, Auction.unchecked.
  repeat split.
  - intros -> [Et|Et] Hbad; rewrite Et;
      unfold Auction.open_bid, Auction.once_around_bid; try rewrite Et;
      cbn [negb Cards.atype_eqb];
      repeat (match goal with
              | |- context [if ?b then _ else _] => destruct b eqn:?
              end; cbn [fst snd]); eauto; exfalso; lia.
  - intros -> Et Hbad; rewrite Et. unfold Auction.sealed_bid.
    repeat (match goal with
            | |- context [if ?b then _ else _] => destruct b eqn:?
            end; cbn [fst snd]); eauto; exfalso; lia.
  - intros -> Et Hbad; rewrite Et. unfold Auction.set_fixed_price.
    repeat (match goal with
            | |- context [if ?b then _ else _] => destruct b eqn:?
            end; cbn [fst snd]); eauto; exfalso; lia.
  - intros -> [Et|Et] Hp; rewrite Et;
      unfold Auction.open_bid, Auction.sealed_bid; try rewrite Et;
      cbn [negb Cards.atype_eqb];
      repeat (match goal with
              | |- context [if ?b then _ else _] => destruct b eqn:?
              end; cbn [fst snd]); eauto; exfalso; lia.
  - intros -> Et Hp; rewrite Et. unfold Auction.sealed_bid. rewrite Hp.
    destruct (p =? Auction.seller_index a); cbn [fst snd]; eauto.
  - intros -> Et Hp; rewrite Et. unfold Auction.once_around_bid.
    destruct (p =? Auction.current_turn_index a) eqn:E; [exfalso; lia|].
    cbn [negb fst snd]. eauto.
  - intros -> Et Hs; rewrite Et. unfold Auction.set_fixed_price.
    destruct (Auction.state_eqb (Auction.state a) Auction.WAITING_FOR_PRICE) eqn:E.
    + apply state_eqb_eq in E. contradiction.
    + cbn [negb fst snd]. eauto.
  - destruct (Auction.auction_type a), act; simpl; intros H;
      try discriminate; reflexivity.
  - intros -> Et Hp; rewrite Et. unfold Auction.fixed_price_accept.
    destruct (p =? Auction.current_turn_index a) eqn:E; [exfalso; lia|].
    reflexivity.
Qed.

Section DictFacts.
Context {V : Type}.


Lemma dict_set_In (d : list (Z * V)) k v q w :
  In (q, w) (dict_set d k v) -> (q = k /\ w = v) \/ In (q, w) d.
Proof.
  induction d as [|[k' v'] d IH]; simpl.
  - intros [E|[]]. injection E as <- <-. now left.
  - destruct (k' =? k) eqn:E; simpl.
    + intros [E'|H]; [|now right; right].
      injection E' as <- <-. left. split; [lia|reflexivity].
    + intros [E'|H]; [now right; left|].
      destruct (IH H) as [?|?]; [now left|now right; right].
Qed.

Lemma dict_mem_In (d : list (Z * V)) k :
  dict_mem d k = true <-> In k (map fst d).
Proof.
  unfold dict_mem. induction d as [|[k' v'] d IH]; simpl.
  - split; [discriminate|tauto].
  - destruct (k' =? k) eqn:E.
    + split; [intros _; left; lia|reflexivity].
    + rewrite IH. split; [tauto|]. intros [?|?]; [lia|assumption].
Qed.

Lemma dict_set_keys_new (d : list (Z * V)) k v :
  dict_mem d k = false -> dict_set d k v = d ++ [(k, v)].
Proof.
  unfold dict_mem. induction d as [|[k' v'] d IH]; simpl.
  - reflexivity.
  - destruct (k' =? k) eqn:E; [discriminate|].
    intros H. now rewrite IH.
Qed.
End DictFacts.

Lemma memZ_In x l : memZ x l = true <-> In x l.
Proof.
  unfold memZ. rewrite existsb_exists. split.
  - intros (y & Hy & E). apply Z.eqb_eq in E. now subst.
  - intros H. exists x. split; [assumption|apply Z.eqb_refl].
Qed.

Section OpenAuction.
Import Cards Auction AuctionSpec.

Variables (n s : Z).







End OpenAuction.

Section OpenResolution.
Import Cards Auction AuctionSpec.




End OpenResolution.


Section RangeFacts.
Lemma range_In lo hi x : In x (range lo hi) <-> lo <= x < hi.
Proof.
  unfold range. rewrite in_map_iff. split.
  - intros (k & <- & Hk). apply in_seq in Hk. lia.
  - intros H. exists (Z.to_nat (x - lo)). split; [lia|]. apply in_seq. lia.
Qed.

Lemma range_length lo hi : length (range lo hi) = Z.to_nat (hi - lo).
Proof. unfold range. now rewrite length_map, length_seq. Qed.

Lemma range_NoDup lo hi : NoDup (range lo hi).
Proof.
  unfold range. apply Finite.Injective_map_NoDup; [|apply seq_NoDup].
  intros x y H. lia.
Qed.

Lemma range_cons lo hi : lo < hi -> range lo hi = lo :: range (lo + 1) hi.
Proof.
  intros H. unfold range.
  replace (Z.to_nat (hi - lo)) with (S (Z.to_nat (hi - (lo + 1)))) by lia.
  simpl. f_equal; [lia|]. rewrite <- seq_shift, map_map.
  apply map_ext. intros k. lia.
Qed.

Lemma length_filter_remove (s : Z) (l : list Z) :
  NoDup l -> In s l ->
  S (length (filter (fun q => negb (q =? s)) l)) = length l.
Proof.
  induction 1 as [|x l Hx Hnd IH]; intros Hin; [destruct Hin|].
  simpl. destruct (x =? s) eqn:E; simpl.
  - f_equal. apply Z.eqb_eq in E. subst x.
    f_equal. clear IH Hin Hnd. induction l as [|y l IHl]; [reflexivity|].
    simpl. destruct (y =? s) eqn:Ey.
    + exfalso. apply Hx. left. lia.
    + simpl. f_equal. apply IHl. intros Hs. apply Hx. now right.
  - f_equal. apply IH. destruct Hin as [->|Hin]; [lia|exact Hin].
Qed.
End RangeFacts.

Section MaxFacts.
Import Auction.

Lemma max_value_spec (rest : list Z) :
  forall first,
    In (max_value first rest) (first :: rest)
    /\ forall v, In v (first :: rest) -> v <= max_value first rest.
Proof.
  unfold max_value. induction rest as [|x rest IH]; intros first; simpl.
  - split; [now left|]. intros v [->|[]]. lia.
  - destruct (IH (Z.max first x)) as [Hin Hub]. split.
    + destruct Hin as [E|Hin]; [|now right; right].
      rewrite <- E. destruct (Z.max_spec first x) as [[_ ->]|[_ ->]]; auto.
    + intros v [->|[->|Hv]].
      * specialize (Hub (Z.max v x) (or_introl eq_refl)). lia.
      * specialize (Hub (Z.max first v) (or_introl eq_refl)). lia.
      * apply Hub. now right.
Qed.

Lemma max_bid_item_spec (rest : list (Z * Z)) :
  forall first,
    In (max_bid_item first rest) (first :: rest)
    /\ forall x, In x (first :: rest) ->
                 bid_key_lt (max_bid_item first rest) x = false.
Proof.
  unfold max_bid_item. induction rest as [|y rest IH]; intros first; simpl.
  - split; [now left|]. intros x [<-|[]]. unfold bid_key_lt. lia.
  - destruct (IH (if bid_key_lt first y then y else first)) as [Hin Hub].
    split.
    + destruct Hin as [E|Hin]; [|now right; right].
      rewrite <- E. destruct (bid_key_lt first y); auto.
    + intros x [<-|[<-|Hx]].
      * specialize (Hub _ (or_introl eq_refl)).
        destruct (bid_key_lt first y) eqn:E; [|exact Hub].
        unfold bid_key_lt in *. lia.
      * specialize (Hub _ (or_introl eq_refl)).
        destruct (bid_key_lt first y) eqn:E; [exact Hub|].
        unfold bid_key_lt in *. lia.
      * apply Hub. now right.
Qed.
End MaxFacts.

Section SealedAuction.
Import Cards Auction AuctionSpec.

Variables (n s : Z).

Lemma sealed_inv_new c dc : sealed_inv n s (new_auction t_sealed s c n dc).
Proof.
  unfold sealed_inv. simpl. repeat split; try constructor; contradiction.
Qed.

Lemma sealed_inv_set a p v :
  sealed_inv n s a -> 0 <= p < n -> p <> s -> 0 <= v ->
  dict_mem (bids a) p = false -> sealed_inv n s (set_sealed a p v).
Proof.
  intros (Ht & Hs & Hn & Hc & Hnd & Hall) Hp Hps Hv Hnew.
  unfold sealed_inv. simpl. rewrite (dict_set_keys_new _ _ _ Hnew).
  repeat split; try assumption.
  - rewrite length_app. simpl. lia.
  - rewrite map_app. simpl.
    assert (~ In p (map fst (bids a))) as Hnin.
    { intros H. apply dict_mem_In in H. congruence. }
    clear - Hnd Hnin. induction (bids a) as [|[k w] l IH]; simpl in *.
    + constructor; [tauto|constructor].
    + inversion Hnd; subst. constructor.
      * rewrite in_app_iff. simpl. intuition.
      * apply IH; tauto.
  - apply in_app_iff in H. destruct H as [H|[E|[]]].
    + apply (Hall _ _ H).
    + injection E as <- <-. lia.
  - apply in_app_iff in H. destruct H as [H|[E|[]]].
    + apply (Hall _ _ H).
    + injection E as <- <-. lia.
  - apply in_app_iff in H. destruct H as [H|[E|[]]].
    + apply (Hall _ _ H).
    + injection E as <- <-. lia.
  - apply in_app_iff in H. destruct H as [H|[E|[]]].
    + apply (Hall _ _ H).
    + injection E as <- <-. lia.
Qed.

Lemma sealed_inv_resolved a : sealed_inv n s a -> sealed_inv n s (set_state a RESOLVED).
Proof. unfold sealed_inv. simpl. tauto. Qed.

Lemma check_sealed_resolved_inv a :
  sealed_inv n s a -> sealed_inv n s (snd (check_sealed_resolved a)).
Proof.
  intros H. unfold check_sealed_resolved.
  destruct (_ <=? _); [|exact H].
  destruct (bids a) as [|b rest] eqn:E; simpl; [now apply sealed_inv_resolved|].
  destruct (_ =? 0); simpl; now apply sealed_inv_resolved.
Qed.

Lemma sealed_inv_step a p act amt :
  sealed_inv n s a -> 0 <= p < n -> sealed_inv n s (snd (process_action a p act amt)).
Proof.
  intros H Hp. pose proof H as (Ht & Hs & _).
  unfold process_action. rewrite Ht.
  destruct act; simpl; try exact H.
  - unfold checked, sealed_bid.
    destruct (p =? seller_index a) eqn:E1; [exact H|].
    destruct (dict_mem (bids a) p) eqn:E2; [exact H|].
    destruct (amt <? 0) eqn:E3; [exact H|].
    destruct (negb (amt mod 1000 =? 0)); [exact H|].
    cbn [fst snd]. apply check_sealed_resolved_inv.
    apply sealed_inv_set; try assumption; lia.
  - apply check_sealed_resolved_inv. unfold sealed_pass.
    destruct (dict_mem (bids a) p) eqn:E2; [exact H|].
    destruct (p =? seller_index a) eqn:E1; [exact H|].
    cbn [negb andb]. apply sealed_inv_set; try assumption; lia.
Qed.

Lemma sealed_inv_play script :
  forall a, sealed_inv n s a -> Forall (fun c => 0 <= actor c < n) script ->
            sealed_inv n s (snd (play a script)).
Proof.
  induction script as [|[[p act] amt] rest IH]; intros a H Hall; simpl.
  - exact H.
  - inversion Hall as [|? ? Hp Hrest]; subst.
    pose proof (sealed_inv_step a p act amt H Hp) as H1.
    destruct (process_action a p act amt) as [[err res] a1].
    specialize (IH a1 H1 Hrest).
    destruct (play a1 rest) as [outs a2]. exact IH.
Qed.

Lemma all_bids_in_count a :
  0 <= s < n ->
  sealed_inv n s a -> (n - 1 <= sealed_bids_received a <-> all_bids_in n s a).
Proof.
  intros seller_in_range (_ & _ & _ & Hc & Hnd & Hall). rewrite Hc.
  set (NS := filter (fun q => negb (q =? s)) (range 0 n)).
  assert (S (length NS) = Z.to_nat n) as Hlen.
  { unfold NS. rewrite length_filter_remove.
    - rewrite range_length. f_equal. lia.
    - apply range_NoDup.
    - apply range_In. lia. }
  assert (incl (map fst (bids a)) NS) as Hincl.
  { intros q Hq. apply in_map_iff in Hq. destruct Hq as ([q' v] & <- & Hin).
    destruct (Hall _ _ Hin) as (Hr & Hne & _). simpl.
    apply filter_In. split; [apply range_In; lia|].
    apply negb_true_iff. lia. }
  assert (NoDup NS) as HndNS by (apply NoDup_filter, range_NoDup).
  rewrite <- (length_map fst (bids a)).
  unfold all_bids_in. split.
  - intros Hge q Hq Hne. apply dict_mem_In.
    apply (NoDup_length_incl Hnd (l' := NS)); [lia|exact Hincl|].
    apply filter_In. split; [apply range_In; lia|]. apply negb_true_iff. lia.
  - intros Hcover.
    assert (incl NS (map fst (bids a))) as Hincl'.
    { intros q Hq. apply filter_In in Hq. destruct Hq as [Hr Hne].
      apply range_In in Hr. apply dict_mem_In. apply Hcover; [lia|].
      apply negb_true_iff in Hne. lia. }
    pose proof (NoDup_incl_length HndNS Hincl'). lia.
Qed.
End SealedAuction.

Section SealedResolution.
Import Cards Auction AuctionSpec.

Lemma check_sealed_resolved_bids a :
  bids (snd (check_sealed_resolved a)) = bids a.
Proof.
  unfold check_sealed_resolved.
  destruct (_ <=? _); [|reflexivity].
  destruct (bids a) as [|b rest] eqn:E; [simpl; congruence|].
  destruct (_ =? 0); simpl; congruence.
Qed.

Lemma check_sealed_resolved_outcome n s a1 :
  0 <= s < n -> sealed_inv n s a1 ->
  let res := fst (check_sealed_resolved a1) in
  let a2 := snd (check_sealed_resolved a1) in
  ((exists r, res = Some r) <-> all_bids_in n s a2)
  /\ (forall r, res = Some r -> sealed_outcome s a2 r).
Proof.
  intros Hs H1. cbv zeta.
  pose proof (all_bids_in_count n s a1 Hs H1) as Hcount.
  destruct H1 as (_ & Es & En & _ & _ & Hall).
  unfold check_sealed_resolved. rewrite En.
  destruct (n - 1 <=? sealed_bids_received a1) eqn:E.
  - assert (all_bids_in n s a1) as Hin by (apply Hcount; lia).
    assert (forall (r : AuctionResult),
               sealed_outcome s a1 r ->
               ((exists r0, Some r = Some r0)
                <-> all_bids_in n s (set_state a1 RESOLVED))
               /\ (forall r0, Some r = Some r0 ->
                              sealed_outcome s (set_state a1 RESOLVED) r0))
      as Hwrap.
    { intros r Hr. split.
      - split; [intros _; exact Hin|eauto].
      - intros r0 E0. injection E0 as <-. exact Hr. }
    destruct (bids a1) as [|b rest] eqn:Eb; cbn [fst snd].
    + apply Hwrap. unfold sealed_outcome. cbn [bids set_state]. try rewrite Eb.
      split; [exact Es|]. left. split; [contradiction|auto].
    + destruct (max_value_spec (map snd rest) (snd b)) as [Hmin Hmub].
      destruct (max_value (snd b) (map snd rest) =? 0) eqn:Emax; cbn [fst snd].
      * apply Hwrap. unfold sealed_outcome. cbn [bids set_state]. try rewrite Eb.
        split; [exact Es|]. left. split; [|auto].
        intros q v Hqv. try rewrite Eb in Hall.
        destruct (Hall q v Hqv) as (_ & _ & Hv).
        assert (v <= max_value (snd b) (map snd rest)).
        { apply Hmub. change (snd b :: map snd rest) with (map snd (b :: rest)).
          change v with (snd (q, v)). now apply in_map. }
        lia.
      * apply Hwrap. unfold sealed_outcome. cbn [bids set_state]. try rewrite Eb.
        split; [exact Es|]. right.
        destruct (max_bid_item_spec rest b) as [Hwin Hwub].
        set (w := max_bid_item b rest) in *.
        change (snd b :: map snd rest) with (map snd (b :: rest)) in Hmin.
        apply in_map_iff in Hmin. destruct Hmin as ([q0 v0] & Ev0 & Hin0).
        simpl in Ev0. try rewrite Eb in Hall.
        destruct (Hall q0 v0 Hin0) as (_ & _ & Hv0).
        pose proof (Hwub _ Hin0) as H0. unfold bid_key_lt in H0. simpl in H0.
        cbn [price winner_index].
        split; [lia|]. split; [destruct w; exact Hwin|].
        intros q v Hqv. pose proof (Hwub _ Hqv) as Hq.
        unfold bid_key_lt in Hq. simpl in Hq. lia.
  - split.
    + split; [intros [r Hr]; discriminate|].
      cbn [snd]. intros Hin. apply Hcount in Hin. lia.
    + intros r Hr. discriminate.
Qed.
End SealedResolution.

(** C5.  In a sealed auction reached from a new one by calls of players, a
    bid is accepted exactly when the bidder is not the seller and has no bid
    on record and the amount is a multiple of 1000 that is not negative, and
    an accepted bid is recorded with its bidder and its amount; a first pass
    of a non-seller is recorded as the bid 0.  A call resolves the auction
    exactly when it is an accepted bid or a pass after which every
    non-seller has a bid on record.  The result names the seller; if every
    recorded bid is 0 the seller wins at price 0, otherwise the winner holds
    a highest recorded bid, which is the price, and has the lowest index
    among those who bid as much.  With four players and seller P0, the bids
    P1: 3000, P2: 3000, P3: pass resolve with winner P1 at 3000, in whatever
    order they come in, and the bids P1: 6000, P2: 9000, P3: pass resolve
    with winner P2 at 9000. *)
Theorem sealed_auction_resolution :
  forall (n s : Z) (c : Cards.Card) (dc : option Cards.Card)
         (script : list AuctionSpec.call) (p : Z) (act : Auction.action) (amt : Z),
    0 <= s < n ->
    Forall (fun x => 0 <= AuctionSpec.actor x < n) script -> 0 <= p < n ->
    let a := snd (AuctionSpec.play (Auction.new_auction Cards.t_sealed s c n dc) script) in
    let err := fst (fst (Auction.process_action a p act amt)) in
    let res := snd (fst (Auction.process_action a p act amt)) in
    let a' := snd (Auction.process_action a p act amt) in
    ((exists r, res = Some r) <->
       err = None /\ (act = Auction.a_bid \/ act = Auction.a_pass)
       /\ (forall q, 0 <= q < n -> q <> s -> dict_mem (Auction.bids a') q = true))
    /\ (act = Auction.a_bid ->
        (err = None <->
           p <> s /\ dict_mem (Auction.bids a) p = false
           /\ 0 <= amt /\ amt mod 1000 = 0)
        /\ (err = None -> Auction.bids a' = Auction.bids a ++ [(p, amt)])
        /\ (err <> None -> Auction.bids a' = Auction.bids a))
    /\ (act = Auction.a_pass -> p <> s -> dict_mem (Auction.bids a) p = false ->
        Auction.bids a' = Auction.bids a ++ [(p, 0)])
    /\ (forall r, res = Some r ->
          Auction.res_seller_index r = s
          /\ (((forall q v, In (q, v) (Auction.bids a') -> v = 0)
               /\ Auction.winner_index r = s /\ Auction.price r = 0)
              \/ (0 < Auction.price r
                  /\ In (Auction.winner_index r, Auction.price r) (Auction.bids a')
                  /\ forall q v, In (q, v) (Auction.bids a') ->
                       v < Auction.price r
                       \/ (v = Auction.price r /\ Auction.winner_index r <= q))))
    /\ fst (AuctionSpec.play (Auction.new_auction Cards.t_sealed 0 c 4 dc)
              [(1, Auction.a_bid, 3000); (2, Auction.a_bid, 3000);
               (3, Auction.a_pass, 0)])
       = [(None, None); (None, None);
          (None, Some (Auction.mkResult 1 3000 0))]
    /\ fst (AuctionSpec.play (Auction.new_auction Cards.t_sealed 0 c 4 dc)
              [(3, Auction.a_bid, 0); (2, Auction.a_bid, 3000);
               (1, Auction.a_bid, 3000)])
       = [(None, None); (None, None);
          (None, Some (Auction.mkResult 1 3000 0))]
    /\ fst (AuctionSpec.play (Auction.new_auction Cards.t_sealed 0 c 4 dc)
              [(1, Auction.a_bid, 6000); (2, Auction.a_bid, 9000);
               (3, Auction.a_pass, 0)])
       = [(None, None); (None, None);
          (None, Some (Auction.mkResult 2 9000 0))].
Proof.
  intros n s c dc script p act amt Hs Hscript Hp a err res a'.
  assert (sealed_inv n s a) as Ha.
  { apply sealed_inv_play; [apply sealed_inv_new|exact Hscript]. }
  pose proof Ha as (Ht & Es & _).
  split; [|split; [|split; [|split; [|split; [|split]; reflexivity]]]].
  - subst err res a'. unfold Auction.process_action. rewrite Ht.
    destruct act;
      try (cbn [fst snd]; split;
           [intros [r Hr]; discriminate
           |intros (_ & [E|E] & _); discriminate]).
    + unfold Auction.checked, Auction.sealed_bid.
      destruct (p =? Auction.seller_index a) eqn:E1;
        [|destruct (dict_mem (Auction.bids a) p) eqn:E2;
          [|destruct (amt <? 0) eqn:E3;
            [|destruct (negb (amt mod 1000 =? 0))]]];
        cbn [fst snd];
        try (split; [intros [r Hr]; discriminate
                    |intros (E' & _); discriminate]).
      assert (sealed_inv n s (Auction.set_sealed a p amt)) as H1
        by (apply sealed_inv_set; try assumption; lia).
      destruct (check_sealed_resolved_outcome n s _ Hs H1) as [R1 _].
      rewrite R1. unfold all_bids_in. intuition.
    + unfold Auction.unchecked. cbn [fst snd].
      pose proof (sealed_inv_step n s a p Auction.a_pass 0 Ha Hp) as H1.
      unfold Auction.process_action in H1. rewrite Ht in H1.
      unfold Auction.unchecked in H1. cbn [fst snd] in H1.
      assert (sealed_inv n s (Auction.sealed_pass a p)) as H2.
      { unfold Auction.sealed_pass.
        destruct (dict_mem (Auction.bids a) p) eqn:E2; [exact Ha|].
        destruct (p =? Auction.seller_index a) eqn:E1; [exact Ha|].
        cbn [negb andb]. apply sealed_inv_set; try assumption; lia. }
      destruct (check_sealed_resolved_outcome n s _ Hs H2) as [R1 _].
      rewrite R1. unfold all_bids_in. intuition.
  - intros ->. subst err a'. unfold Auction.process_action. rewrite Ht.
    unfold Auction.checked, Auction.sealed_bid. rewrite Es.
    destruct (p =? s) eqn:E1.
    { apply Z.eqb_eq in E1. cbn [fst snd].
      split; [|split; [discriminate|reflexivity]].
      split; [discriminate|]. intros (H & _). contradiction. }
    apply Z.eqb_neq in E1.
    destruct (dict_mem (Auction.bids a) p) eqn:E2.
    { cbn [fst snd]. split; [|split; [discriminate|reflexivity]].
      split; [discriminate|]. intros (_ & H & _). discriminate. }
    destruct (amt <? 0) eqn:E3.
    { apply Z.ltb_lt in E3. cbn [fst snd].
      split; [|split; [discriminate|reflexivity]].
      split; [discriminate|]. intros (_ & _ & H & _). lia. }
    apply Z.ltb_ge in E3.
    destruct (amt mod 1000 =? 0) eqn:E4; cbn [negb fst snd].
    + apply Z.eqb_eq in E4.
      split; [tauto|]. split; [|intros H; now contradiction H].
      intros _. rewrite check_sealed_resolved_bids.
      cbn [Auction.bids Auction.set_sealed]. now apply dict_set_keys_new.
    + apply Z.eqb_neq in E4. split; [|split; [discriminate|reflexivity]].
      split; [discriminate|]. intros (_ & _ & _ & H). contradiction.
  - intros -> Hps Hnew. subst a'. unfold Auction.process_action. rewrite Ht.
    unfold Auction.unchecked. cbn [fst snd].
    unfold Auction.sealed_pass. rewrite Hnew.
    replace (p =? Auction.seller_index a) with false by (symmetry; lia).
    cbn [negb andb].
    rewrite check_sealed_resolved_bids.
    simpl. now apply dict_set_keys_new.
  - subst err res a'. unfold Auction.process_action. rewrite Ht.
    destruct act; try (cbn [fst snd]; intros r Hr; discriminate).
    + unfold Auction.checked, Auction.sealed_bid.
      destruct (p =? Auction.seller_index a) eqn:E1;
        [|destruct (dict_mem (Auction.bids a) p) eqn:E2;
          [|destruct (amt <? 0) eqn:E3;
            [|destruct (negb (amt mod 1000 =? 0))]]];
        cbn [fst snd]; try (intros r Hr; discriminate).
      assert (sealed_inv n s (Auction.set_sealed a p amt)) as H1
        by (apply sealed_inv_set; try assumption; lia).
      destruct (check_sealed_resolved_outcome n s _ Hs H1) as [_ R2].
      exact R2.
    + unfold Auction.unchecked. cbn [fst snd].
      assert (sealed_inv n s (Auction.sealed_pass a p)) as H2.
      { unfold Auction.sealed_pass.
        destruct (dict_mem (Auction.bids a) p) eqn:E2; [exact Ha|].
        destruct (p =? Auction.seller_index a) eqn:E1; [exact Ha|].
        cbn [negb andb]. apply sealed_inv_set; try assumption; lia. }
      destruct (check_sealed_resolved_outcome n s _ Hs H2) as [_ R2].
      exact R2.
Qed.

Section FixedPrice.
Import Cards Auction AuctionSpec.

Lemma mod_eq_apart (n x y : Z) :
  0 < n -> x mod n = y mod n -> 0 < x - y < n -> False.
Proof.
  intros Hn E Hd.
  pose proof (Z.div_mod x n ltac:(lia)) as Hx.
  pose proof (Z.div_mod y n ltac:(lia)) as Hy.
  assert (x - y = n * (x / n - y / n)) as Hk by lia.
  destruct (Z_le_gt_dec (x / n - y / n) 0); nia.
Qed.

Lemma get_next_player_neighbour a from :
  2 <= num_players a ->
  ~ In ((from + 1) mod num_players a) (passed a) ->
  get_next_player a from = (from + 1) mod num_players a.
Proof.
  intros Hn Hnot. unfold get_next_player.
  rewrite (range_cons 1 (num_players a)) by lia. simpl.
  destruct (memZ ((from + 1) mod num_players a) (passed a)) eqn:E.
  - apply memZ_In in E. contradiction.
  - reflexivity.
Qed.

Variables (n s the_price : Z) (the_card : Card).
Hypothesis n_ge_2 : 2 <= n.
Hypothesis s_range : 0 <= s < n.

Lemma set_fixed_price_declined dc :
  0 < the_price -> the_price mod 1000 = 0 ->
  exists a1,
    process_action (new_auction t_fixed_price s the_card n dc) s a_set_price
      the_price = (None, None, a1)
    /\ declined n s the_price the_card 0 a1.
Proof.
  intros Hpos Hmod. unfold process_action, checked, set_fixed_price. simpl.
  replace (the_price <=? 0) with false by (symmetry; lia).
  rewrite Hmod. simpl.
  unfold check_fixed_price_resolved. simpl.
  assert (get_next_player
            (mkAuction t_fixed_price s the_card n dc WAITING_FOR_ACCEPT the_price
               (-1) the_price [] [] (-1) 0) s = (s + 1) mod n) as E.
  { rewrite get_next_player_neighbour; simpl; [reflexivity|lia|tauto]. }
  rewrite E.
  assert (0 <= (s + 1) mod n < n) as Hr by (apply Z.mod_pos_bound; lia).
  replace ((s + 1) mod n =? -1) with false by (symmetry; lia).
  destruct ((s + 1) mod n =? s) eqn:Es.
  - exfalso. apply (mod_eq_apart n (s + 1) s); [lia| |lia].
    rewrite (Z.mod_small s n) by lia. lia.
  - simpl. eexists. split; [reflexivity|].
    unfold declined. simpl. repeat split; try reflexivity.
    + f_equal. lia.
    + contradiction.
Qed.

(** The player at the cursor declines. *)
Lemma decline_in_turn k a :
  0 <= k -> k + 2 <= n -> declined n s the_price the_card k a ->
  exists a1,
    process_action a ((s + (k + 1)) mod n) a_pass 0
      = (None,
         (if k + 2 =? n then Some (mkResult s the_price s) else None), a1)
    /\ auction_type a1 = t_fixed_price /\ card a1 = the_card
    /\ (k + 2 < n -> declined n s the_price the_card (k + 1) a1).
Proof.
  intros Hk Hkn (Ht & Hs & Hn & Hst & Hfp & Hcard & Hturn & Hpassed).
  unfold process_action, unchecked. rewrite Ht.
  set (q := (s + (k + 1)) mod n).
  set (a1 := if negb (memZ q (passed a))
             then set_passed a (passed a ++ [q]) else a).
  assert (forall x, In x (passed a1) ->
                    exists j, 1 <= j <= k + 1 /\ x = (s + j) mod n) as Hp1.
  { intros x Hx. subst a1. destruct (negb (memZ q (passed a))).
    - simpl in Hx. apply in_app_iff in Hx. destruct Hx as [Hx|[<-|[]]].
      + destruct (Hpassed x Hx) as (j & Hj & ->). exists j. split; [lia|reflexivity].
      + exists (k + 1). split; [lia|reflexivity].
    - destruct (Hpassed x Hx) as (j & Hj & ->). exists j. split; [lia|reflexivity]. }
  assert (num_players a1 = n /\ auction_type a1 = t_fixed_price
          /\ seller_index a1 = s /\ state a1 = WAITING_FOR_ACCEPT
          /\ fixed_price a1 = the_price /\ card a1 = the_card)
    as (Hn1 & Ht1 & Hs1 & Hst1 & Hfp1 & Hcard1).
  { subst a1. destruct (negb (memZ q (passed a))); simpl; auto 7. }
  assert ((q + 1) mod n = (s + (k + 2)) mod n) as Eq.
  { subst q. rewrite Zplus_mod_idemp_l. f_equal. lia. }
  assert (get_next_player a1 q = (s + (k + 2)) mod n) as Enext.
  { rewrite get_next_player_neighbour; rewrite Hn1; [exact Eq|lia|].
    rewrite Eq. intros Hin. destruct (Hp1 _ Hin) as (j & Hj & E).
    apply (mod_eq_apart n (s + (k + 2)) (s + j)); [lia|exact E|lia]. }
  unfold fixed_price_decline. fold a1. rewrite Enext.
  unfold check_fixed_price_resolved.
  cbn [state set_turn current_turn_index seller_index fixed_price].
  rewrite Hst1. cbn [negb state_eqb]. rewrite Hs1, Hfp1.
  assert (0 <= (s + (k + 2)) mod n < n) as Hr by (apply Z.mod_pos_bound; lia).
  replace ((s + (k + 2)) mod n =? -1) with false by (symmetry; lia).
  destruct (k + 2 =? n) eqn:Ek.
  - replace (s + (k + 2)) with (s + 1 * n) by lia.
    rewrite Z.mod_add by lia. rewrite (Z.mod_small s n) by lia.
    rewrite Z.eqb_refl. cbn [orb fst snd]. eexists. split; [reflexivity|].
    cbn [auction_type card set_state set_turn].
    split; [exact Ht1|]. split; [exact Hcard1|]. lia.
  - destruct ((s + (k + 2)) mod n =? s) eqn:Es.
    + exfalso. apply (mod_eq_apart n (s + (k + 2)) s); [lia| |lia].
      rewrite (Z.mod_small s n) by lia. lia.
    + cbn [orb fst snd]. eexists. split; [reflexivity|].
      cbn [auction_type card set_state set_turn].
      split; [exact Ht1|]. split; [exact Hcard1|]. intros _.
      unfold declined. cbn [auction_type seller_index num_players state
        fixed_price current_turn_index passed set_turn card].
      repeat split; try assumption. f_equal. lia.
Qed.
End FixedPrice.

Section FixedPriceRound.
Import Cards Auction AuctionSpec.

Variables (n s the_price : Z) (the_card : Card).
Hypothesis n_ge_2 : 2 <= n.
Hypothesis s_range : 0 <= s < n.

Lemma declines_cons lo hi :
  lo < hi ->
  declines n s lo hi = ((s + lo) mod n, a_pass, 0) :: declines n s (lo + 1) hi.
Proof. intros H. unfold declines. now rewrite range_cons. Qed.

Lemma declines_nil lo hi : hi <= lo -> declines n s lo hi = [].
Proof.
  intros H. unfold declines, range.
  replace (Z.to_nat (hi - lo)) with 0%nat by lia. reflexivity.
Qed.

(** All but the last: nothing is returned and the cursor moves on. *)
Lemma play_declines_open (m : nat) :
  forall k a, 0 <= k -> k + Z.of_nat m + 2 <= n ->
    declined n s the_price the_card k a ->
    fst (play a (declines n s (k + 1) (k + 1 + Z.of_nat m)))
      = repeat (None, None) m
    /\ declined n s the_price the_card (k + Z.of_nat m)
         (snd (play a (declines n s (k + 1) (k + 1 + Z.of_nat m)))).
Proof.
  induction m as [|m IH]; intros k a Hk Hkn Hd.
  - rewrite declines_nil by lia. simpl. rewrite Z.add_0_r. auto.
  - rewrite declines_cons by lia.
    destruct (decline_in_turn n s the_price the_card n_ge_2 s_range k a Hk
                ltac:(lia) Hd) as (a1 & E & _ & _ & Hd1).
    replace (k + 2 =? n) with false in E by (symmetry; lia).
    cbn [play]. rewrite E.
    specialize (IH (k + 1) a1 ltac:(lia) ltac:(lia) (Hd1 ltac:(lia))).
    replace (k + 1 + 1 + Z.of_nat m) with (k + 1 + Z.of_nat (S m)) in IH by lia.
    replace (k + 1 + Z.of_nat m) with (k + Z.of_nat (S m)) in IH by lia.
    destruct (play a1 _) as [outs a2]. simpl in *.
    destruct IH as [-> IH]. auto.
Qed.
End FixedPriceRound.

Section ListFacts.
Context {A : Type}.

Lemma list_update_length (l : list A) k f : length (list_update l k f) = length l.
Proof.
  revert k. induction l as [|x l IH]; intros [|k]; simpl; auto.
Qed.

Lemma py_index_in_range len i :
  0 <= i < Z.of_nat len -> py_index len i = Some (Z.to_nat i).
Proof.
  intros H. unfold py_index.
  replace (0 <=? i) with true by (symmetry; lia).
  replace (i <? Z.of_nat len) with true by (symmetry; lia). reflexivity.
Qed.

Lemma py_index_bound len i k : py_index len i = Some k -> (k < len)%nat.
Proof.
  unfold py_index.
  destruct ((0 <=? i) && (i <? Z.of_nat len)) eqn:E1.
  - intros H. injection H as <-. lia.
  - destruct ((i <? 0) && (- Z.of_nat len <=? i)) eqn:E2; [|discriminate].
    intros H. injection H as <-. lia.
Qed.

Lemma py_get_in_range (l : list A) i :
  0 <= i < Z.of_nat (length l) -> exists x, py_get l i = Some x.
Proof.
  intros H. unfold py_get. rewrite py_index_in_range by exact H.
  destruct (nth_error l (Z.to_nat i)) eqn:E; [eauto|].
  apply nth_error_None in E. lia.
Qed.

Lemma py_get_Some (l : list A) i x :
  py_get l i = Some x -> exists k, py_index (length l) i = Some k.
Proof.
  unfold py_get. destruct (py_index (length l) i); [eauto|discriminate].
Qed.
End ListFacts.

Section MoneyFacts.
Import Cards Game.

Lemma sum_money_update (l : list Player) k f d :
  (forall x, money (f x) = money x + d) -> (k < length l)%nat ->
  sumZ (map money (list_update l k f)) = sumZ (map money l) + d.
Proof.
  intros Hf. revert k. induction l as [|x l IH]; intros [|k] Hk; simpl in *;
    try lia.
  - rewrite Hf. lia.
  - rewrite IH by lia. lia.
Qed.

Lemma map_money_update (l : list Player) k f :
  (forall x, money (f x) = money x) ->
  map money (list_update l k f) = map money l.
Proof.
  intros Hf. revert k. induction l as [|x l IH]; intros [|k]; simpl;
    try reflexivity.
  - now rewrite Hf.
  - now rewrite IH.
Qed.

Lemma payouts_app evs evs' : payouts (evs ++ evs') = payouts evs + payouts evs'.
Proof.
  unfold payouts. rewrite map_app.
  induction (map _ evs) as [|x l IH]; simpl; lia.
Qed.

Lemma pay_players_money m ps i :
  sumZ (map money (map (pay_player m) ps))
  = sumZ (map money ps) + payouts (payout_events m i ps).
Proof.
  revert i. induction ps as [|p ps IH]; intros i; simpl.
  - reflexivity.
  - rewrite (IH (S i)). unfold payouts. simpl. lia.
Qed.

Lemma deal_one_length st p :
  length (fst (deal_one st p)) = length (fst st).
Proof.
  unfold deal_one. destruct (snd st); [reflexivity|].
  simpl. apply list_update_length.
Qed.

Lemma deal_cards_length deck n r hands deck' :
  deal_cards deck n r = Some (hands, deck') -> length hands = Z.to_nat n.
Proof.
  unfold deal_cards. destruct (DEAL_COUNTS n); [|discriminate].
  destruct (_ || _); [discriminate|]. intros H. injection H as H.
  assert (forall l st, length (fst (fold_left deal_one l st)) = length (fst st))
    as Hfold.
  { induction l0 as [|p l0 IH]; intros st; simpl; [reflexivity|].
    rewrite IH. apply deal_one_length. }
  match type of H with ?x = _ => assert (E : fst x = fst (hands, deck'))
    by (rewrite H; reflexivity) end.
  simpl in E. rewrite <- E, Hfold. simpl. apply repeat_length.
Qed.
End MoneyFacts.

Section AuctionWf.
Import Cards Auction.

Variable n : Z.

Lemma auction_wf_new t s c dc :
  0 <= s < n -> auction_wf n (new_auction t s c n dc).
Proof. unfold auction_wf. simpl. intuition. Qed.

Lemma auction_wf_same a b :
  num_players b = num_players a -> seller_index b = seller_index a ->
  current_bidder b = current_bidder a -> bids b = bids a ->
  auction_wf n a -> auction_wf n b.
Proof. unfold auction_wf. intros -> -> -> ->. tauto. Qed.

Lemma auction_wf_set_bid a p amt :
  0 <= p < n -> auction_wf n a -> auction_wf n (set_bid a p amt).
Proof.
  unfold auction_wf. simpl. intros Hp (Hn & Hs & _ & Hb).
  repeat split; try tauto; try lia.
  all: apply dict_set_In in H; destruct H as [[-> _]|H]; try lia;
    apply (Hb _ _ H).
Qed.

Lemma auction_wf_set_sealed a p amt :
  0 <= p < n -> auction_wf n a -> auction_wf n (set_sealed a p amt).
Proof.
  unfold auction_wf. simpl. intros Hp (Hn & Hs & Hc & Hb).
  repeat split; try tauto; try lia.
  all: apply dict_set_In in H; destruct H as [[-> _]|H]; try lia;
    apply (Hb _ _ H).
Qed.

Ltac same := eapply auction_wf_same; [| | | |eassumption]; reflexivity.

Lemma default_result_wf a :
  auction_wf n a ->
  0 <= winner_index (default_result a) < n
  /\ res_seller_index (default_result a) = seller_index a.
Proof.
  intros (_ & Hs & Hc & _). unfold default_result.
  destruct (current_bidder a =? -1) eqn:E; simpl; split; try reflexivity; lia.
Qed.

Lemma check_open_resolved_wf : check_wf n check_open_resolved.
Proof.
  intros a Ha. unfold check_open_resolved. destruct (_ || _); cbn [fst snd].
  - split; [same|]. intros r Hr. injection Hr as <-.
    now apply default_result_wf.
  - split; [exact Ha|intros r Hr; discriminate].
Qed.

Lemma check_once_around_resolved_wf : check_wf n check_once_around_resolved.
Proof.
  intros a Ha. unfold check_once_around_resolved.
  destruct (_ || _); cbn [fst snd].
  - split; [same|]. intros r Hr. injection Hr as <-.
    now apply default_result_wf.
  - split; [exact Ha|intros r Hr; discriminate].
Qed.

Lemma check_sealed_resolved_wf : check_wf n check_sealed_resolved.
Proof.
  intros a Ha. pose proof Ha as (_ & Hs & _ & Hb).
  unfold check_sealed_resolved. destruct (_ <=? _); cbn [fst snd];
    [|split; [exact Ha|intros r Hr; discriminate]].
  destruct (bids a) as [|b rest] eqn:Eb; cbn [fst snd].
  - split; [same|]. intros r Hr. injection Hr as <-. simpl. auto.
  - destruct (_ =? 0); cbn [fst snd].
    + split; [same|]. intros r Hr. injection Hr as <-. simpl. auto.
    + split; [same|]. intros r Hr. injection Hr as <-. simpl.
      split; [|reflexivity].
      destruct (max_bid_item_spec rest b) as [Hin _].
      destruct (max_bid_item b rest) as [q v]. apply (Hb q v Hin).
Qed.

Lemma check_fixed_price_resolved_wf : check_wf n check_fixed_price_resolved.
Proof.
  intros a Ha. pose proof Ha as (_ & Hs & _).
  unfold check_fixed_price_resolved.
  destruct (negb _); cbn [fst snd];
    [split; [exact Ha|intros r Hr; discriminate]|].
  destruct (_ || _); cbn [fst snd].
  - split; [same|]. intros r Hr. injection Hr as <-. simpl. auto.
  - split; [exact Ha|intros r Hr; discriminate].
Qed.

(** What [process_action] leaves is well formed, and a result names a
    winner among the players and the auction's seller. *)
Lemma process_action_wf a p act amt :
  auction_wf n a -> 0 <= p < n ->
  auction_wf n (snd (process_action a p act amt))
  /\ forall r, snd (fst (process_action a p act amt)) = Some r ->
               0 <= winner_index r < n
               /\ res_seller_index r = seller_index a.
Proof.
  intros Ha Hp. pose proof Ha as (Hn & Hs & Hc & Hb).
  unfold process_action.
  destruct (auction_type a) eqn:Et, act; cbn [fst snd];
    try (split; [exact Ha|intros r Hr; discriminate]);
    unfold checked, unchecked.
  - (* open bid *)
    unfold open_bid. rewrite Et. cbn [negb atype_eqb].
    destruct (p =? seller_index a);
      [|destruct (amt <=? current_bid a);
        [|destruct (negb (amt mod 1000 =? 0))]];
      cbn [fst snd]; try (split; [exact Ha|intros r Hr; discriminate]).
    apply (check_open_resolved_wf (set_bid a p amt)).
    now apply auction_wf_set_bid.
  - (* open pass *)
    cbn [fst snd].
    assert (auction_wf n (open_pass a p)
            /\ seller_index (open_pass a p) = seller_index a) as [H1 Es].
    { unfold open_pass. destruct (negb _); split; try reflexivity;
        try exact Ha; same. }
    rewrite <- Es. now apply check_open_resolved_wf.
  - (* once-around bid *)
    unfold once_around_bid.
    destruct (negb (p =? current_turn_index a));
      [|destruct (amt <=? current_bid a);
        [|destruct (negb (amt mod 1000 =? 0))]];
      cbn [fst snd]; try (split; [exact Ha|intros r Hr; discriminate]).
    pose proof (auction_wf_set_bid a p amt Hp Ha) as H1.
    match goal with |- context [check_once_around_resolved ?x] =>
      apply (check_once_around_resolved_wf x) end.
    same.
  - (* once-around pass *)
    cbn [fst snd].
    assert (auction_wf n (once_around_pass a p)
            /\ seller_index (once_around_pass a p) = seller_index a)
      as [H1 Es].
    { unfold once_around_pass. destruct (negb _); split; try reflexivity; same. }
    rewrite <- Es. now apply check_once_around_resolved_wf.
  - (* sealed bid *)
    unfold sealed_bid.
    destruct (p =? seller_index a);
      [|destruct (dict_mem (bids a) p);
        [|destruct (amt <? 0);
          [|destruct (negb (amt mod 1000 =? 0))]]];
      cbn [fst snd]; try (split; [exact Ha|intros r Hr; discriminate]).
    apply (check_sealed_resolved_wf (set_sealed a p amt)).
    now apply auction_wf_set_sealed.
  - (* sealed pass *)
    cbn [fst snd].
    assert (auction_wf n (sealed_pass a p)
            /\ seller_index (sealed_pass a p) = seller_index a) as [H1 Es].
    { unfold sealed_pass. destruct (_ && _); split; try reflexivity;
        try exact Ha. now apply auction_wf_set_sealed. }
    rewrite <- Es. now apply check_sealed_resolved_wf.
  - (* fixed price: pass *)
    cbn [fst snd].
    assert (auction_wf n (fixed_price_decline a p)
            /\ seller_index (fixed_price_decline a p) = seller_index a)
      as [H1 Es].
    { unfold fixed_price_decline. destruct (negb _); split; try reflexivity;
        same. }
    rewrite <- Es. now apply check_fixed_price_resolved_wf.
  - (* fixed price: set_price *)
    unfold set_fixed_price.
    destruct (negb (state_eqb (state a) WAITING_FOR_PRICE));
      [|destruct (amt <=? 0); [|destruct (negb (amt mod 1000 =? 0))]];
      cbn [fst snd]; try (split; [exact Ha|intros r Hr; discriminate]).
    match goal with |- context [check_fixed_price_resolved ?x] =>
      apply (check_fixed_price_resolved_wf x) end.
    same.
  - (* fixed price: accept *)
    unfold fixed_price_accept. destruct (negb _); cbn [fst snd].
    + split; [exact Ha|intros r Hr; discriminate].
    + split; [same|]. intros r Hr. injection Hr as <-. simpl. auto.
  - (* fixed price: decline *)
    cbn [fst snd].
    assert (auction_wf n (fixed_price_decline a p)
            /\ seller_index (fixed_price_decline a p) = seller_index a)
      as [H1 Es].
    { unfold fixed_price_decline. destruct (negb _); split; try reflexivity;
        same. }
    rewrite <- Es. now apply check_fixed_price_resolved_wf.
Qed.
End AuctionWf.

Ltac fields :=
  cbn [Game.players Game.num_players Game.deck Game.round_num Game.current_turn
       Game.board Game.market Game.current_auction Game.round_active
       Game.game_over Game.waiting_for_double Game.double_base_card
       Game.double_player_index Game.with_players Game.with_board
       Game.with_market Game.with_auction Game.with_turn Game.with_round
       Game.with_deck Game.with_game_over Game.with_double Game.board_incr
       Game.pop_hand] in *.

Ltac wf_parts :=
  refine (conj _ (conj _ (conj _ (conj _ (conj _ _)))));
  try lia; try assumption; eauto.

Section GameWf.
Import Cards Game.

Lemma good_done g0 g evs :
  game_wf g -> board_below_five g -> num_players g = num_players g0 ->
  total_money g = total_money g0 ->
  payouts evs = 0 -> good g0 (done g evs).
Proof.
  intros Hwf Hb Hn Hm He. exists g, evs. unfold done.
  split; [reflexivity|split; [assumption|split; [assumption|split; [assumption|lia]]]].
Qed.

Lemma good_after g0 evs o :
  payouts evs = 0 -> good g0 o -> good g0 (after evs o).
Proof.
  intros He (g & evs' & -> & Hwf & Hb & Hn & Hm). exists g, (evs ++ evs').
  simpl.
  split; [reflexivity|split; [assumption|split; [assumption|split; [assumption|]]]].
  rewrite payouts_app. lia.
Qed.

Lemma good_from g0 g1 o :
  num_players g1 = num_players g0 ->
  total_money g1 = total_money g0 -> good g1 o -> good g0 o.
Proof.
  intros En E (g & evs & -> & Hwf & Hb & Hn & Hm). exists g, evs.
  split; [reflexivity|split; [assumption|split; [assumption|split; [congruence|lia]]]].
Qed.

Lemma DEAL_COUNTS_range n counts :
  DEAL_COUNTS n = Some counts -> 3 <= n <= 5.
Proof.
  unfold DEAL_COUNTS.
  destruct (n =? 3) eqn:E3; [lia|].
  destruct (n =? 4) eqn:E4; [lia|].
  destruct (n =? 5) eqn:E5; [lia|discriminate].
Qed.

Lemma argmax_money_total (ps : list Player) (n : Z) :
  n = Z.of_nat (length ps) -> 1 <= n -> exists w, argmax_money ps n = Some w.
Proof.
  intros Hn H1. unfold argmax_money.
  rewrite (range_cons 0 n) by lia.
  assert (forall i, 0 <= i < n -> exists m, money_at ps i = Some m) as Hget.
  { intros i Hr. unfold money_at.
    destruct (py_get_in_range ps i ltac:(lia)) as [x ->]. simpl. eauto. }
  destruct (Hget 0 ltac:(lia)) as [m0 ->].
  assert (forall l, (forall i, In i l -> 0 <= i < n) ->
            forall b, exists w,
              fold_left
                (fun best i =>
                   match best, money_at ps i with
                   | Some (bi, bm), Some m =>
                       if bm <? m then Some (i, m) else Some (bi, bm)
                   | _, _ => None
                   end) l (Some b) = Some w) as Hfold.
  { induction l as [|i l IH]; intros Hl [bi bm]; simpl; [eauto|].
    destruct (Hget i (Hl i (or_introl eq_refl))) as [mi ->].
    destruct (bm <? mi); apply IH; intros j Hj; apply Hl; now right. }
  destruct (Hfold (range (0 + 1) n)
                  ltac:(intros i Hi; apply range_In in Hi; lia) (0, m0))
    as [[w mw] ->].
  simpl. eauto.
Qed.

Lemma length_map_combine {A B C : Type} (f : A * B -> C) (l : list A) (l' : list B) :
  length l' = length l -> length (map f (combine l l')) = length l.
Proof. intros H. rewrite length_map, length_combine. lia. Qed.

Lemma money_map_combine (f : Player * list Card -> Player) (l : list Player)
    (l' : list (list Card)) :
  (forall x h, money (f (x, h)) = money x) -> length l' = length l ->
  map money (map f (combine l l')) = map money l.
Proof.
  intros Hf. revert l'. induction l as [|x l IH]; intros [|h l'] Hlen;
    simpl in *; try reflexivity; try discriminate.
  rewrite Hf, IH; [reflexivity|lia].
Qed.

Lemma _end_round_good g : game_wf g -> good g (_end_round g).
Proof.
  intros (Hn & [counts Hc] & Ht & Hr & Ha & Hd).
  pose proof (DEAL_COUNTS_range _ _ Hc) as Hrange.
  unfold _end_round. cbn -[calculate_round_values deal_cards argmax_money].
  set (m := fun a => market g a + calculate_round_values (board g) a).
  destruct (MAX_ROUNDS <? round_num g + 1) eqn:Emax.
  - unfold _end_game. cbn -[calculate_round_values argmax_money].
    destruct (argmax_money_total (map (pay_player m) (players g)) (num_players g))
      as [w ->].
    { rewrite length_map. exact Hn. } { lia. }
    eexists _, _. split; [reflexivity|]. split; [|split; [|split; [reflexivity|]]].
    + unfold game_wf. cbn. rewrite length_map. wf_parts.
    + unfold board_below_five. cbn. discriminate.
    + unfold total_money. fields.
      rewrite (pay_players_money m (players g) 0), payouts_app.
      unfold payouts at 3. simpl. lia.
  - unfold MAX_ROUNDS in Emax.
    destruct (deal_cards (deck g) (num_players g) (round_num g + 1))
      as [[hands deck']|] eqn:Edeal.
    2:{ exfalso. unfold deal_cards in Edeal. rewrite Hc in Edeal.
        unfold MAX_ROUNDS in Edeal.
        replace (round_num g + 1 <? 1) with false in Edeal by (symmetry; lia).
        rewrite Emax in Edeal. discriminate. }
    pose proof (deal_cards_length _ _ _ _ _ Edeal) as Hlen.
    assert (length hands = length (map (pay_player m) (players g))) as Hlen'.
    { rewrite length_map. lia. }
    cbn -[calculate_round_values py_get].
    match goal with |- context [py_get ?l 0] =>
      destruct (py_get_in_range l 0) as [x ->] end.
    { rewrite length_map_combine by exact Hlen'. rewrite length_map. lia. }
    eexists _, _. split; [reflexivity|]. split; [|split; [|split; [reflexivity|]]].
    + unfold game_wf. cbn. rewrite length_map_combine by exact Hlen'.
      rewrite length_map. wf_parts.
    + unfold board_below_five. cbn. intros _ a. reflexivity.
    + unfold total_money. fields.
      rewrite money_map_combine; [|reflexivity|exact Hlen'].
      rewrite (pay_players_money m (players g) 0), payouts_app.
      unfold payouts at 3. simpl. lia.
Qed.
End GameWf.

(** C8.  [calculate_round_values] gives an artist with cards on the board
    30000, 20000 or 10000 for rank 1, 2 or 3 and 0 below, the rank being one
    more than the number of artists with more cards, or as many and earlier
    in [ARTISTS]; an artist without a card gets 0.  [_end_round] adds these
    values to the market: in a game as the handlers leave it, it returns,
    and the market value of every artist has grown by the value of the
    round.  On a board with three cards of one artist, two of another and
    none else, the first gets 30000, the second 20000 and every other
    artist 0. *)
Theorem round_end_values_by_rank :
  forall (board : Cards.ArtistMap) (a b c : Cards.artist),
    Cards.calculate_round_values board a =
      (if 0 <? board a then RoundSpec.award (RoundSpec.rank board a) else 0)
    /\ (forall g g' evs, Game.board g = board ->
          Game._end_round g = Some (g', evs) ->
          Game.market g' a = Game.market g a
            + (if 0 <? board a then RoundSpec.award (RoundSpec.rank board a) else 0))
    /\ (forall g, game_wf g -> Game.board g = board ->
          exists g' evs,
            Game._end_round g = Some (g', evs)
            /\ Game.market g' a = Game.market g a
                 + (if 0 <? board a
                    then RoundSpec.award (RoundSpec.rank board a) else 0))
    /\ (a <> b -> c <> a -> c <> b ->
        let example := Cards.amap_set (Cards.amap_set (fun _ => 0) a 3) b 2 in
        Cards.calculate_round_values example a = 30000
        /\ Cards.calculate_round_values example b = 20000
        /\ Cards.calculate_round_values example c = 0).
Proof.
  intros board a b c. split; [apply calculate_round_values_rank|].
  assert (forall g g' evs, Game.board g = board ->
            Game._end_round g = Some (g', evs) ->
            Game.market g' a = Game.market g a
              + (if 0 <? board a
                 then RoundSpec.award (RoundSpec.rank board a) else 0)) as Hadd.
  { intros g g' evs Hb H. rewrite (_end_round_market g g' evs H a), Hb.
    now rewrite calculate_round_values_rank. }
  split; [exact Hadd|]. split.
  - intros g Hwf Hb.
    destruct (_end_round_good g Hwf) as (g' & evs & E & _).
    exists g', evs. split; [exact E|]. exact (Hadd g g' evs Hb E).
  - intros Hab Hca Hcb.
    destruct a, b, c; try congruence; cbv zeta; repeat split; reflexivity.
Qed.

Section TurnFacts.
Import Cards Game.

Lemma next_with_cards_total g l :
  game_wf g -> exists t, next_with_cards g l = Some t /\ 0 <= t < num_players g.
Proof.
  intros (Hn & [counts Hc] & Ht & _).
  pose proof (DEAL_COUNTS_range _ _ Hc) as Hrange.
  induction l as [|i l IH]; simpl.
  - eauto.
  - assert (0 <= (current_turn g + i) mod num_players g < num_players g) as Hr
      by (apply Z.mod_pos_bound; lia).
    unfold hand_size_at.
    destruct (py_get_in_range (players g) _ ltac:(rewrite <- Hn; exact Hr))
      as [x ->].
    simpl. destruct (0 <? _); eauto.
Qed.

Lemma _advance_turn_good g :
  game_wf g -> board_below_five g -> good g (_advance_turn g).
Proof.
  intros Hwf Hb. unfold _advance_turn.
  destruct (negb _); [now apply _end_round_good|].
  destruct (next_with_cards_total g (range 1 (num_players g + 1)) Hwf)
    as (t & -> & Ht).
  destruct Hwf as (Hn & Hc & Hturn & Hr & Ha & Hd).
  fields.
  destruct (py_get_in_range (players g) t ltac:(lia)) as [x ->].
  apply good_done; try reflexivity; [|exact Hb].
  unfold game_wf. fields. wf_parts.
Qed.

Lemma settle_auction_good g a r :
  game_wf g -> 0 <= Auction.winner_index r < num_players g ->
  0 <= Auction.res_seller_index r < num_players g ->
  exists g1, settle_auction g a r = Some g1
             /\ game_wf g1 /\ total_money g1 = total_money g
             /\ board g1 = board g /\ game_over g1 = game_over g
             /\ current_auction g1 = None
             /\ num_players g1 = num_players g.
Proof.
  intros (Hn & Hc & Hturn & Hr & Ha & Hd) Hw Hs.
  unfold settle_auction.
  rewrite (py_index_in_range (length (players g)) (Auction.winner_index r))
    by lia.
  rewrite (py_index_in_range (length (players g)) (Auction.res_seller_index r))
    by lia.
  eexists. split; [reflexivity|].
  set (w := Z.to_nat (Auction.winner_index r)).
  set (s := Z.to_nat (Auction.res_seller_index r)).
  split; [|split; [|auto 6]].
  - unfold game_wf. fields. rewrite list_update_length.
    destruct (negb _); [rewrite !list_update_length|]; wf_parts.
    all: discriminate.
  - unfold total_money. fields.
    rewrite map_money_update by reflexivity.
    destruct (negb _); [|reflexivity].
    rewrite (sum_money_update _ s _ (Auction.price r));
      [|reflexivity|rewrite list_update_length; subst s; lia].
    rewrite (sum_money_update _ w _ (- Auction.price r));
      [lia|intros x; simpl; lia|subst w; lia].
Qed.

Lemma _resolve_auction_good g a r :
  game_wf g -> board_below_five g -> current_auction g = Some a ->
  0 <= Auction.winner_index r < num_players g ->
  0 <= Auction.res_seller_index r < num_players g ->
  good g (_resolve_auction g r).
Proof.
  intros Hwf Hb Ea Hw Hs. unfold _resolve_auction. rewrite Ea.
  destruct (settle_auction_good g a r Hwf Hw Hs)
    as (g1 & -> & Hwf1 & Hm & Hboard & Hover & _ & Hnum).
  apply good_after; [reflexivity|].
  apply (good_from g g1); [exact Hnum|exact Hm|].
  apply _advance_turn_good; [exact Hwf1|].
  unfold board_below_five. rewrite Hboard, Hover. exact Hb.
Qed.

Lemma _start_auction_good g seller c t dc :
  game_wf g -> board_below_five g -> 0 <= seller < num_players g ->
  good g (_start_auction g seller c t dc).
Proof.
  intros (Hn & Hc & Hturn & Hr & Ha & Hd) Hb Hs. unfold _start_auction.
  apply good_done; try reflexivity; [|exact Hb].
  unfold game_wf. fields. wf_parts.
  intros a E. injection E as <-.
  pose proof (auction_wf_new (num_players g) t seller c dc Hs) as Hnew.
  destruct t; exact Hnew.
Qed.
End TurnFacts.

Section PlayFacts.
Import Cards Game.

Lemma game_wf_pop_hand g pi k : game_wf g -> game_wf (pop_hand g pi k).
Proof.
  intros (Hn & Hc & Hturn & Hr & Ha & Hd). unfold game_wf. fields.
  rewrite list_update_length. wf_parts.
Qed.

Lemma total_money_pop_hand g pi k : total_money (pop_hand g pi k) = total_money g.
Proof.
  unfold total_money. fields. now rewrite map_money_update.
Qed.

Lemma game_wf_board_incr g a : game_wf g -> game_wf (board_incr g a).
Proof. intros H. exact H. Qed.

Lemma board_incr_below g a :
  board_below_five g -> _check_round_end (board_incr g a) a = false ->
  board_below_five (board_incr g a).
Proof.
  unfold board_below_five, _check_round_end. fields.
  intros Hb Hcheck Hover b. specialize (Hb Hover b).
  rewrite amap_set_same in Hcheck. unfold amap_set.
  destruct (artist_eqb b a) eqn:E; [|exact Hb].
  apply artist_eqb_eq in E. subst b. lia.
Qed.

Lemma board_below_five_same g g' :
  board g' = board g -> game_over g' = game_over g ->
  board_below_five g -> board_below_five g'.
Proof. unfold board_below_five. intros -> ->. auto. Qed.

Lemma _play_single_card_good g p c i :
  game_wf g -> board_below_five g -> 0 <= p < num_players g ->
  good g (_play_single_card g p c i).
Proof.
  intros Hwf Hb Hp. pose proof Hwf as (Hn & _).
  unfold _play_single_card.
  rewrite (py_index_in_range (length (players g)) p) by lia.
  set (g1 := pop_hand g (Z.to_nat p) (Z.to_nat i)).
  assert (game_wf g1) as Hwf1 by now apply game_wf_pop_hand.
  assert (total_money g1 = total_money g) as Hm1 by apply total_money_pop_hand.
  assert (board_below_five g1) as Hb1 by exact Hb.
  cbv zeta.
  destruct (_check_round_end (board_incr g1 (artist_of c)) (artist_of c)) eqn:E.
  - apply good_after; [reflexivity|]. apply (good_from g g1); [reflexivity|exact Hm1|].
    apply (_end_round_good (board_incr g1 (artist_of c))). exact Hwf1.
  - apply good_after; [reflexivity|]. apply (good_from g g1); [reflexivity|exact Hm1|].
    apply (_start_auction_good (board_incr g1 (artist_of c)));
      [exact Hwf1|now apply board_incr_below|exact Hp].
Qed.

Lemma _play_double_good g p c1 i1 c2 i2 :
  game_wf g -> board_below_five g -> 0 <= p < num_players g ->
  good g (_play_double g p c1 i1 c2 i2).
Proof.
  intros Hwf Hb Hp. pose proof Hwf as (Hn & _).
  unfold _play_double.
  rewrite (py_index_in_range (length (players g)) p) by lia.
  match goal with |- context [board_incr ?x _] => set (g1 := x) end.
  assert (game_wf g1) as Hwf1 by (subst g1; now do 2 apply game_wf_pop_hand).
  assert (total_money g1 = total_money g) as Hm1
    by (subst g1; now rewrite !total_money_pop_hand).
  assert (board_below_five g1) as Hb1 by exact Hb.
  cbv zeta. set (a := artist_of c1).
  destruct (_check_round_end (board_incr g1 a) a) eqn:E.
  - apply good_after; [reflexivity|]. apply (good_from g g1); [reflexivity|exact Hm1|].
    apply (_end_round_good (board_incr g1 a)). exact Hwf1.
  - pose proof (board_incr_below g1 a Hb1 E) as Hb2.
    destruct (_check_round_end (board_incr (board_incr g1 a) a) a) eqn:E'.
    + apply good_after; [reflexivity|]. apply (good_from g g1); [reflexivity|exact Hm1|].
      apply (_end_round_good (board_incr (board_incr g1 a) a)). exact Hwf1.
    + apply good_after; [reflexivity|]. apply (good_from g g1); [reflexivity|exact Hm1|].
      apply (_start_auction_good (board_incr (board_incr g1 a) a));
        [exact Hwf1|now apply board_incr_below|exact Hp].
Qed.

Lemma handle_play_card_good g p i d :
  game_wf g -> board_below_five g -> 0 <= p < num_players g ->
  good g (handle_play_card g p i d).
Proof.
  intros Hwf Hb Hp. pose proof Hwf as (Hn & Hc & Hturn & Hr & Ha & Hd).
  unfold handle_play_card.
  destruct (py_get_in_range (players g) p ltac:(lia)) as [player ->].
  destruct (game_over g || negb (round_active g));
    [apply good_done; auto|].
  destruct (current_auction g) eqn:Eauc; [apply good_done; auto|].
  destruct (negb (p =? current_turn g)); [apply good_done; auto|].
  destruct ((i <? 0) || (Z.of_nat (length (hand player)) <=? i)) eqn:Ei;
    [apply good_done; auto|].
  destruct (nth_error (hand player) (Z.to_nat i)) as [c|] eqn:Ec.
  2:{ apply nth_error_None in Ec. lia. }
  destruct (auction_type c);
    try (apply _play_single_card_good; assumption).
  destruct (0 <=? d) eqn:Ed.
  - destruct ((Z.of_nat (length (hand player)) <=? d) || (d =? i)) eqn:Ed';
      [apply good_done; auto|].
    destruct (nth_error (hand player) (Z.to_nat d)) as [c2|] eqn:Ec2.
    2:{ apply nth_error_None in Ec2. lia. }
    destruct (negb _); [apply good_done; auto|].
    apply _play_double_good; assumption.
  - destruct (has_match (hand player) c i).
    + rewrite (py_index_in_range (length (players g)) p) by lia.
      apply good_done; try reflexivity.
      * apply game_wf_pop_hand. unfold game_wf. fields. wf_parts.
        intros a0 E0. congruence.
      * exact Hb.
      * rewrite total_money_pop_hand. reflexivity.
    + apply _play_single_card_good; assumption.
Qed.

Lemma handle_double_response_good g p i :
  game_wf g -> board_below_five g -> 0 <= p < num_players g ->
  good g (handle_double_response g p i).
Proof.
  intros Hwf Hb Hp. pose proof Hwf as (Hn & Hc & Hturn & Hr & Ha & Hd).
  unfold handle_double_response.
  destruct (waiting_for_double g) eqn:Ew; [|apply good_done; auto].
  destruct (negb (p =? double_player_index g)); [apply good_done; auto|].
  cbn [negb orb].
  destruct (py_get_in_range (players g) p ltac:(lia)) as [player ->].
  rewrite (py_index_in_range (length (players g)) p) by lia.
  destruct (Hd eq_refl) as [base ->].
  set (g0 := with_double g false None (-1)).
  assert (game_wf g0) as Hwf0.
  { unfold game_wf. subst g0. fields. wf_parts. }
  assert (board_below_five g0) as Hb0 by exact Hb.
  set (a := artist_of base).
  assert (good g
            (let g1 := board_incr g0 a in
             if _check_round_end g1 a then _end_round g1
             else after [ev_card_played a (board g1 a) p t_open false]
                        (_start_auction g1 p base t_open None))) as Hdecline.
  { cbv zeta. destruct (_check_round_end (board_incr g0 a) a) eqn:E.
    - apply (good_from g g0); [reflexivity|reflexivity|].
      apply (_end_round_good (board_incr g0 a)). exact Hwf0.
    - apply good_after; [reflexivity|]. apply (good_from g g0); [reflexivity|reflexivity|].
      apply (_start_auction_good (board_incr g0 a));
        [exact Hwf0|now apply board_incr_below|exact Hp]. }
  destruct ((0 <=? i) && (i <? Z.of_nat (length (hand player)))) eqn:Ei;
    [|exact Hdecline].
  destruct (nth_error (hand player) (Z.to_nat i)) as [c2|] eqn:Ec2.
  2:{ apply nth_error_None in Ec2. lia. }
  destruct (artist_eqb (artist_of c2) a); [|exact Hdecline].
  set (g1 := pop_hand g0 (Z.to_nat p) (Z.to_nat i)).
  assert (game_wf g1) as Hwf1 by now apply game_wf_pop_hand.
  assert (total_money g1 = total_money g) as Hm1
    by apply (total_money_pop_hand g0).
  assert (board_below_five g1) as Hb1 by exact Hb.
  cbv zeta.
  destruct (_check_round_end (board_incr g1 a) a) eqn:E.
  - apply (good_from g g1); [reflexivity|exact Hm1|].
    apply (_end_round_good (board_incr g1 a)). exact Hwf1.
  - pose proof (board_incr_below g1 a Hb1 E) as Hb2.
    destruct (_check_round_end (board_incr (board_incr g1 a) a) a) eqn:E'.
    + apply (good_from g g1); [reflexivity|exact Hm1|].
      apply (_end_round_good (board_incr (board_incr g1 a) a)). exact Hwf1.
    + apply good_after; [reflexivity|]. apply (good_from g g1); [reflexivity|exact Hm1|].
      apply (_start_auction_good (board_incr (board_incr g1 a) a));
        [exact Hwf1|now apply board_incr_below|exact Hp].
Qed.
End PlayFacts.

Section BidFacts.
Import Cards Game.

Lemma game_wf_with_auction g a :
  game_wf g -> auction_wf (num_players g) a -> game_wf (with_auction g (Some a)).
Proof.
  intros (Hn & Hc & Hturn & Hr & Ha & Hd) Hwf. unfold game_wf. fields.
  wf_parts. intros a0 E. injection E as <-. exact Hwf.
Qed.

Lemma resolve_if_good g a' evs res :
  game_wf g -> board_below_five g -> auction_wf (num_players g) a' ->
  (forall r, res = Some r ->
             0 <= Auction.winner_index r < num_players g
             /\ 0 <= Auction.res_seller_index r < num_players g) ->
  payouts evs = 0 ->
  good g (resolve_if (with_auction g (Some a')) evs res).
Proof.
  intros Hwf Hb Ha' Hres Hev. unfold resolve_if.
  pose proof (game_wf_with_auction g a' Hwf Ha') as Hwf'.
  destruct res as [r|].
  - destruct (Hres r eq_refl) as [Hw Hs].
    apply good_after; [exact Hev|].
    apply (good_from g (with_auction g (Some a'))); [reflexivity|reflexivity|].
    apply (_resolve_auction_good _ a'); auto.
  - apply good_done; auto.
Qed.

(** The call a handler makes on the auction of a well-formed game. *)
Lemma process_action_in_game g a p act amt :
  game_wf g -> current_auction g = Some a -> 0 <= p < num_players g ->
  auction_wf (num_players g) (snd (Auction.process_action a p act amt))
  /\ forall r, snd (fst (Auction.process_action a p act amt)) = Some r ->
               0 <= Auction.winner_index r < num_players g
               /\ 0 <= Auction.res_seller_index r < num_players g.
Proof.
  intros (Hn & Hc & Hturn & Hr & Ha & Hd) Ea Hp.
  pose proof (Ha a Ea) as Hwf.
  destruct (process_action_wf (num_players g) a p act amt Hwf Hp) as [H1 H2].
  split; [exact H1|]. intros r Hr'. destruct (H2 r Hr') as [Hw Hs].
  split; [exact Hw|]. rewrite Hs. destruct Hwf as (_ & Hseller & _). exact Hseller.
Qed.

Lemma handle_bid_good g p amt :
  game_wf g -> board_below_five g -> 0 <= p < num_players g ->
  good g (handle_bid g p amt).
Proof.
  intros Hwf Hb Hp. pose proof Hwf as (Hn & _). unfold handle_bid.
  destruct (current_auction g) as [a|] eqn:Ea; [|apply good_done; auto].
  destruct (py_get_in_range (players g) p ltac:(lia)) as [player ->].
  destruct (money player <? amt); [apply good_done; auto|].
  destruct (process_action_in_game g a p Auction.a_bid amt Hwf Ea Hp)
    as [H1 H2].
  destruct (Auction.process_action a p Auction.a_bid amt) as [[[e|] res] a'];
    cbn [fst snd] in *.
  - apply good_done; auto. now apply game_wf_with_auction.
  - apply resolve_if_good; auto. destruct (Auction.auction_type a'); reflexivity.
Qed.

Lemma handle_pass_good g p :
  game_wf g -> board_below_five g -> 0 <= p < num_players g ->
  good g (handle_pass g p).
Proof.
  intros Hwf Hb Hp. pose proof Hwf as (Hn & _). unfold handle_pass.
  destruct (current_auction g) as [a|] eqn:Ea; [|apply good_done; auto].
  destruct (process_action_in_game g a p Auction.a_pass 0 Hwf Ea Hp)
    as [H1 H2].
  destruct (py_get_in_range (players g) p ltac:(lia)) as [player Eplayer].
  destruct (Auction.process_action a p Auction.a_pass 0) as [[[e|] res] a'];
    cbn [fst snd] in *; rewrite ?Eplayer.
  - apply good_done; auto. now apply game_wf_with_auction.
  - destruct (Auction.auction_type a'); rewrite ?Eplayer;
      apply resolve_if_good; auto.
Qed.

Lemma handle_accept_good g p :
  game_wf g -> board_below_five g -> 0 <= p < num_players g ->
  good g (handle_accept g p).
Proof.
  intros Hwf Hb Hp. pose proof Hwf as (Hn & _). unfold handle_accept.
  destruct (current_auction g) as [a|] eqn:Ea; [|apply good_done; auto].
  destruct (Auction.auction_type a); try (apply good_done; auto).
  destruct (py_get_in_range (players g) p ltac:(lia)) as [player ->].
  destruct (money player <? Auction.fixed_price a); [apply good_done; auto|].
  destruct (process_action_in_game g a p Auction.a_accept 0 Hwf Ea Hp)
    as [H1 H2].
  destruct (Auction.process_action a p Auction.a_accept 0) as [[[e|] res] a'];
    cbn [fst snd] in *.
  - apply good_done; auto. now apply game_wf_with_auction.
  - apply resolve_if_good; auto.
Qed.

Lemma handle_set_price_good g p amt :
  game_wf g -> board_below_five g -> 0 <= p < num_players g ->
  good g (handle_set_price g p amt).
Proof.
  intros Hwf Hb Hp. pose proof Hwf as (Hn & _). unfold handle_set_price.
  destruct (current_auction g) as [a|] eqn:Ea; [|apply good_done; auto].
  destruct (Auction.auction_type a); try (apply good_done; auto).
  destruct (negb _); [apply good_done; auto|].
  destruct (process_action_in_game g a p Auction.a_set_price amt Hwf Ea Hp)
    as [H1 H2].
  destruct (py_get_in_range (players g) p ltac:(lia)) as [player ->].
  destruct (Auction.process_action a p Auction.a_set_price amt)
    as [[[e|] res] a']; cbn [fst snd] in *.
  - apply good_done; auto. now apply game_wf_with_auction.
  - apply resolve_if_good; auto.
Qed.

Lemma handle_good g r :
  game_wf g -> board_below_five g -> 0 <= sender r < num_players g ->
  good g (handle g r).
Proof.
  intros Hwf Hb Hs. destruct r; simpl in *.
  - now apply handle_play_card_good.
  - now apply handle_double_response_good.
  - now apply handle_bid_good.
  - now apply handle_pass_good.
  - now apply handle_accept_good.
  - now apply handle_set_price_good.
Qed.

End BidFacts.

Section RunFacts.
Import Cards Game.

Lemma run_good rs :
  forall g, game_wf g -> board_below_five g ->
            Forall (fun r => 0 <= sender r < num_players g) rs ->
            good g (run g rs).
Proof.
  induction rs as [|r rs IH]; intros g Hwf Hb Hall; simpl.
  - apply good_done; auto.
  - inversion Hall as [|? ? Hr Hrs]; subst.
    destruct (handle_good g r Hwf Hb Hr) as (g1 & evs & -> & Hwf1 & Hb1 & Hn1 & Hm1).
    rewrite <- Hn1 in Hrs.
    destruct (IH g1 Hwf1 Hb1 Hrs) as (g2 & evs2 & -> & Hwf2 & Hb2 & Hn2 & Hm2).
    exists g2, (evs ++ evs2). simpl.
    split; [reflexivity|split; [assumption|split; [assumption|split; [congruence|]]]].
    rewrite payouts_app. lia.
Qed.

Lemma DEAL_COUNTS_total n : 3 <= n <= 5 -> exists counts, DEAL_COUNTS n = Some counts.
Proof.
  intros H. unfold DEAL_COUNTS.
  destruct (n =? 3) eqn:E3; [eauto|]. destruct (n =? 4) eqn:E4; [eauto|].
  destruct (n =? 5) eqn:E5; [eauto|lia].
Qed.

Lemma start_good (ps : list Player) (shuffled : list Card) :
  3 <= Z.of_nat (length ps) <= 5 ->
  exists g0 evs0,
    start (new_game ps) shuffled = Some (g0, evs0)
    /\ game_wf g0 /\ board_below_five g0
    /\ num_players g0 = Z.of_nat (length ps)
    /\ total_money g0 = sumZ (map money ps).
Proof.
  intros Hn. unfold start, new_game. fields.
  destruct (DEAL_COUNTS_total _ Hn) as [counts Hc].
  destruct (deal_cards shuffled (Z.of_nat (length ps)) 1)
    as [[hands deck']|] eqn:Edeal.
  2:{ unfold deal_cards in Edeal. rewrite Hc in Edeal. discriminate. }
  pose proof (deal_cards_length _ _ _ _ _ Edeal) as Hlen.
  assert (length hands = length ps) as Hlen' by lia.
  fields.
  match goal with |- context [py_get ?l 0] =>
    destruct (py_get_in_range l 0) as [x ->] end.
  { rewrite length_map_combine by exact Hlen'. lia. }
  eexists _, _. split; [reflexivity|].
  split; [|split; [|split; [reflexivity|]]].
  - unfold game_wf. fields. rewrite length_map_combine by exact Hlen'.
    wf_parts; discriminate.
  - unfold board_below_five. fields. intros _ a. reflexivity.
  - unfold total_money. fields.
    rewrite money_map_combine; [reflexivity|reflexivity|exact Hlen'].
Qed.

Lemma sum_starting_money (ps : list Player) :
  Forall (fun p => money p = STARTING_MONEY) ps ->
  sumZ (map money ps) = Z.of_nat (length ps) * STARTING_MONEY.
Proof.
  induction 1 as [|p ps Hp _ IH]; simpl length; simpl map; simpl sumZ.
  - reflexivity.
  - rewrite Hp, IH. lia.
Qed.

(** What an auction action leaves of an auction is the auction not yet
    resolved. *)
Lemma _end_round_auction g g' evs :
  _end_round g = Some (g', evs) -> current_auction g' = current_auction g.
Proof.
  unfold _end_round. cbn -[calculate_round_values deal_cards].
  destruct (MAX_ROUNDS <? round_num g + 1).
  - intros H. apply after_Some in H. destruct H as (e0 & H & _).
    apply _end_game_Some in H. destruct H as [-> _]. reflexivity.
  - destruct (deal_cards _ _ _) as [[hands deck']|]; [|discriminate].
    cbn -[calculate_round_values py_get]. destruct (py_get _ 0); [|discriminate].
    unfold done. intros H. injection H as <- _. reflexivity.
Qed.

Lemma _advance_turn_auction g g' evs :
  _advance_turn g = Some (g', evs) -> current_auction g' = current_auction g.
Proof.
  unfold _advance_turn. destruct (negb _); [apply _end_round_auction|].
  destruct (next_with_cards _ _); [|discriminate].
  fields. destruct (py_get _ _); [|discriminate].
  unfold done. intros H. injection H as <- _. reflexivity.
Qed.

Lemma _resolve_auction_closes g r g' evs :
  _resolve_auction g r = Some (g', evs) -> current_auction g' = None.
Proof.
  unfold _resolve_auction. destruct (current_auction g) as [a|]; [|discriminate].
  destruct (settle_auction g a r) as [g1|] eqn:E; [|discriminate].
  intros H. apply after_Some in H. destruct H as (e0 & H & _).
  rewrite (_advance_turn_auction _ _ _ H).
  unfold settle_auction in E.
  destruct (py_index _ _); [|discriminate].
  destruct (py_index _ _); [|discriminate].
  injection E as <-. reflexivity.
Qed.

Lemma handle_bid_unresolved g p x g' evs a' :
  handle_bid g p x = Some (g', evs) -> current_auction g' = Some a' ->
  players g' = players g.
Proof.
  unfold handle_bid. destruct (current_auction g) as [a|] eqn:Ea.
  2:{ unfold done. intros H. injection H as <- _. reflexivity. }
  destruct (py_get _ _); [|discriminate].
  destruct (money p0 <? x).
  { unfold done. intros H. injection H as <- _. reflexivity. }
  destruct (Auction.process_action a p Auction.a_bid x) as [[[e|] res] a1].
  { unfold done. intros H. injection H as <- _. reflexivity. }
  unfold resolve_if. destruct res as [r|].
  - intros H. apply after_Some in H. destruct H as (e0 & H & _).
    apply _resolve_auction_closes in H. congruence.
  - unfold done. intros H. injection H as <- _. reflexivity.
Qed.
End RunFacts.

(** C1.  From the start of a game of three to five players who hold
    [STARTING_MONEY] each, after any sequence of requests of seated players
    the game has returned a state, and in it the balances add up to
    [num_players * STARTING_MONEY] plus the market payouts made so far.  An
    unresolved auction holds no money: a bid that leaves the auction open
    changes no player (last part), so the amount in escrow is zero in every
    state and the sum of the balances alone is conserved. *)
Theorem money_is_conserved :
  forall (ps : list Game.Player) (shuffled : list Cards.Card)
         (rs : list Game.request),
    3 <= Z.of_nat (length ps) <= 5 ->
    Forall (fun p => Game.money p = Cards.STARTING_MONEY) ps ->
    Forall (fun r => 0 <= Game.sender r < Z.of_nat (length ps)) rs ->
    exists g0 evs0 g evs,
      Game.start (Game.new_game ps) shuffled = Some (g0, evs0)
      /\ Game.run g0 rs = Some (g, evs)
      /\ Game.total_money g
         = Z.of_nat (length ps) * Cards.STARTING_MONEY + Game.payouts evs
      /\ (forall p x g' evs' a',
             Game.handle_bid g p x = Some (g', evs') ->
             Game.current_auction g' = Some a' ->
             Game.players g' = Game.players g).
Proof.
  intros ps shuffled rs Hn Hmoney Hrs.
  destruct (start_good ps shuffled Hn) as (g0 & evs0 & Hs & Hwf & Hb & Hnum & Hm).
  rewrite <- Hnum in Hrs.
  destruct (run_good rs g0 Hwf Hb Hrs) as (g & evs & Hrun & _ & _ & _ & Hm').
  exists g0, evs0, g, evs.
  split; [exact Hs|]. split; [exact Hrun|]. split.
  - rewrite Hm', Hm. now rewrite sum_starting_money.
  - intros p x g' evs' a'. apply handle_bid_unresolved.
Qed.

Section ScenarioFacts.
Import Cards Game Scenario.

Lemma count_occ_absent (l : list nat) (x : nat) :
  ~ In x l -> count_occ Nat.eq_dec l x = 0%nat.
Proof. apply count_occ_not_In. Qed.

(** Two lists of numbers with the same count of each of their members
    are permutations of each other. *)
Lemma Permutation_by_count (l l' : list nat) :
  forallb (fun x => Nat.eqb (count_occ Nat.eq_dec l x) (count_occ Nat.eq_dec l' x))
          (l ++ l') = true ->
  Permutation l l'.
Proof.
  intros H. apply (Permutation_count_occ Nat.eq_dec). intros x.
  rewrite forallb_forall in H.
  destruct (in_dec Nat.eq_dec x (l ++ l')) as [Hin|Hout].
  - apply Nat.eqb_eq. now apply H.
  - rewrite !count_occ_absent; [reflexivity| |];
      intros Hx; apply Hout, in_app_iff; auto.
Qed.

Lemma shuffled_is_a_shuffle : Permutation shuffled create_deck.
Proof.
  assert (create_deck
          = map (fun i => nth i create_deck (mkCard 0 OrangeTarou t_open))
                (seq 0 70)) as E by (vm_compute; reflexivity).
  rewrite E at 1. unfold shuffled. apply Permutation_map.
  apply Permutation_by_count. vm_compute. reflexivity.
Qed.

End ScenarioFacts.

(** C2, the code where the claim fails.  [Scenario.shuffled] is an order of
    the deck.  In the game of [Scenario.to_round_4], P1 plays a double card
    of [RedTarou] with four of them on the board and a second one in hand, so
    the answer is awaited; P1 then plays that second card, which
    [handle_play_card] accepts: five cards, round 4 ends and the game is
    over, with the double still pending.  The answer P1 sends next is
    accepted too and raises the count to six.  No request of the game was
    answered by an error. *)
Theorem board_count_reaches_six :
  Permutation Scenario.shuffled Cards.create_deck
  /\ Scenario.view
       (Scenario.play_out
          (Scenario.to_round_4
           ++ [Game.play_card 1 0 (-1); Game.play_card 1 0 (-1)]))
     = Some (5, 5, true, true, 0%nat)
  /\ Scenario.view
       (Scenario.play_out
          (Scenario.to_round_4
           ++ [Game.play_card 1 0 (-1); Game.play_card 1 0 (-1);
               Game.double_response 1 (-1)]))
     = Some (6, 6, true, false, 0%nat).
Proof.
  split; [exact shuffled_is_a_shuffle|].
  split; vm_compute; reflexivity.
Qed.

Section DoubleResponse.
Import Cards Game.

Lemma no_error_app evs evs' :
  existsb is_error (evs ++ evs') = existsb is_error evs || existsb is_error evs'.
Proof. apply existsb_app. Qed.

Lemma payout_events_no_error m ps :
  forall i, existsb is_error (payout_events m i ps) = false.
Proof. induction ps as [|p ps IH]; intros i; simpl; auto. Qed.

Lemma _end_round_no_error g g' evs :
  _end_round g = Some (g', evs) -> existsb is_error evs = false.
Proof.
  unfold _end_round. cbn -[calculate_round_values deal_cards].
  destruct (MAX_ROUNDS <? round_num g + 1).
  - intros H. apply after_Some in H. destruct H as (e0 & H & ->).
    apply _end_game_Some in H. destruct H as [_ [w ->]].
    rewrite no_error_app, payout_events_no_error. reflexivity.
  - destruct (deal_cards _ _ _) as [[hands deck']|]; [|discriminate].
    cbn -[calculate_round_values py_get]. destruct (py_get _ 0); [|discriminate].
    unfold done. intros H. injection H as _ <-.
    rewrite no_error_app, payout_events_no_error. reflexivity.
Qed.
End DoubleResponse.

(** C10, as the code has it.  While a double is pending, an answer of the
    player who owes it whose index is negative, or beyond the hand, or names
    a card of another artist than the base card, is handled exactly as the
    answer [-1]: the hand is left alone and the base card's artist gets one
    more card on the board; if that makes five the round ends at once and
    nothing is auctioned, and otherwise the base card alone goes to an open
    auction of the player.  No error is sent, and in a game as the handlers
    leave it the handler returns. *)
Theorem invalid_double_response_declines :
  forall (g : Game.Game) (p i : Z) (player : Game.Player) (base : Cards.Card),
    Game.waiting_for_double g = true ->
    p = Game.double_player_index g ->
    Game.double_base_card g = Some base ->
    py_get (Game.players g) p = Some player ->
    (i < 0 \/ Z.of_nat (length (Game.hand player)) <= i
     \/ exists c, nth_error (Game.hand player) (Z.to_nat i) = Some c
                  /\ Cards.artist_of c <> Cards.artist_of base) ->
    let a := Cards.artist_of base in
    let g1 := Game.board_incr (Game.with_double g false None (-1)) a in
    Game.handle_double_response g p i = Game.handle_double_response g p (-1)
    /\ Game.board g1 a = Game.board g a + 1
    /\ Game.players g1 = Game.players g
    /\ (Game._check_round_end g1 a = true ->
        Game.handle_double_response g p i = Game._end_round g1)
    /\ (Game._check_round_end g1 a = false ->
        Game.handle_double_response g p i
        = Some (Game.with_auction g1
                  (Some (Auction.new_auction Cards.t_open p base
                           (Game.num_players g) None)),
                [Game.ev_card_played a (Game.board g1 a) p Cards.t_open false;
                 Game.ev_auction_started Cards.t_open base p None]))
    /\ (forall g' evs,
           Game.handle_double_response g p i = Some (g', evs) ->
           existsb is_error evs = false)
    /\ (game_wf g -> board_below_five g -> 0 <= p < Game.num_players g ->
        exists g' evs, Game.handle_double_response g p i = Some (g', evs)).
Proof.
  intros g p i player base Hw Hp Hbase Hplayer Hbad a g1.
  destruct (py_get_Some _ _ _ Hplayer) as [k Hk].
  assert (forall j,
             (j < 0 \/ Z.of_nat (length (Game.hand player)) <= j
              \/ exists c, nth_error (Game.hand player) (Z.to_nat j) = Some c
                           /\ Cards.artist_of c <> Cards.artist_of base) ->
             Game.handle_double_response g p j
             = if Game._check_round_end g1 a then Game._end_round g1
               else Game.after
                      [Game.ev_card_played a (Game.board g1 a) p Cards.t_open false]
                      (Game._start_auction g1 p base Cards.t_open None))
    as Hdecl.
  { intros j Hj. unfold Game.handle_double_response.
    rewrite Hw, Hplayer, Hk, Hbase.
    replace (p =? Game.double_player_index g) with true by (symmetry; lia).
    cbn [negb orb].
    destruct ((0 <=? j) && (j <? Z.of_nat (length (Game.hand player)))) eqn:Ej;
      [|reflexivity].
    destruct Hj as [Hj|[Hj|(c & Hc & Hne)]]; try lia.
    rewrite Hc.
    destruct (Cards.artist_eqb (Cards.artist_of c) (Cards.artist_of base)) eqn:E;
      [|reflexivity].
    apply artist_eqb_eq in E. contradiction. }
  rewrite (Hdecl i Hbad), (Hdecl (-1) ltac:(lia)).
  split; [reflexivity|].
  split; [subst g1 a; cbn; apply amap_set_same|].
  split; [reflexivity|].
  split; [intros ->; reflexivity|].
  split; [intros ->; reflexivity|].
  split.
  - intros g' evs. destruct (Game._check_round_end g1 a).
    + apply _end_round_no_error.
    + unfold Game._start_auction, Game.after, Game.done.
      intros H. injection H as _ <-. reflexivity.
  - intros Hwf Hb Hrange. rewrite <- (Hdecl i Hbad).
    destruct (handle_double_response_good g p i Hwf Hb Hrange)
      as (g' & evs & E & _).
    eauto.
Qed.

Section SelfPurchase.
Import Cards Game AuctionSpec.

Lemma existsb_update {A : Type} (f : A -> bool) (u : A -> A) (l : list A) k :
  (forall x, f (u x) = f x) -> existsb f (list_update l k u) = existsb f l.
Proof.
  intros H. revert k. induction l as [|x l IH]; intros [|k]; simpl;
    try reflexivity.
  - now rewrite H.
  - now rewrite IH.
Qed.

Lemma range_snoc lo hi : lo <= hi -> range lo (hi + 1) = range lo hi ++ [hi].
Proof.
  intros H. unfold range.
  replace (Z.to_nat (hi + 1 - lo)) with (S (Z.to_nat (hi - lo))) by lia.
  rewrite seq_S, map_app. simpl. do 2 f_equal. lia.
Qed.

Lemma _advance_turn_players g g' evs :
  has_cards g = true -> _advance_turn g = Some (g', evs) ->
  players g' = players g.
Proof.
  unfold has_cards, _advance_turn. intros ->. cbn [negb].
  destruct (next_with_cards _ _); [|discriminate].
  fields. destruct (py_get _ _); [|discriminate].
  unfold done. intros H. injection H as <- _. reflexivity.
Qed.

End SelfPurchase.

(** C7.  In a fixed-price auction of [n] players, once the seller has set a
    price (positive, a multiple of 1000) and the others have declined in
    turn, the last decline resolves the auction with the seller as winner at
    the asking price, and nothing resolves it before.  In a game that holds
    the auction before that last decline, [handle_pass] settles it by
    putting the card on the seller's pile and dropping the auction, with
    every balance as it was, and then advances the turn; [handle_pass]
    returns, and while some player still holds a card (so that no round ends
    and pays out) the balances of the game it returns are those of before. *)
Theorem fixed_price_nobody_accepts :
  forall (n s the_price : Z) (c : Cards.Card) (dc : option Cards.Card),
    2 <= n -> 0 <= s < n -> 0 < the_price -> the_price mod 1000 = 0 ->
    let a0 := Auction.new_auction Cards.t_fixed_price s c n dc in
    let set_price := (s, Auction.a_set_price, the_price) in
    let last := (s + (n - 1)) mod n in
    fst (AuctionSpec.play a0 (set_price :: AuctionSpec.declines n s 1 n))
      = repeat (None, None) (Z.to_nat (n - 1))
        ++ [(None, Some (Auction.mkResult s the_price s))]
    /\ forall g,
        game_wf g -> board_below_five g -> Game.num_players g = n ->
        Game.current_auction g
          = Some (snd (AuctionSpec.play a0
                         (set_price :: AuctionSpec.declines n s 1 (n - 1)))) ->
        let g1 := kept_by_seller g s c in
        Game.handle_pass g last
          = Game.after [Game.ev_bid_update last 0;
                        Game.ev_auction_result s the_price c]
                       (Game._advance_turn g1)
        /\ map Game.money (Game.players g1) = map Game.money (Game.players g)
        /\ (exists g2 evs, Game.handle_pass g last = Some (g2, evs))
        /\ (has_cards g = true ->
            forall g2 evs, Game.handle_pass g last = Some (g2, evs) ->
                           map Game.money (Game.players g2)
                           = map Game.money (Game.players g)).
Proof.
  intros n s the_price c dc Hn Hs Hpos Hmod a0 set_price last.
  destruct (set_fixed_price_declined n s the_price c Hn Hs dc Hpos Hmod)
    as (a1 & E1 & Hd1).
  fold a0 in E1.
  destruct (play_declines_open n s the_price c Hn Hs (Z.to_nat (n - 2)) 0 a1
              ltac:(lia) ltac:(lia) Hd1) as [Eouts Hd2].
  replace (0 + 1 + Z.of_nat (Z.to_nat (n - 2))) with (n - 1) in * by lia.
  replace (0 + Z.of_nat (Z.to_nat (n - 2))) with (n - 2) in Hd2 by lia.
  change (0 + 1) with 1 in *.
  set (a2 := snd (AuctionSpec.play a1 (AuctionSpec.declines n s 1 (n - 1)))) in *.
  destruct (decline_in_turn n s the_price c Hn Hs (n - 2) a2 ltac:(lia) ltac:(lia) Hd2)
    as (a3 & E3 & Ht3 & Hc3 & _).
  replace (n - 2 + 2 =? n) with true in E3 by (symmetry; lia).
  replace (n - 2 + 1) with (n - 1) in E3 by lia. fold last in E3.
  assert (snd (AuctionSpec.play a0
                 (set_price :: AuctionSpec.declines n s 1 (n - 1))) = a2) as Ea2.
  { subst set_price. cbn [AuctionSpec.play]. rewrite E1.
    subst a2. destruct (AuctionSpec.play a1 _). reflexivity. }
  split.
  - assert (AuctionSpec.declines n s 1 n
            = AuctionSpec.declines n s 1 (n - 1) ++ [(last, Auction.a_pass, 0)])
      as ->.
    { unfold AuctionSpec.declines.
      assert (range 1 n = range 1 (n - 1) ++ [n - 1]) as ->
        by (rewrite <- range_snoc by lia; f_equal; lia).
      rewrite map_app. reflexivity. }
    assert (forall script a x,
               fst (AuctionSpec.play a (script ++ [x]))
               = fst (AuctionSpec.play a script)
                 ++ fst (AuctionSpec.play (snd (AuctionSpec.play a script)) [x]))
      as Happ.
    { induction script as [|[[p act] amt] rest IH]; intros a x.
      - reflexivity.
      - cbn [app AuctionSpec.play].
        destruct (Auction.process_action a p act amt) as [[e r] a'].
        specialize (IH a' x).
        destruct (AuctionSpec.play a' (rest ++ [x])) as [o1 b1].
        destruct (AuctionSpec.play a' rest) as [o2 b2]. simpl in *.
        now rewrite IH. }
    change (set_price :: AuctionSpec.declines n s 1 (n - 1)
              ++ [(last, Auction.a_pass, 0)])
      with ((set_price :: AuctionSpec.declines n s 1 (n - 1))
              ++ [(last, Auction.a_pass, 0)]).
    rewrite Happ, Ea2. cbn [AuctionSpec.play]. rewrite E3. cbn [fst].
    subst set_price. cbn [AuctionSpec.play]. rewrite E1.
    fold a2. destruct (AuctionSpec.play a1 _) as [outs b] eqn:Ep.
    cbn [fst snd] in *. rewrite Eouts.
    replace (Z.to_nat (n - 1)) with (S (Z.to_nat (n - 2))) by lia.
    reflexivity.
  - intros g Hwf Hb Hnum Hauc g1. rewrite Ea2 in Hauc.
    pose proof Hwf as (Hlen & _).
    assert (0 <= last < n) as Hlast by (apply Z.mod_pos_bound; lia).
    destruct (py_get_in_range (Game.players g) last ltac:(lia)) as [pl Hpl].
    assert (Game.handle_pass g last
            = Game.after [Game.ev_bid_update last 0;
                          Game.ev_auction_result s the_price c]
                         (Game._advance_turn g1)) as Hpass.
    { unfold Game.handle_pass. rewrite Hauc, E3, Ht3, Hpl.
      unfold Game.resolve_if, Game._resolve_auction. fields.
      unfold Game.settle_auction. fields.
      cbn [Auction.winner_index Auction.res_seller_index Auction.price].
      rewrite (py_index_in_range (length (Game.players g)) s) by lia.
      rewrite Z.eqb_refl. cbn [negb]. rewrite Hc3.
      unfold Game.after. subst g1. unfold kept_by_seller.
      destruct (Game._advance_turn _) as [[g' e']|]; reflexivity. }
    assert (map Game.money (Game.players g1) = map Game.money (Game.players g))
      as Hmoney.
    { subst g1. unfold kept_by_seller. fields.
      now apply map_money_update. }
    split; [exact Hpass|]. split; [exact Hmoney|]. split.
    + destruct (handle_pass_good g last Hwf Hb ltac:(lia))
        as (g2 & evs & E & _). eauto.
    + intros Hcards g2 evs E. rewrite Hpass in E.
      apply after_Some in E. destruct E as (e0 & E & _).
      rewrite (_advance_turn_players g1 g2 e0); [exact Hmoney| |exact E].
      unfold has_cards in *. subst g1. unfold kept_by_seller. fields.
      rewrite existsb_update; [exact Hcards|reflexivity].
Qed.

(** Where C3 fails.  An [accept] in an open auction is no error.  In a
    once-around auction with the cursor on P1, a pass of P2 is no error
    either, and it moves the cursor to the seller, so that the auction
    resolves before P1 had a turn.  In a fixed-price auction a pass before
    the price is set is recorded and moves the cursor. *)
Lemma illegal_actions_pass_unreported :
  Auction.process_action Examples.open_3 1 Auction.a_accept 0
    = (None, None, Examples.open_3)
  /\ Auction.current_turn_index Examples.once_around_3 = 1
  /\ Auction.process_action Examples.once_around_3 2 Auction.a_pass 0
     = (None, Some (Auction.mkResult 0 0 0),
        Auction.set_state
          (Auction.set_turn
             (Auction.set_passed Examples.once_around_3 [2]) 0)
          Auction.RESOLVED)
  /\ Auction.process_action Examples.fixed_price_3 1 Auction.a_pass 0
     = (None, None,
        Auction.set_turn (Auction.set_passed Examples.fixed_price_3 [1]) 2).
Proof. repeat split. Qed.


(** Where C10 fails.  In round 4 of the scenario with four cards of
    [RedTarou] on the board, P1 has played a double card of that artist;
    the answer names a card of another artist.  It is taken as declined:
    the base card makes five, the round and with it the game end, and no
    auction is held for the base card. *)
Lemma declined_double_ends_the_round_unsold :
  option_map
    (fun x => (Game.board (fst x) Cards.RedTarou, Game.game_over (fst x),
               Game.current_auction (fst x),
               length (filter is_error (snd x))))
    (Game.handle_double_response PendingDouble.game 1 1)
  = Some (5, true, None, 0%nat).
Proof. vm_compute. reflexivity. Qed.

(** C6, the code where the claim fails.  With three players and seller P0,
    P1 passes and then bids 5000: the bid is accepted and becomes the
    current bid, with P1 still on the list of those who passed; when P2
    passes the auction resolves with winner P1 at 5000. *)
Theorem passed_player_bids_and_wins :
  let a1 := snd (Auction.process_action Examples.open_3 1 Auction.a_pass 0) in
  let a2 := snd (Auction.process_action a1 1 Auction.a_bid 5000) in
  Auction.passed a1 = [1]
  /\ Auction.process_action a1 1 Auction.a_bid 5000
     = (None, None, Auction.set_bid a1 1 5000)
  /\ Auction.passed a2 = [1]
  /\ Auction.current_bidder a2 = 1 /\ Auction.current_bid a2 = 5000
  /\ fst (Auction.process_action a2 2 Auction.a_pass 0)
     = (None, Some (Auction.mkResult 1 5000 0)).
Proof. cbv zeta. repeat split. Qed.

(** While the game is not over, no artist has five cards on the board after
    a request: whatever the players of a game of three to five request, the
    handlers return, and every board count of the state reached is below
    [ROUND_END_CARD_COUNT] unless the game is over. *)
Theorem board_below_five_while_game_is_on :
  forall (ps : list Game.Player) (shuffled : list Cards.Card)
         (rs : list Game.request),
    3 <= Z.of_nat (length ps) <= 5 ->
    Forall (fun r => 0 <= Game.sender r < Z.of_nat (length ps)) rs ->
    exists g0 evs0 g evs,
      Game.start (Game.new_game ps) shuffled = Some (g0, evs0)
      /\ Game.run g0 rs = Some (g, evs)
      /\ (Game.game_over g = false ->
          forall a, Game.board g a < Cards.ROUND_END_CARD_COUNT).
Proof.
  intros ps shuffled rs Hn Hrs.
  destruct (start_good ps shuffled Hn) as (g0 & evs0 & Hs & Hwf & Hb & Hnum & _).
  rewrite <- Hnum in Hrs.
  destruct (run_good rs g0 Hwf Hb Hrs) as (g & evs & Hrun & _ & Hb' & _).
  exists g0, evs0, g, evs. auto.
Qed.

(** ** The theorems at concrete inputs *)

Lemma senders_in_range (n : Z) (rs : list Game.request) :
  forallb (fun r => (0 <=? Game.sender r) && (Game.sender r <? n)) rs = true ->
  Forall (fun r => 0 <= Game.sender r < n) rs.
Proof.
  intros H. apply Forall_forall. intros r Hr.
  rewrite forallb_forall in H. specialize (H r Hr). lia.
Qed.

Lemma actors_in_range (n : Z) (script : list AuctionSpec.call) :
  forallb (fun x => (0 <=? AuctionSpec.actor x) && (AuctionSpec.actor x <? n))
          script = true ->
  Forall (fun x => 0 <= AuctionSpec.actor x < n) script.
Proof.
  intros H. apply Forall_forall. intros r Hr.
  rewrite forallb_forall in H. specialize (H r Hr). lia.
Qed.

Lemma money_is_conserved_witness :
  exists g0 evs0 g evs,
    Game.start (Game.new_game Scenario.three_players) Scenario.shuffled
      = Some (g0, evs0)
    /\ Game.run g0 Scenario.quick_round = Some (g, evs)
    /\ Game.total_money g
       = Z.of_nat (length Scenario.three_players) * Cards.STARTING_MONEY
         + Game.payouts evs
    /\ (forall p x g' evs' a',
           Game.handle_bid g p x = Some (g', evs') ->
           Game.current_auction g' = Some a' ->
           Game.players g' = Game.players g).
Proof.
  apply (money_is_conserved Scenario.three_players Scenario.shuffled
           Scenario.quick_round).
  - simpl. lia.
  - repeat (apply Forall_cons; [reflexivity|]). apply Forall_nil.
  - apply senders_in_range. reflexivity.
Defined.

Lemma board_below_five_while_game_is_on_witness :
  exists g0 evs0 g evs,
    Game.start (Game.new_game Scenario.three_players) Scenario.shuffled
      = Some (g0, evs0)
    /\ Game.run g0 Scenario.to_round_4 = Some (g, evs)
    /\ (Game.game_over g = false ->
        forall a, Game.board g a < Cards.ROUND_END_CARD_COUNT).
Proof.
  apply (board_below_five_while_game_is_on Scenario.three_players
           Scenario.shuffled Scenario.to_round_4).
  - simpl. lia.
  - apply senders_in_range. reflexivity.
Defined.

Lemma rejected_actions_change_nothing_witness :
  exists e, Auction.process_action Examples.open_3 0 Auction.a_bid 1000
            = (Some e, None, Examples.open_3).
Proof.
  apply (proj1 (proj2 (proj2 (proj2 (proj2
           (rejected_actions_change_nothing Examples.open_3 0 Auction.a_bid
              1000)))))).
  - reflexivity.
  - left. reflexivity.
  - reflexivity.
Defined.


Lemma sealed_auction_resolution_witness :
  let a := snd (AuctionSpec.play
                  (Auction.new_auction Cards.t_sealed 0 Examples.a_card 4 None)
                  [(1, Auction.a_bid, 6000); (2, Auction.a_bid, 9000)]) in
  let out := Auction.process_action a 3 Auction.a_pass 0 in
  (exists r, snd (fst out) = Some r) <->
    fst (fst out) = None
    /\ (Auction.a_pass = Auction.a_bid \/ Auction.a_pass = Auction.a_pass)
    /\ (forall q, 0 <= q < 4 -> q <> 0 ->
                  dict_mem (Auction.bids (snd out)) q = true).
Proof.
  apply (sealed_auction_resolution 4 0 Examples.a_card None
           [(1, Auction.a_bid, 6000); (2, Auction.a_bid, 9000)]
           3 Auction.a_pass 0).
  - lia.
  - apply actors_in_range. reflexivity.
  - lia.
Defined.

Lemma fixed_price_nobody_accepts_witness :
  fst (AuctionSpec.play
         (Auction.new_auction Cards.t_fixed_price 0 Examples.a_card 4 None)
         ((0, Auction.a_set_price, 4000) :: AuctionSpec.declines 4 0 1 4))
  = repeat (None, None) (Z.to_nat (4 - 1))
    ++ [(None, Some (Auction.mkResult 0 4000 0))].
Proof.
  apply (fixed_price_nobody_accepts 4 0 4000 Examples.a_card None);
    [lia|lia|lia|reflexivity].
Defined.

Lemma round_end_example_wf : game_wf RoundEndExample.game.
Proof.
  unfold game_wf.
  split; [vm_compute; reflexivity|].
  split; [eexists; vm_compute; reflexivity|].
  split; [vm_compute; split; [discriminate|reflexivity]|].
  split; [vm_compute; discriminate|].
  split; [intros a E; vm_compute in E; discriminate|].
  intros E. vm_compute in E. discriminate.
Qed.

(** In the example four cards of [OrangeTarou] are on the board: the
    round adds 30000 to that artist's market value and nothing else. *)
Lemma round_end_example_market :
  option_map (fun x => map (Game.market (fst x)) Cards.ARTISTS)
    (Game._end_round RoundEndExample.game)
  = Some [30000; 0; 0; 0; 0].
Proof. vm_compute. reflexivity. Qed.

Lemma round_end_values_by_rank_witness :
  exists g' evs,
    Game._end_round RoundEndExample.game = Some (g', evs)
    /\ Game.market g' Cards.OrangeTarou
       = Game.market RoundEndExample.game Cards.OrangeTarou
         + (if 0 <? Game.board RoundEndExample.game Cards.OrangeTarou
            then RoundSpec.award
                   (RoundSpec.rank (Game.board RoundEndExample.game)
                      Cards.OrangeTarou)
            else 0).
Proof.
  exact (proj1 (proj2 (proj2
           (round_end_values_by_rank (Game.board RoundEndExample.game)
              Cards.OrangeTarou Cards.GreenTarou Cards.BlueTarou)))
           RoundEndExample.game round_end_example_wf eq_refl).
Defined.

Lemma automation_bids_are_legal_witness :
  let b := AI.decide_bid_sealed Qmult Qplus AI.DIFFICULTY_NORMAL
             Examples.a_card 100000 (fun _ => 0) (fun _ => 0) 3 false
             0%Q (7 # 10)%Q in
  b mod 1000 = 0 /\ b <= 100000 /\ 0 <= b.
Proof.
  apply (automation_bids_are_legal Qmult Qplus AI.DIFFICULTY_NORMAL
           Examples.a_card 5000 100000 (fun _ => 0) (fun _ => 0) 3 false
           0%Q (7 # 10)%Q 1%nat); [lia|reflexivity|lia].
Defined.

Lemma pending_double_waiting :
  Game.waiting_for_double PendingDouble.game = true.
Proof. vm_compute. reflexivity. Qed.

Lemma pending_double_player :
  1 = Game.double_player_index PendingDouble.game.
Proof. vm_compute. reflexivity. Qed.

Lemma pending_double_base :
  Game.double_base_card PendingDouble.game = Some PendingDouble.base.
Proof. vm_compute. reflexivity. Qed.

Lemma pending_double_lookup :
  py_get (Game.players PendingDouble.game) 1 = Some PendingDouble.player.
Proof. vm_compute. reflexivity. Qed.

Lemma pending_double_other_artist :
  exists c, nth_error (Game.hand PendingDouble.player) (Z.to_nat 1) = Some c
            /\ Cards.artist_of c <> Cards.artist_of PendingDouble.base.
Proof.
  exists (Cards.mkCard 7 Cards.OrangeTarou Cards.t_fixed_price).
  split; [vm_compute; reflexivity|discriminate].
Qed.

Lemma declined_double_waiting :
  Game.waiting_for_double DeclinedDouble.game = true.
Proof. vm_compute. reflexivity. Qed.

Lemma declined_double_player :
  1 = Game.double_player_index DeclinedDouble.game.
Proof. vm_compute. reflexivity. Qed.

Lemma declined_double_base :
  Game.double_base_card DeclinedDouble.game = Some DeclinedDouble.base.
Proof. vm_compute. reflexivity. Qed.

Lemma declined_double_lookup :
  py_get (Game.players DeclinedDouble.game) 1 = Some DeclinedDouble.player.
Proof. vm_compute. reflexivity. Qed.

Lemma declined_double_other_artist :
  exists c, nth_error (Game.hand DeclinedDouble.player) (Z.to_nat 0) = Some c
            /\ Cards.artist_of c <> Cards.artist_of DeclinedDouble.base.
Proof.
  exists (Cards.mkCard 1 Cards.OrangeTarou Cards.t_open).
  split; [vm_compute; reflexivity|discriminate].
Qed.

Lemma declined_double_goes_on :
  Game._check_round_end
    (Game.board_incr (Game.with_double DeclinedDouble.game false None (-1))
       (Cards.artist_of DeclinedDouble.base))
    (Cards.artist_of DeclinedDouble.base) = false.
Proof. vm_compute. reflexivity. Qed.

(** In round 1 the declined double is auctioned: the board has one card
    of [RedTarou], P1 sells the base card in an open auction, the partner
    stays in the hand of nine cards, and no error is sent. *)
Lemma declined_double_is_auctioned :
  option_map
    (fun x => (Game.board (fst x) Cards.RedTarou,
               option_map (fun a => (Auction.auction_type a,
                                     Auction.seller_index a, Auction.card a,
                                     Auction.double_card a))
                 (Game.current_auction (fst x)),
               option_map (fun pl => length (Game.hand pl))
                 (py_get (Game.players (fst x)) 1),
               length (filter is_error (snd x))))
    (Game.handle_double_response DeclinedDouble.game 1 0)
  = Some (1, Some (Cards.t_open, 1, DeclinedDouble.base, None), Some 9%nat,
          0%nat).
Proof. vm_compute. reflexivity. Qed.

Lemma invalid_double_response_declines_witness :
  Game.handle_double_response PendingDouble.game 1 1
  = Game.handle_double_response PendingDouble.game 1 (-1)
  /\ Game.handle_double_response DeclinedDouble.game 1 0
     = Some (Game.with_auction
               (Game.board_incr
                  (Game.with_double DeclinedDouble.game false None (-1))
                  (Cards.artist_of DeclinedDouble.base))
               (Some (Auction.new_auction Cards.t_open 1 DeclinedDouble.base
                        (Game.num_players DeclinedDouble.game) None)),
             [Game.ev_card_played (Cards.artist_of DeclinedDouble.base)
                (Game.board
                   (Game.board_incr
                      (Game.with_double DeclinedDouble.game false None (-1))
                      (Cards.artist_of DeclinedDouble.base))
                   (Cards.artist_of DeclinedDouble.base))
                1 Cards.t_open false;
              Game.ev_auction_started Cards.t_open DeclinedDouble.base 1 None]).
Proof.
  split.
  - exact (proj1 (invalid_double_response_declines PendingDouble.game 1 1
                    PendingDouble.player PendingDouble.base
                    pending_double_waiting pending_double_player
                    pending_double_base pending_double_lookup
                    (or_intror (or_intror pending_double_other_artist)))).
  - exact (proj1 (proj2 (proj2 (proj2 (proj2
             (invalid_double_response_declines DeclinedDouble.game 1 0
                DeclinedDouble.player DeclinedDouble.base
                declined_double_waiting declined_double_player
                declined_double_base declined_double_lookup
                (or_intror (or_intror declined_double_other_artist)))))))
             declined_double_goes_on).
Defined.

(** ** Once around, played in turn *)

Section OnceAround.
Import Cards Auction AuctionSpec OnceAroundSpec.

Variables (n s : Z).
Hypothesis n_ge_2 : 2 <= n.
Hypothesis s_range : 0 <= s < n.

Lemma went_around_start c dc :
  went_around n s 0 (s, 0) (start_once_around (new_auction t_once_around s c n dc)).
Proof.
  unfold went_around, start_once_around. cbn.
  rewrite get_next_player_neighbour; cbn; [|lia|tauto].
  repeat split; try reflexivity.
  - f_equal. lia.
  - contradiction.
Qed.

(** The cursor is never on the seller while the auction is open. *)
Lemma went_around_not_seller k best a :
  0 <= k -> k + 2 <= n -> went_around n s k best a ->
  current_turn_index a <> s /\ 0 <= current_turn_index a < n.
Proof.
  intros Hk Hkn (_ & _ & _ & Hturn & _). rewrite Hturn. split.
  - intros E. apply (mod_eq_apart n (s + k + 1) s); [lia| |lia].
    rewrite (Z.mod_small s n) by lia. exact E.
  - apply Z.mod_pos_bound. lia.
Qed.

(** The player at the cursor takes the turn. *)
Lemma turn_taken k best a choice :
  0 <= k -> k + 2 <= n -> went_around n s k best a ->
  raising (snd best) [choice] = true ->
  let q := (s + (k + 1)) mod n in
  let best' := match choice with Some x => (q, x) | None => best end in
  exists a1,
    (let '(p, act, amt) := call_of q choice in process_action a p act amt)
      = (None,
         (if k + 2 =? n then Some (mkResult (fst best') (snd best') s) else None),
         a1)
    /\ (k + 2 < n -> went_around n s (k + 1) best' a1).
Proof.
  intros Hk Hkn (Ht & Hs & Hn & Hturn & Hpassed & Hbid & Hres) Hraise q best'.
  assert (0 <= q < n) as Hq by (apply Z.mod_pos_bound; lia).
  assert (current_turn_index a = q) as Hturn'.
  { rewrite Hturn. unfold q. f_equal. lia. }
  assert ((q + 1) mod n = (s + (k + 2)) mod n) as Eq.
  { unfold q. rewrite Zplus_mod_idemp_l. f_equal. lia. }
  assert (0 <= (s + (k + 2)) mod n < n) as Hr by (apply Z.mod_pos_bound; lia).
  (* where the cursor goes, whatever the list of those who had their turn *)
  assert (forall b, num_players b = n ->
            (forall x, In x (passed b) ->
                       exists j, 1 <= j <= k + 1 /\ x = (s + j) mod n) ->
            get_next_player b q = (s + (k + 2)) mod n) as Enext.
  { intros b Hnb Hpb.
    rewrite get_next_player_neighbour; rewrite Hnb; [exact Eq|lia|].
    rewrite Eq. intros Hin. destruct (Hpb _ Hin) as (j & Hj & E).
    apply (mod_eq_apart n (s + (k + 2)) (s + j)); [lia|exact E|lia]. }
  assert (((s + (k + 2)) mod n =? s) = (k + 2 =? n)) as Eend.
  { destruct (k + 2 =? n) eqn:Ek.
    - apply Z.eqb_eq in Ek.
      replace (s + (k + 2)) with (s + 1 * n) by lia.
      rewrite Z.mod_add by lia. rewrite (Z.mod_small s n) by lia.
      apply Z.eqb_refl.
    - apply Z.eqb_neq in Ek. apply Z.eqb_neq. intros E.
      apply (mod_eq_apart n (s + (k + 2)) s); [lia| |lia].
      rewrite (Z.mod_small s n) by lia. exact E. }
  destruct choice as [x|]; cbn [call_of].
  - (* a bid *)
    cbn [raising] in Hraise.
    apply andb_prop in Hraise. destruct Hraise as [Hraise _].
    apply andb_prop in Hraise. destruct Hraise as [Hlt Hmod].
    apply Z.ltb_lt in Hlt. apply Z.eqb_eq in Hmod.
    unfold process_action, checked. rewrite Ht.
    unfold once_around_bid. rewrite Hturn', Z.eqb_refl. cbn [negb].
    replace (x <=? current_bid a) with false by (symmetry; lia).
    rewrite Hmod. cbn [Z.eqb negb fst snd].
    set (a2 := set_passed (set_bid a q x) (passed (set_bid a q x) ++ [q])).
    assert (forall y, In y (passed a2) ->
                      exists j, 1 <= j <= k + 1 /\ y = (s + j) mod n) as Hp2.
    { intros y Hy. subst a2. cbn in Hy. apply in_app_iff in Hy.
      destruct Hy as [Hy|[<-|[]]].
      - destruct (Hpassed y Hy) as (j & Hj & ->). exists j. split; [lia|reflexivity].
      - exists (k + 1). split; [lia|reflexivity]. }
    rewrite (Enext a2) by (subst a2; cbn; assumption).
    unfold check_once_around_resolved.
    assert (seller_index a2 = s) as Hs2 by (subst a2; exact Hs).
    cbn [current_turn_index set_turn seller_index].
    rewrite Hs2, Eend.
    replace ((s + (k + 2)) mod n =? -1) with false by (symmetry; lia).
    rewrite orb_false_r.
    assert (default_result (set_turn a2 ((s + (k + 2)) mod n)) = mkResult q x s) as Hd.
    { unfold default_result. subst a2. cbn.
      replace (q =? -1) with false by (symmetry; lia). now rewrite Hs. }
    destruct (k + 2 =? n) eqn:Ek.
    + eexists. rewrite Hd. split; [reflexivity|]. apply Z.eqb_eq in Ek. intros; lia.
    + eexists. split; [reflexivity|]. intros _.
      unfold went_around.
      split; [subst a2; cbn; exact Ht|].
      split; [subst a2; cbn; exact Hs|].
      split; [subst a2; cbn; exact Hn|].
      split; [cbn; f_equal; lia|].
      split; [exact Hp2|].
      split; [reflexivity|exact Hd].
  - (* a pass *)
    unfold process_action, unchecked. rewrite Ht.
    unfold once_around_pass.
    set (a1 := if negb (memZ q (passed a))
               then set_passed a (passed a ++ [q]) else a).
    assert (forall y, In y (passed a1) ->
                      exists j, 1 <= j <= k + 1 /\ y = (s + j) mod n) as Hp1.
    { intros y Hy. subst a1. destruct (negb (memZ q (passed a))).
      - cbn in Hy. apply in_app_iff in Hy. destruct Hy as [Hy|[<-|[]]].
        + destruct (Hpassed y Hy) as (j & Hj & ->). exists j. split; [lia|reflexivity].
        + exists (k + 1). split; [lia|reflexivity].
      - destruct (Hpassed y Hy) as (j & Hj & ->). exists j. split; [lia|reflexivity]. }
    assert (num_players a1 = n /\ auction_type a1 = t_once_around
            /\ seller_index a1 = s /\ current_bid a1 = snd best
            /\ forall t, default_result (set_turn a1 t) = default_result a)
      as (Hn1 & Ht1 & Hs1 & Hb1 & Hd1).
    { subst a1. destruct (negb (memZ q (passed a))); cbn; auto 7. }
    rewrite (Enext a1 Hn1 Hp1).
    unfold check_once_around_resolved.
    cbn [current_turn_index set_turn seller_index].
    rewrite Hs1, Eend.
    replace ((s + (k + 2)) mod n =? -1) with false by (symmetry; lia).
    rewrite orb_false_r.
    subst best'.
    destruct (k + 2 =? n) eqn:Ek; cbn [fst snd].
    + eexists. rewrite Hd1, Hres. split; [reflexivity|]. apply Z.eqb_eq in Ek. intros; lia.
    + eexists. split; [reflexivity|]. intros _.
      unfold went_around. cbn [auction_type seller_index num_players
        current_turn_index passed current_bid set_turn].
      split; [exact Ht1|]. split; [exact Hs1|]. split; [exact Hn1|].
      split; [f_equal; lia|]. split; [exact Hp1|].
      split; [exact Hb1|]. rewrite Hd1. exact Hres.
Qed.

Lemma raising_head cur c rest :
  raising cur (c :: rest) = true ->
  raising cur [c] = true
  /\ raising (match c with Some x => x | None => cur end) rest = true.
Proof.
  destruct c as [x|]; cbn [raising]; intros H.
  - apply andb_prop in H. destruct H as [H ->]. rewrite H. auto.
  - auto.
Qed.

(** Everyone but the last: nothing is returned, and the seller would be
    turned away. *)
Lemma play_in_turn choices :
  forall k best a,
    0 <= k -> k + Z.of_nat (length choices) + 1 = n ->
    went_around n s k best a -> raising (snd best) choices = true ->
    choices <> [] ->
    fst (play a (in_turn n s (k + 1) choices))
    = repeat (None, None) (length choices - 1)
      ++ [(None, Some (mkResult (fst (last_bid n s (k + 1) best choices))
                         (snd (last_bid n s (k + 1) best choices)) s))].
Proof.
  induction choices as [|c rest IH]; intros k best a Hk Hlen Hw Hr Hne.
  - contradiction.
  - apply raising_head in Hr. destruct Hr as [Hr1 Hr2].
    cbn [length] in Hlen.
    destruct (turn_taken k best a c Hk ltac:(lia) Hw Hr1) as (a1 & E & Hw1).
    cbn [in_turn play].
    destruct (call_of ((s + (k + 1)) mod n) c) as [[p act] amt] eqn:Ec.
    rewrite E.
    destruct rest as [|c' rest'].
    + cbn [length] in Hlen.
      replace (k + 2 =? n) with true by (symmetry; lia).
      cbn. destruct c; reflexivity.
    + cbn [length] in Hlen.
      replace (k + 2 =? n) with false in * by (symmetry; lia).
      set (best' := match c with
                    | Some x => ((s + (k + 1)) mod n, x)
                    | None => best
                    end) in *.
      assert (raising (snd best') (c' :: rest') = true) as Hr'.
      { subst best'. destruct c; exact Hr2. }
      specialize (IH (k + 1) best' a1 ltac:(lia)
                     ltac:(cbn [length]; lia) (Hw1 ltac:(lia)) Hr'
                     ltac:(discriminate)).
      destruct (play a1 (in_turn n s (k + 1 + 1) (c' :: rest'))) as [outs a2].
      cbn [fst] in IH |- *. rewrite IH.
      replace (length (c :: c' :: rest') - 1)%nat
        with (S (length (c' :: rest') - 1)) by (cbn [length]; lia).
      cbn [repeat app]. f_equal.
      unfold last_bid at 3 4. fold last_bid.
      subst best'. destruct c; reflexivity.
Qed.

(** The seller is turned away as long as someone else has the turn. *)
Lemma seller_not_in_turn choices :
  forall k best a x,
    0 <= k -> k + Z.of_nat (length choices) + 2 <= n ->
    went_around n s k best a -> raising (snd best) choices = true ->
    let a1 := snd (play a (in_turn n s (k + 1) choices)) in
    process_action a1 s a_bid x = (Some NotYourTurn, None, a1).
Proof.
  induction choices as [|c rest IH]; intros k best a x Hk Hlen Hw Hr.
  - cbn [in_turn play snd].
    destruct (went_around_not_seller k best a Hk ltac:(cbn in Hlen; lia) Hw)
      as [Hne _].
    destruct Hw as (Ht & _).
    unfold process_action, checked, once_around_bid. rewrite Ht.
    replace (s =? current_turn_index a) with false by (symmetry; lia).
    reflexivity.
  - apply raising_head in Hr. destruct Hr as [Hr1 Hr2].
    cbn [length] in Hlen.
    destruct (turn_taken k best a c Hk ltac:(lia) Hw Hr1) as (a1 & E & Hw1).
    cbn [in_turn play].
    destruct (call_of ((s + (k + 1)) mod n) c) as [[p act] amt] eqn:Ec.
    rewrite E.
    set (best' := match c with
                  | Some x => ((s + (k + 1)) mod n, x)
                  | None => best
                  end) in *.
    assert (raising (snd best') rest = true) as Hr'.
    { subst best'. destruct c; exact Hr2. }
    specialize (IH (k + 1) best' a1 x ltac:(lia) ltac:(lia)
                   (Hw1 ltac:(lia)) Hr').
    destruct (play a1 (in_turn n s (k + 1 + 1) rest)) as [outs a2].
    exact IH.
Qed.

(** The last bid is the highest. *)
Lemma last_bid_highest choices :
  forall k best,
    raising (snd best) choices = true ->
    snd best <= snd (last_bid n s k best choices)
    /\ forall x, In (Some x) choices -> x <= snd (last_bid n s k best choices).
Proof.
  induction choices as [|c rest IH]; intros k best Hr.
  - cbn. split; [lia|contradiction].
  - apply raising_head in Hr. destruct Hr as [Hr1 Hr2].
    destruct c as [y|]; cbn [last_bid].
    + cbn [raising] in Hr1.
      apply andb_prop in Hr1. destruct Hr1 as [Hr1 _].
      apply andb_prop in Hr1. destruct Hr1 as [Hlt _]. apply Z.ltb_lt in Hlt.
      destruct (IH (k + 1) ((s + k) mod n, y) Hr2) as [H1 H2]. cbn [snd] in H1.
      split; [lia|]. intros x [E|Hin].
      * injection E as <-. exact H1.
      * now apply H2.
    + destruct (IH (k + 1) best Hr2) as [H1 H2].
      split; [exact H1|]. intros x [E|Hin]; [discriminate|now apply H2].
Qed.

Lemma in_turn_firstn choices :
  forall k j, firstn j (in_turn n s k choices) = in_turn n s k (firstn j choices).
Proof.
  induction choices as [|c rest IH]; intros k [|j]; cbn; try reflexivity.
  now rewrite IH.
Qed.

Lemma raising_firstn choices :
  forall cur j, raising cur choices = true -> raising cur (firstn j choices) = true.
Proof.
  induction choices as [|c rest IH]; intros cur [|j] H; cbn [firstn raising];
    try reflexivity.
  destruct c as [x|]; cbn [raising] in *.
  - apply andb_prop in H. destruct H as [-> H]. cbn. now apply IH.
  - now apply IH.
Qed.
End OnceAround.

(** A once-around auction played in turn.  The cursor starts on the
    seller's left.  When the [n - 1] players other than the seller act one
    after the other in clockwise order from there, each with one bid (a
    multiple of 1000 above the bid before) or one pass, nothing is returned
    until the last of them has acted, and that call resolves the auction:
    the player who bid last, whose bid is the highest, wins at that bid, and
    the seller takes the card for nothing when everyone passed.  At every
    point before that, a bid of the seller is turned away with "Not your
    turn" and changes nothing. *)
Theorem once_around_one_turn_each :
  forall (n s : Z) (c : Cards.Card) (dc : option Cards.Card)
         (choices : list (option Z)),
    2 <= n -> 0 <= s < n -> Z.of_nat (length choices) = n - 1 ->
    OnceAroundSpec.raising 0 choices = true ->
    let a0 := Auction.start_once_around
                (Auction.new_auction Cards.t_once_around s c n dc) in
    let script := OnceAroundSpec.in_turn n s 1 choices in
    let w := OnceAroundSpec.last_bid n s 1 (s, 0) choices in
    fst (AuctionSpec.play a0 script)
      = repeat (None, None) (length choices - 1)
        ++ [(None, Some (Auction.mkResult (fst w) (snd w) s))]
    /\ (forall x, In (Some x) choices -> x <= snd w)
    /\ (forall (j : nat) (x : Z), (j < length choices)%nat ->
          let a := snd (AuctionSpec.play a0 (firstn j script)) in
          Auction.process_action a s Auction.a_bid x
          = (Some Auction.NotYourTurn, None, a)).
Proof.
  intros n s c dc choices Hn Hs Hlen Hr a0 script w.
  pose proof (went_around_start n s Hn Hs c dc) as Hw. fold a0 in Hw.
  split; [|split].
  - apply (play_in_turn n s Hn Hs choices 0 (s, 0) a0); try assumption; try lia.
    destruct choices; [cbn in Hlen; lia|discriminate].
  - apply (last_bid_highest n s choices 1 (s, 0) Hr).
  - intros j x Hj a. subst a script. rewrite in_turn_firstn.
    apply (seller_not_in_turn n s Hn Hs (firstn j choices) 0 (s, 0) a0 x);
      try assumption; try lia.
    + rewrite length_firstn. lia.
    + now apply raising_firstn.
Qed.

Lemma once_around_one_turn_each_witness :
  fst (AuctionSpec.play
         (Auction.start_once_around
            (Auction.new_auction Cards.t_once_around 1 Examples.a_card 4 None))
         (OnceAroundSpec.in_turn 4 1 1 [Some 2000; None; Some 5000]))
  = [(None, None); (None, None); (None, Some (Auction.mkResult 0 5000 1))].
Proof.
  exact (proj1 (once_around_one_turn_each 4 1 Examples.a_card None
                  [Some 2000; None; Some 5000]
                  ltac:(lia) ltac:(lia) eq_refl eq_refl)).
Defined.

(** ** What a sale does *)

Section Settlement.
Import Cards Game.

Lemma nth_error_list_update {A : Type} (u : A -> A) (l : list A) :
  forall k i,
    nth_error (list_update l k u) i
    = if Nat.eqb i k then option_map u (nth_error l i) else nth_error l i.
Proof.
  induction l as [|x l IH]; intros [|k] [|i]; cbn; try reflexivity.
  - now destruct (Nat.eqb i k).
  - apply IH.
Qed.

Lemma settle_auction_seats g a r :
  0 <= Auction.winner_index r < Z.of_nat (length (players g)) ->
  0 <= Auction.res_seller_index r < Z.of_nat (length (players g)) ->
  exists ps,
    settle_auction g a r = Some (with_auction (with_players g ps) None)
    /\ length ps = length (players g)
    /\ forall i p, nth_error (players g) i = Some p ->
         nth_error ps i = Some (settled r (Auction.card a) (Z.of_nat i) p).
Proof.
  intros Hw Hs. unfold settle_auction.
  rewrite (py_index_in_range _ _ Hw), (py_index_in_range _ _ Hs).
  eexists. split; [reflexivity|]. split.
  - rewrite list_update_length.
    destruct (negb _); [now rewrite !list_update_length|reflexivity].
  - intros i p Hi. unfold settled.
    set (w := Auction.winner_index r) in *.
    set (s := Auction.res_seller_index r) in *.
    rewrite nth_error_list_update.
    assert ((i =? Z.to_nat w)%nat = (Z.of_nat i =? w)) as Ew.
    { destruct (Nat.eqb_spec i (Z.to_nat w)); symmetry;
        [apply Z.eqb_eq|apply Z.eqb_neq]; lia. }
    assert ((i =? Z.to_nat s)%nat = (Z.of_nat i =? s)) as Es.
    { destruct (Nat.eqb_spec i (Z.to_nat s)); symmetry;
        [apply Z.eqb_eq|apply Z.eqb_neq]; lia. }
    destruct p as [pid nm m h pt ai].
    destruct (w =? s) eqn:Ews; cbn [negb].
    + rewrite Ew, Hi. destruct (Z.of_nat i =? w); reflexivity.
    + rewrite !nth_error_list_update, Ew, Es, Hi.
      destruct (Z.of_nat i =? w) eqn:E1.
      * apply Z.eqb_eq in E1.
        replace (Z.of_nat i =? s) with false by (symmetry; lia).
        reflexivity.
      * destruct (Z.of_nat i =? s); reflexivity.
Qed.
End Settlement.

(** [_resolve_auction] hands the auctioned card to the winner and moves
    the price from the winner to the seller, and nothing else: no other
    player changes, no money moves when the seller wins the own card, the
    auction is closed, and the turn moves on.  The winner receives the one
    card the auction was started for, also in a double auction. *)
Theorem sale_moves_price_and_card :
  forall (g : Game.Game) (a : Auction.Auction) (r : Auction.AuctionResult),
    Game.current_auction g = Some a ->
    0 <= Auction.winner_index r < Z.of_nat (length (Game.players g)) ->
    0 <= Auction.res_seller_index r < Z.of_nat (length (Game.players g)) ->
    exists ps,
      Game._resolve_auction g r
      = Game.after [Game.ev_auction_result (Auction.winner_index r)
                      (Auction.price r) (Auction.card a)]
          (Game._advance_turn
             (Game.with_auction (Game.with_players g ps) None))
      /\ length ps = length (Game.players g)
      /\ forall i p, nth_error (Game.players g) i = Some p ->
           nth_error ps i = Some (settled r (Auction.card a) (Z.of_nat i) p).
Proof.
  intros g a r Ha Hw Hs.
  destruct (settle_auction_seats g a r Hw Hs) as (ps & E & Hlen & Hps).
  exists ps. unfold Game._resolve_auction. rewrite Ha, E. auto.
Qed.

Lemma sale_moves_price_and_card_witness :
  exists ps,
    Game._resolve_auction
      (Game.with_auction (Game.new_game Scenario.three_players)
         (Some Examples.open_3))
      (Auction.mkResult 2 7000 0)
    = Game.after [Game.ev_auction_result 2 7000 Examples.a_card]
        (Game._advance_turn
           (Game.with_auction
              (Game.with_players (Game.new_game Scenario.three_players) ps)
              None))
    /\ length ps = 3%nat
    /\ forall i p, nth_error Scenario.three_players i = Some p ->
         nth_error ps i
         = Some (settled (Auction.mkResult 2 7000 0) Examples.a_card
                   (Z.of_nat i) p).
Proof.
  exact (sale_moves_price_and_card
           (Game.with_auction (Game.new_game Scenario.three_players)
              (Some Examples.open_3))
           Examples.open_3 (Auction.mkResult 2 7000 0) eq_refl
           ltac:(cbn; lia) ltac:(cbn; lia)).
Defined.

(** ** Fixed price: the buyer *)

Section FixedPriceBuyer.
Import Cards Game AuctionSpec.

Lemma with_auction_same g a :
  current_auction g = Some a -> with_auction g (Some a) = g.
Proof. destruct g; cbn; intros ->; reflexivity. Qed.
End FixedPriceBuyer.

(** In a fixed-price auction the offer goes round clockwise from the
    seller's left, and the first player to accept buys.  After the seller
    set a valid price and the first [k] players declined in turn, the next
    player's [accept] resolves the auction for that player at the price set.
    In the game, [handle_accept] turns the player away with "Not enough
    money", changing nothing, when the balance is below the price;
    otherwise it settles the sale with this player as the winner. *)
Theorem fixed_price_first_taker_buys :
  forall (n s the_price k : Z) (c : Cards.Card) (dc : option Cards.Card),
    2 <= n -> 0 <= s < n -> 0 < the_price -> the_price mod 1000 = 0 ->
    0 <= k -> k + 2 <= n ->
    let a0 := Auction.new_auction Cards.t_fixed_price s c n dc in
    let a := snd (AuctionSpec.play a0
                    ((s, Auction.a_set_price, the_price)
                       :: AuctionSpec.declines n s 1 (k + 1))) in
    let buyer := (s + (k + 1)) mod n in
    let sale := Auction.mkResult buyer the_price s in
    let sold := Auction.set_state a Auction.RESOLVED in
    Auction.process_action a buyer Auction.a_accept 0 = (None, Some sale, sold)
    /\ buyer <> s
    /\ forall g pl,
        Game.current_auction g = Some a ->
        py_get (Game.players g) buyer = Some pl ->
        (Game.money pl < the_price ->
         Game.handle_accept g buyer
         = Some (g, [Game.ev_error buyer Game.NotEnoughMoney]))
        /\ (the_price <= Game.money pl ->
            Game.handle_accept g buyer
            = Game._resolve_auction (Game.with_auction g (Some sold)) sale).
Proof.
  intros n s the_price k c dc Hn Hs Hpos Hmod Hk Hkn a0 a buyer sale sold.
  destruct (set_fixed_price_declined n s the_price c Hn Hs dc Hpos Hmod)
    as (a1 & E1 & Hd1).
  destruct (play_declines_open n s the_price c Hn Hs (Z.to_nat k) 0 a1
              ltac:(lia) ltac:(lia) Hd1) as [_ Hd].
  replace (0 + 1 + Z.of_nat (Z.to_nat k)) with (k + 1) in Hd by lia.
  replace (0 + Z.of_nat (Z.to_nat k)) with k in Hd by lia.
  change (0 + 1) with 1 in Hd.
  assert (a = snd (AuctionSpec.play a1 (AuctionSpec.declines n s 1 (k + 1)))) as Ea.
  { subst a a0. cbn [AuctionSpec.play]. rewrite E1.
    destruct (AuctionSpec.play a1 (AuctionSpec.declines n s 1 (k + 1))).
    reflexivity. }
  rewrite <- Ea in Hd. clearbody a. clear Ea.
  destruct Hd as (Ht & Hsell & Hnum & Hst & Hfp & Hcard & Hturn & _).
  assert (Auction.current_turn_index a = buyer) as Hturn'.
  { rewrite Hturn. unfold buyer. f_equal. lia. }
  assert (Auction.process_action a buyer Auction.a_accept 0
          = (None, Some sale, sold)) as Eacc.
  { unfold Auction.process_action, Auction.unchecked, Auction.fixed_price_accept.
    rewrite Ht, Hturn', Z.eqb_refl, Hfp, Hsell. reflexivity. }
  split; [exact Eacc|]. split.
  - intros E. apply (mod_eq_apart n (s + (k + 1)) s); [lia| |lia].
    rewrite (Z.mod_small s n) by lia. exact E.
  - intros g pl Hg Hpl. unfold Game.handle_accept.
    rewrite Hg, Ht, Hpl, Hfp. split; intros Hm.
    + replace (Game.money pl <? the_price) with true by (symmetry; lia).
      reflexivity.
    + replace (Game.money pl <? the_price) with false by (symmetry; lia).
      rewrite Eacc. cbn [Game.resolve_if Game.after].
      destruct (Game._resolve_auction _ _) as [[g' evs]|]; reflexivity.
Qed.

Lemma fixed_price_first_taker_buys_witness :
  let a := snd (AuctionSpec.play Examples.fixed_price_3
                  ((0, Auction.a_set_price, 4000)
                     :: AuctionSpec.declines 3 0 1 (1 + 1))) in
  Auction.process_action a ((0 + (1 + 1)) mod 3) Auction.a_accept 0
  = (None, Some (Auction.mkResult ((0 + (1 + 1)) mod 3) 4000 0),
     Auction.set_state a Auction.RESOLVED).
Proof.
  exact (proj1 (fixed_price_first_taker_buys 3 0 4000 1 Examples.a_card None
                  ltac:(lia) ltac:(lia) ltac:(lia) eq_refl
                  ltac:(lia) ltac:(lia))).
Defined.

(** ** The next player *)

Section NextPlayer.
Import Cards Auction.

(** [find] over a range returns the first hit. *)
Lemma find_range (f : Z -> bool) (m : nat) :
  forall lo,
    match find f (range lo (lo + Z.of_nat m)) with
    | Some i => lo <= i < lo + Z.of_nat m /\ f i = true
                /\ forall j, lo <= j < i -> f j = false
    | None => forall j, lo <= j < lo + Z.of_nat m -> f j = false
    end.
Proof.
  induction m as [|m IH]; intros lo.
  - unfold range. replace (lo + Z.of_nat 0 - lo) with 0 by lia. cbn. lia.
  - rewrite range_cons by lia. cbn [find].
    destruct (f lo) eqn:E.
    + split; [lia|]. split; [exact E|]. lia.
    + specialize (IH (lo + 1)).
      replace (lo + 1 + Z.of_nat m) with (lo + Z.of_nat (S m)) in IH by lia.
      destruct (find f (range (lo + 1) (lo + Z.of_nat (S m)))) as [i|].
      * destruct IH as (H1 & H2 & H3). split; [lia|]. split; [exact H2|].
        intros j Hj. destruct (Z.eq_dec j lo) as [->|]; [exact E|].
        apply H3. lia.
      * intros j Hj. destruct (Z.eq_dec j lo) as [->|]; [exact E|].
        apply IH. lia.
Qed.
End NextPlayer.

(** [get_next_player(from_index)] is the nearest player clockwise from
    [from_index] who is not on the [passed] list: it is [(from_index + i)
    mod num_players] for the least [i] in [1 .. num_players - 1] whose
    player has not passed, and [-1] exactly when all of these have.  It
    never is [from_index] itself. *)
Theorem next_player_is_nearest_not_passed :
  forall (a : Auction.Auction) (from : Z),
    let n := Auction.num_players a in
    let r := Auction.get_next_player a from in
    ((r = -1 /\ forall i, 1 <= i < n -> In ((from + i) mod n) (Auction.passed a))
     \/ (exists i, 1 <= i < n /\ r = (from + i) mod n
                   /\ ~ In r (Auction.passed a)
                   /\ forall j, 1 <= j < i ->
                        In ((from + j) mod n) (Auction.passed a)))
    /\ (0 <= from < n -> r <> from).
Proof.
  intros a from n r.
  assert ((r = -1 /\ forall i, 1 <= i < n -> In ((from + i) mod n) (Auction.passed a))
     \/ (exists i, 1 <= i < n /\ r = (from + i) mod n
                   /\ ~ In r (Auction.passed a)
                   /\ forall j, 1 <= j < i ->
                        In ((from + j) mod n) (Auction.passed a))) as H.
  { subst r. unfold Auction.get_next_player. fold n.
    destruct (Z_lt_dec 1 n) as [Hn|Hn].
    - pose proof (find_range
                    (fun i => negb (memZ ((from + i) mod n) (Auction.passed a)))
                    (Z.to_nat (n - 1)) 1) as F.
      replace (1 + Z.of_nat (Z.to_nat (n - 1))) with n in F by lia.
      destruct (find _ (range 1 n)) as [i|].
      + destruct F as (H1 & H2 & H3). right. exists i.
        split; [lia|]. split; [reflexivity|]. split.
        * intros Hin. apply memZ_In in Hin. rewrite Hin in H2. discriminate.
        * intros j Hj. apply memZ_In. specialize (H3 j ltac:(lia)).
          now apply negb_false_iff in H3.
      + left. split; [reflexivity|]. intros i Hi. apply memZ_In.
        specialize (F i ltac:(lia)). now apply negb_false_iff in F.
    - left. unfold range. replace (Z.to_nat (n - 1)) with 0%nat by lia.
      cbn. split; [reflexivity|]. lia. }
  split; [exact H|]. intros Hfrom.
  destruct H as [[-> _]|(i & Hi & -> & _)]; [lia|].
  intros E. apply (mod_eq_apart n (from + i) from); [lia| |lia].
  rewrite (Z.mod_small from n) by lia. exact E.
Qed.

(** [setup_double] turns an auction prepared for a double card into the
    auction [_start_auction] builds for the effective type: what the game
    stores when it starts an auction of type [t] is what [setup_double]
    makes of the auction constructed with the type "double". *)
Theorem setup_double_as_started :
  forall (g : Game.Game) (s : Z) (c : Cards.Card) (t : Cards.atype)
         (dc : option Cards.Card),
    Game._start_auction g s c t dc
    = Some (Game.with_auction g
              (Some (Auction.setup_double
                       (Auction.new_auction Cards.t_double s c
                          (Game.num_players g) dc) t)),
            [Game.ev_auction_started t c s dc]).
Proof. intros g s c t dc. destruct t; reflexivity. Qed.

(** ** Dealing *)

Section Dealing.
Import Cards.

Lemma nth_list_update {A : Type} (u : A -> A) (d : A) (l : list A) :
  forall k i, (k < length l)%nat ->
    nth i (list_update l k u) d = if Nat.eqb i k then u (nth i l d) else nth i l d.
Proof.
  induction l as [|x l IH]; intros [|k] [|i] Hk; cbn in *; try lia; try reflexivity.
  apply IH. lia.
Qed.

(** One card each to the players [a], [a + 1], ..., as far as the deck
    goes. *)
Lemma deal_row (m : nat) :
  forall (a : nat) (hs : list (list Card)) (d : list Card),
    (a + m <= length hs)%nat ->
    let st := fold_left deal_one (seq a m) (hs, d) in
    length (fst st) = length hs
    /\ snd st = skipn m d
    /\ forall i, nth i (fst st) []
                 = nth i hs [] ++
                   (if (Nat.leb a i && Nat.ltb i (a + m))%bool
                    then match nth_error d (i - a) with
                         | Some c => [c]
                         | None => []
                         end
                    else []).
Proof.
  induction m as [|m IH]; intros a hs d Hlen; cbn [seq fold_left].
  - cbn [fst snd skipn]. split; [reflexivity|]. split; [reflexivity|].
    intros i. replace (Nat.leb a i && Nat.ltb i (a + 0))%bool with false.
    + now rewrite app_nil_r.
    + symmetry. apply andb_false_iff.
      destruct (Nat.leb_spec a i); [right; apply Nat.ltb_ge; lia|now left].
  - destruct d as [|c d'].
    + (* the deck is empty: nothing is dealt any more *)
      change (deal_one (hs, []) a) with (hs, @nil Card).
      destruct (IH (S a) hs [] ltac:(lia)) as (H1 & H2 & H3).
      split; [exact H1|]. split; [rewrite H2; now destruct m|].
      intros i. rewrite H3.
      replace (nth_error [] (i - S a)) with (@None Card) by now destruct (i - S a)%nat.
      replace (nth_error [] (i - a)) with (@None Card) by now destruct (i - a)%nat.
      now destruct (_ && _)%bool, (_ && _)%bool.
    + change (deal_one (hs, c :: d') a)
        with (list_update hs a (fun h => h ++ [c]), d').
      destruct (IH (S a) (list_update hs a (fun h => h ++ [c])) d'
                  ltac:(rewrite list_update_length; lia)) as (H1 & H2 & H3).
      rewrite list_update_length in H1.
      split; [exact H1|]. split; [exact H2|].
      intros i. rewrite H3, nth_list_update by lia.
      destruct (Nat.eqb_spec i a) as [->|Hia].
      * replace (Nat.leb (S a) a && Nat.ltb a (S a + m))%bool with false
          by (symmetry; apply andb_false_iff; left; apply Nat.leb_gt; lia).
        replace (Nat.leb a a && Nat.ltb a (a + S m))%bool with true
          by (symmetry; apply andb_true_iff; split;
              [apply Nat.leb_le|apply Nat.ltb_lt]; lia).
        rewrite Nat.sub_diag, app_nil_r. reflexivity.
      * f_equal.
        destruct (Nat.leb_spec a i) as [Hle|Hgt].
        -- replace (Nat.leb (S a) i) with true by (symmetry; apply Nat.leb_le; lia).
           replace (Nat.ltb i (S a + m)) with (Nat.ltb i (a + S m))
             by (f_equal; lia).
           replace (i - a)%nat with (S (i - S a)) by lia. reflexivity.
        -- replace (Nat.leb (S a) i) with false by (symmetry; apply Nat.leb_gt; lia).
           reflexivity.
Qed.

(** [count] rows dealt to [n] players from empty hands. *)
Lemma deal_rows (n : nat) (deck : list Card) (count : nat) :
  let st := fold_left deal_one (concat (repeat (seq 0 n) count))
                      (repeat [] n, deck) in
  length (fst st) = n
  /\ snd st = skipn (n * count) deck
  /\ forall i j, (i < n)%nat ->
       nth_error (nth i (fst st) []) j
       = if Nat.ltb j count then nth_error deck (j * n + i) else None.
Proof.
  induction count as [|count IH].
  - cbn [repeat concat fold_left fst snd]. rewrite Nat.mul_0_r.
    split; [apply repeat_length|]. split; [reflexivity|].
    intros i j Hi. rewrite nth_repeat. now destruct j.
  - replace (repeat (seq 0 n) (S count))
      with (repeat (seq 0 n) count ++ [seq 0 n])
      by (symmetry; apply repeat_cons).
    rewrite concat_app. cbn [concat]. rewrite app_nil_r, fold_left_app.
    cbv zeta in IH.
    destruct (fold_left deal_one (concat (repeat (seq 0 n) count))
                (repeat [] n, deck)) as [hs d] eqn:E.
    cbn [fst snd] in IH. destruct IH as (Hlen & Hd & Hh).
    destruct (deal_row n 0 hs d ltac:(lia)) as (R1 & R2 & R3).
    cbv zeta. split; [lia|]. split.
    + rewrite R2, Hd, skipn_skipn. f_equal. lia.
    + intros i j Hi. rewrite R3.
      replace (Nat.leb 0 i && Nat.ltb i (0 + n))%bool with true
        by (symmetry; apply andb_true_iff; split;
            [apply Nat.leb_le|apply Nat.ltb_lt]; lia).
      rewrite Nat.sub_0_r, Hd, nth_error_skipn.
      replace (n * count + i)%nat with (count * n + i)%nat by lia.
      pose proof (Hh i) as Hi'. specialize (Hi' ltac:(exact Hi)) || idtac.
      assert (forall j', nth_error (nth i hs []) j'
                = if Nat.ltb j' count then nth_error deck (j' * n + i) else None)
        as Hrow by (intros j'; apply Hh; exact Hi).
      clear Hi'.
      (* the length of the hand so far *)
      assert ((length (nth i hs []) <= count)%nat) as Hle.
      { apply nth_error_None. rewrite Hrow.
        now replace (Nat.ltb count count) with false
          by (symmetry; apply Nat.ltb_ge; lia). }
      destruct (nth_error deck (count * n + i)) as [c|] eqn:Ec.
      * assert (length (nth i hs []) = count) as Hfull.
        { destruct count as [|count']; [lia|].
          assert (nth_error (nth i hs []) count' <> None) as Hsome.
          { rewrite Hrow.
            replace (Nat.ltb count' (S count')) with true
              by (symmetry; apply Nat.ltb_lt; lia).
            apply nth_error_Some.
            assert (S count' * n + i < length deck)%nat
              by (apply nth_error_Some; congruence).
            nia. }
          apply nth_error_Some in Hsome. lia. }
        destruct (Nat.ltb_spec j count) as [Hj|Hj].
        -- rewrite nth_error_app1 by lia. rewrite Hrow.
           replace (Nat.ltb j count) with true by (symmetry; apply Nat.ltb_lt; lia).
           replace (Nat.ltb j (S count)) with true by (symmetry; apply Nat.ltb_lt; lia).
           reflexivity.
        -- rewrite nth_error_app2 by lia. rewrite Hfull.
           destruct (Nat.eq_dec j count) as [->|Hne].
           ++ rewrite Nat.sub_diag.
              replace (Nat.ltb count (S count)) with true
                by (symmetry; apply Nat.ltb_lt; lia).
              cbn. now rewrite Ec.
           ++ replace (Nat.ltb j (S count)) with false
                by (symmetry; apply Nat.ltb_ge; lia).
              destruct (j - count)%nat as [|[|k]] eqn:Ek; [lia| |]; reflexivity.
      * rewrite app_nil_r, Hrow.
        destruct (Nat.ltb_spec j count) as [Hj|Hj].
        -- replace (Nat.ltb j (S count)) with true by (symmetry; apply Nat.ltb_lt; lia).
           reflexivity.
        -- destruct (Nat.ltb_spec j (S count)) as [Hj'|Hj']; [|reflexivity].
           assert (j = count) as -> by lia. now rewrite Ec.
Qed.

(** A deal with a valid player count and round, through [deal_rows]. *)
Lemma deal_cards_rows (deck : list Card) (n r : Z) (counts : list nat) :
  DEAL_COUNTS n = Some counts -> 1 <= r <= MAX_ROUNDS ->
  exists hands deck',
    deal_cards deck n r = Some (hands, deck')
    /\ length hands = Z.to_nat n
    /\ deck' = skipn (Z.to_nat n * nth (Z.to_nat (r - 1)) counts 0%nat) deck
    /\ forall i j, (i < Z.to_nat n)%nat ->
         nth_error (nth i hands []) j
         = if Nat.ltb j (nth (Z.to_nat (r - 1)) counts 0%nat)
           then nth_error deck (j * Z.to_nat n + i) else None.
Proof.
  intros Hc Hr. unfold deal_cards. rewrite Hc.
  replace ((r <? 1) || (MAX_ROUNDS <? r)) with false
    by (symmetry; apply orb_false_intro; lia).
  pose proof (deal_rows (Z.to_nat n) deck
                (nth (Z.to_nat (r - 1)) counts 0%nat)) as H.
  cbv zeta in H.
  destruct (fold_left deal_one _ _) as [hands deck'].
  exists hands, deck'. split; [reflexivity|]. exact H.
Qed.
End Dealing.

(** [deal_cards] deals round robin from the front of the deck: for a
    player count of 3, 4 or 5 and a round of 1 to 4 it returns one hand per
    player, the [j]-th card of player [i] being card [j * num_players + i]
    of the deck for [j] below the round's count, and leaves the deck
    without its first [num_players * count] cards.  A deck that runs out is
    no error: the cards that are there are dealt, and the later players and
    rows go without.  It raises for every other player count and every
    other round. *)
Theorem deal_cards_round_robin :
  forall (deck : list Cards.Card) (num_players round_num : Z),
    match Cards.deal_cards deck num_players round_num with
    | Some (hands, deck') =>
        exists counts,
          Cards.DEAL_COUNTS num_players = Some counts
          /\ 1 <= round_num <= Cards.MAX_ROUNDS
          /\ let n := Z.to_nat num_players in
             let count := nth (Z.to_nat (round_num - 1)) counts 0%nat in
             length hands = n
             /\ deck' = skipn (n * count) deck
             /\ forall i j, (i < n)%nat ->
                  nth_error (nth i hands []) j
                  = if Nat.ltb j count then nth_error deck (j * n + i) else None
    | None =>
        ~ (3 <= num_players <= 5) \/ round_num < 1 \/ Cards.MAX_ROUNDS < round_num
    end.
Proof.
  intros deck n r. unfold Cards.deal_cards.
  destruct (Cards.DEAL_COUNTS n) as [counts|] eqn:Ec.
  - destruct ((r <? 1) || (Cards.MAX_ROUNDS <? r)) eqn:Er.
    + right. apply orb_prop in Er. destruct Er as [Er|Er]; lia.
    + apply orb_false_elim in Er. destruct Er as [E1 E2].
      pose proof (deal_rows (Z.to_nat n) deck
                    (nth (Z.to_nat (r - 1)) counts 0%nat)) as H.
      cbv zeta in H.
      destruct (fold_left Cards.deal_one _ _) as [hands deck'].
      exists counts. split; [reflexivity|]. split; [lia|]. exact H.
  - left. intros H. destruct (DEAL_COUNTS_total n H) as (counts & E). congruence.
Qed.

Section FourDeals.
Import Cards.

Lemma concat_list_update (hs : list (list Card)) (c : Card) :
  forall k, (k < length hs)%nat ->
    Permutation (concat (list_update hs k (fun h => h ++ [c]))) (c :: concat hs).
Proof.
  induction hs as [|h hs IH]; intros [|k] Hk; cbn in *; try lia.
  - rewrite <- app_assoc. cbn. symmetry. apply Permutation_middle.
  - rewrite (IH k ltac:(lia)). symmetry. apply Permutation_middle.
Qed.

(** However the cards are handed out, none is lost and none is made. *)
Lemma deal_one_keeps_cards (targets : list nat) :
  forall st, Forall (fun k => (k < length (fst st))%nat) targets ->
    Permutation (concat (fst (fold_left deal_one targets st))
                 ++ snd (fold_left deal_one targets st))
                (concat (fst st) ++ snd st).
Proof.
  induction targets as [|k targets IH]; intros [hs d] Hk; [reflexivity|].
  inversion Hk as [|? ? Hk1 Hk2]; subst. cbn [fold_left fst snd] in *.
  destruct d as [|c d].
  - change (deal_one (hs, []) k) with (hs, @nil Card). now apply IH.
  - change (deal_one (hs, c :: d) k) with (list_update hs k (fun h => h ++ [c]), d).
    rewrite IH by (cbn [fst]; now rewrite list_update_length).
    cbn [fst snd]. rewrite concat_list_update by exact Hk1.
    cbn. apply Permutation_middle.
Qed.

Lemma deal_cards_keeps_cards deck n r hands deck' :
  deal_cards deck n r = Some (hands, deck') ->
  Permutation (concat hands ++ deck') deck.
Proof.
  unfold deal_cards. destruct (DEAL_COUNTS n) as [counts|]; [|discriminate].
  destruct (_ || _); [discriminate|]. intros E. injection E as E.
  pose proof (deal_one_keeps_cards
                (concat (repeat (seq 0 (Z.to_nat n))
                           (nth (Z.to_nat (r - 1)) counts 0%nat)))
                (repeat [] (Z.to_nat n), deck)) as P.
  rewrite E in P. cbn [fst snd] in P. rewrite P.
  - clear. induction (Z.to_nat n); [reflexivity|exact IHn0].
  - cbn [fst]. rewrite repeat_length. apply Forall_forall. intros k Hk.
    apply in_concat in Hk. destruct Hk as (row & Hrow & Hk).
    apply repeat_spec in Hrow. subst row. apply in_seq in Hk. lia.
Qed.

(** How long a hand is, read off its cards. *)
Lemma hand_length (deck h : list Card) (n i count : nat) :
  (0 < n)%nat ->
  (forall j, nth_error h j
             = if Nat.ltb j count then nth_error deck (j * n + i) else None) ->
  length h = Nat.min count ((length deck + n - 1 - i) / n).
Proof.
  intros Hn H.
  set (L := Nat.min count ((length deck + n - 1 - i) / n)).
  assert (forall j, (j < L)%nat <-> (j < count /\ j * n + i < length deck)%nat) as HL.
  { intros j. unfold L.
    pose proof (Nat.div_mod_eq (length deck + n - 1 - i) n) as Hdm.
    pose proof (Nat.mod_upper_bound (length deck + n - 1 - i) n ltac:(lia)) as Hmb.
    set (q := ((length deck + n - 1 - i) / n)%nat) in *.
    set (m := ((length deck + n - 1 - i) mod n)%nat) in *.
    split.
    - intros Hj. split; [lia|]. nia.
    - intros [H1 H2]. assert (j < q)%nat; [nia|lia]. }
  assert (forall j, (j < length h)%nat <-> (j < L)%nat) as Hiff.
  { intros j. rewrite HL, <- nth_error_Some, H.
    destruct (Nat.ltb_spec j count).
    - rewrite nth_error_Some. lia.
    - split; [congruence|lia]. }
  destruct (Nat.lt_trichotomy (length h) L) as [Hlt|[E|Hgt]]; [|exact E|].
  - apply Hiff in Hlt. lia.
  - apply Hiff in Hgt. lia.
Qed.

Lemma hands_lengths (deck : list Card) (hands : list (list Card)) (n count : nat) :
  (0 < n)%nat -> length hands = n ->
  (forall i j, (i < n)%nat ->
     nth_error (nth i hands []) j
     = if Nat.ltb j count then nth_error deck (j * n + i) else None) ->
  map (@length Card) hands
  = map (fun i => Nat.min count ((length deck + n - 1 - i) / n)) (seq 0 n).
Proof.
  intros Hn Hlen H.
  apply (nth_ext _ _ 0%nat 0%nat).
  - now rewrite !length_map, length_seq.
  - intros i Hi. rewrite length_map in Hi.
    rewrite (nth_indep _ 0%nat (length (@nil Card))) by now rewrite length_map.
    rewrite map_nth.
    rewrite (nth_indep _ 0%nat
               ((fun i => Nat.min count ((length deck + n - 1 - i) / n)) 0%nat))
      by (rewrite length_map, length_seq; lia).
    rewrite (map_nth (fun i => Nat.min count ((length deck + n - 1 - i) / n))).
    rewrite seq_nth by lia. cbn [Nat.add].
    apply hand_length; [exact Hn|]. intros j. apply H. lia.
Qed.

(** One deal: the sizes of the hands and of the deck left. *)
Lemma deal_cards_sizes (deck : list Card) (n r : Z) (counts : list nat) :
  DEAL_COUNTS n = Some counts -> 1 <= r <= MAX_ROUNDS ->
  exists hands deck',
    deal_cards deck n r = Some (hands, deck')
    /\ (let m := Z.to_nat n in
        let count := nth (Z.to_nat (r - 1)) counts 0%nat in
        map (@length Card) hands
        = map (fun i => Nat.min count ((length deck + m - 1 - i) / m)) (seq 0 m)
        /\ length deck' = (length deck - m * count)%nat)
    /\ Permutation (concat hands ++ deck') deck.
Proof.
  intros Hc Hr.
  destruct (deal_cards_rows deck n r counts Hc Hr)
    as (hands & deck' & E & Hlen & Hd & Hh).
  exists hands, deck'. split; [exact E|].
  split; [|exact (deal_cards_keeps_cards deck n r hands deck' E)].
  cbv zeta. split.
  - apply hands_lengths; try assumption.
    apply DEAL_COUNTS_range in Hc. lia.
  - rewrite Hd. apply length_skipn.
Qed.
End FourDeals.

(** The deck of 70 cards runs out in the fourth round.  Dealing the four
    rounds one after the other from any deck of 70 cards, as the game does,
    the first three deals are full (10, 6 and 6 cards each for three
    players, 9, 4 and 4 for four, 8, 3 and 3 for five) and the fourth deal
    is short: three players receive 2, 1 and 1 cards, four players 1, 1, 0
    and 0, five players none.  No deal fails, the deck ends empty, and
    every card of the deck is in exactly one of the hands dealt. *)
Theorem four_deals_use_up_the_deck :
  forall (deck : list Cards.Card) (num_players : Z) (counts : list nat),
    length deck = 70%nat ->
    Cards.DEAL_COUNTS num_players = Some counts ->
    exists h1 d1 h2 d2 h3 d3 h4,
      Cards.deal_cards deck num_players 1 = Some (h1, d1)
      /\ Cards.deal_cards d1 num_players 2 = Some (h2, d2)
      /\ Cards.deal_cards d2 num_players 3 = Some (h3, d3)
      /\ Cards.deal_cards d3 num_players 4 = Some (h4, [])
      /\ map (@length Cards.Card) h1
         = repeat (nth 0 counts 0%nat) (Z.to_nat num_players)
      /\ map (@length Cards.Card) h2
         = repeat (nth 1 counts 0%nat) (Z.to_nat num_players)
      /\ map (@length Cards.Card) h3
         = repeat (nth 2 counts 0%nat) (Z.to_nat num_players)
      /\ map (@length Cards.Card) h4 = last_deal num_players
      /\ Permutation (concat h1 ++ concat h2 ++ concat h3 ++ concat h4) deck.
Proof.
  intros deck n counts Hlen Hc.
  destruct (deal_cards_sizes deck n 1 counts Hc ltac:(unfold Cards.MAX_ROUNDS; lia))
    as (h1 & d1 & E1 & [L1 D1] & P1).
  destruct (deal_cards_sizes d1 n 2 counts Hc ltac:(unfold Cards.MAX_ROUNDS; lia))
    as (h2 & d2 & E2 & [L2 D2] & P2).
  destruct (deal_cards_sizes d2 n 3 counts Hc ltac:(unfold Cards.MAX_ROUNDS; lia))
    as (h3 & d3 & E3 & [L3 D3] & P3).
  destruct (deal_cards_sizes d3 n 4 counts Hc ltac:(unfold Cards.MAX_ROUNDS; lia))
    as (h4 & d4 & E4 & [L4 D4] & P4).
  assert (d4 = [] /\ map (@length Cards.Card) h1
                     = repeat (nth 0 counts 0%nat) (Z.to_nat n)
          /\ map (@length Cards.Card) h2
             = repeat (nth 1 counts 0%nat) (Z.to_nat n)
          /\ map (@length Cards.Card) h3
             = repeat (nth 2 counts 0%nat) (Z.to_nat n)
          /\ map (@length Cards.Card) h4 = last_deal n) as (-> & M1 & M2 & M3 & M4).
  { rewrite L1, L2, L3, L4. rewrite D3, D2, D1, Hlen in D4.
    rewrite ?D3, ?D2, ?D1, ?Hlen.
    unfold Cards.DEAL_COUNTS in Hc. unfold last_deal.
    destruct (n =? 3) eqn:E3'; [|destruct (n =? 4) eqn:E4'; [|destruct (n =? 5) eqn:E5']].
    - apply Z.eqb_eq in E3'. subst n. injection Hc as <-.
      split; [destruct d4; [reflexivity|discriminate D4]|]. repeat split.
    - apply Z.eqb_eq in E4'. subst n. injection Hc as <-.
      split; [destruct d4; [reflexivity|discriminate D4]|]. repeat split.
    - apply Z.eqb_eq in E5'. subst n. injection Hc as <-.
      split; [destruct d4; [reflexivity|discriminate D4]|]. repeat split.
    - discriminate. }
  exists h1, d1, h2, d2, h3, d3, h4.
  repeat (split; [assumption|]).
  rewrite app_nil_r in P4.
  rewrite <- P1, <- P2, <- P3, <- P4. now rewrite !app_assoc.
Qed.

Lemma four_deals_use_up_the_deck_witness :
  exists h1 d1 h2 d2 h3 d3 h4,
    Cards.deal_cards Cards.create_deck 3 1 = Some (h1, d1)
    /\ Cards.deal_cards d1 3 2 = Some (h2, d2)
    /\ Cards.deal_cards d2 3 3 = Some (h3, d3)
    /\ Cards.deal_cards d3 3 4 = Some (h4, [])
    /\ map (@length Cards.Card) h1 = repeat 10%nat 3
    /\ map (@length Cards.Card) h2 = repeat 6%nat 3
    /\ map (@length Cards.Card) h3 = repeat 6%nat 3
    /\ map (@length Cards.Card) h4 = [2; 1; 1]%nat
    /\ Permutation (concat h1 ++ concat h2 ++ concat h3 ++ concat h4)
         Cards.create_deck.
Proof.
  exact (four_deals_use_up_the_deck Cards.create_deck 3 [10; 6; 6; 6]%nat
           eq_refl eq_refl).
Defined.

(** ** Whose turn is next *)

Section NextTurn.
Import Cards Game.

Lemma hand_size_at_in_range (ps : list Player) (i : Z) :
  0 <= i < Z.of_nat (length ps) ->
  exists p, nth_error ps (Z.to_nat i) = Some p
            /\ hand_size_at ps i = Some (Z.of_nat (length (hand p))).
Proof.
  intros Hi. unfold hand_size_at, py_get.
  rewrite (py_index_in_range _ _ Hi).
  destruct (nth_error ps (Z.to_nat i)) as [p|] eqn:E.
  - exists p. auto.
  - apply nth_error_None in E. lia.
Qed.

(** The loop of [_advance_turn] stops at the first candidate who holds a
    card. *)
Lemma next_with_cards_first g (m : nat) :
  num_players g = Z.of_nat (length (players g)) -> 0 < num_players g ->
  forall lo,
    let n := num_players g in
    (exists i k, next_with_cards g (range lo (lo + Z.of_nat m))
                 = Some ((current_turn g + i) mod n)
                 /\ lo <= i < lo + Z.of_nat m
                 /\ hand_size_at (players g) ((current_turn g + i) mod n) = Some k
                 /\ 0 < k
                 /\ forall j, lo <= j < i ->
                      hand_size_at (players g) ((current_turn g + j) mod n) = Some 0)
    \/ (next_with_cards g (range lo (lo + Z.of_nat m)) = Some (current_turn g)
        /\ forall j, lo <= j < lo + Z.of_nat m ->
             hand_size_at (players g) ((current_turn g + j) mod n) = Some 0).
Proof.
  intros Hn Hpos. induction m as [|m IH]; intros lo n.
  - right. unfold range. replace (lo + Z.of_nat 0 - lo) with 0 by lia.
    cbn. split; [reflexivity|lia].
  - rewrite range_cons by lia. cbn [next_with_cards]. fold n.
    assert (0 <= (current_turn g + lo) mod n < Z.of_nat (length (players g))) as Hr.
    { rewrite <- Hn. apply Z.mod_pos_bound. exact Hpos. }
    destruct (hand_size_at_in_range _ _ Hr) as (p & _ & Hsz). rewrite Hsz.
    destruct (0 <? Z.of_nat (length (hand p))) eqn:E.
    + left. exists lo, (Z.of_nat (length (hand p))).
      split; [reflexivity|]. split; [lia|]. split; [exact Hsz|].
      split; [lia|]. lia.
    + assert (hand_size_at (players g) ((current_turn g + lo) mod n) = Some 0) as H0.
      { rewrite Hsz. f_equal. lia. }
      specialize (IH (lo + 1)). cbv zeta in IH. fold n in IH.
      replace (lo + 1 + Z.of_nat m) with (lo + Z.of_nat (S m)) in IH by lia.
      destruct IH as [(i & k & E1 & E2 & E3 & E4 & E5)|[E1 E2]].
      * left. exists i, k. split; [exact E1|]. split; [lia|].
        split; [exact E3|]. split; [exact E4|].
        intros j Hj. destruct (Z.eq_dec j lo) as [->|]; [exact H0|].
        apply E5. lia.
      * right. split; [exact E1|].
        intros j Hj. destruct (Z.eq_dec j lo) as [->|]; [exact H0|].
        apply E2. lia.
Qed.

(** Every seat is some number of steps clockwise from the current one. *)
Lemma seat_is_reached n ct q :
  0 < n -> 0 <= ct < n -> 0 <= q < n ->
  exists i, 1 <= i < 1 + n /\ q = (ct + i) mod n.
Proof.
  intros Hn Hct Hq.
  destruct (Z_lt_dec ct q).
  - exists (q - ct). split; [lia|].
    replace (ct + (q - ct)) with q by lia. now rewrite Z.mod_small.
  - exists (q - ct + n). split; [lia|].
    replace (ct + (q - ct + n)) with (q + 1 * n) by lia.
    rewrite Z.mod_add by lia. now rewrite Z.mod_small.
Qed.

Lemma has_cards_seat g :
  has_cards g = true ->
  exists q p, 0 <= q < Z.of_nat (length (players g))
              /\ nth_error (players g) (Z.to_nat q) = Some p
              /\ 0 < Z.of_nat (length (hand p)).
Proof.
  unfold has_cards. intros H. apply existsb_exists in H.
  destruct H as (p & Hin & Hp). apply In_nth_error in Hin.
  destruct Hin as (k & Hk). exists (Z.of_nat k), p.
  assert (k < length (players g))%nat by (apply nth_error_Some; congruence).
  rewrite Nat2Z.id. split; [lia|]. split; [exact Hk|]. lia.
Qed.
End NextTurn.

(** After a sale the turn goes to the nearest player clockwise from the
    current one who still holds a card, the current player included last:
    [_advance_turn] sets [current_turn] to [(current_turn + i) mod
    num_players] for the least [i] in [1 .. num_players] whose player has a
    card, announces it, and changes nothing else.  When nobody holds a card
    it ends the round instead. *)
Theorem turn_passes_to_next_with_cards :
  forall (g : Game.Game),
    Game.num_players g = Z.of_nat (length (Game.players g)) ->
    0 <= Game.current_turn g < Game.num_players g ->
    let n := Game.num_players g in
    (has_cards g = false -> Game._advance_turn g = Game._end_round g)
    /\ (has_cards g = true ->
        exists i k,
          let t := (Game.current_turn g + i) mod n in
          Game._advance_turn g
          = Some (Game.with_turn g t, [Game.ev_turn_changed t; Game.ev_your_turn t])
          /\ 1 <= i <= n
          /\ Game.hand_size_at (Game.players g) t = Some k /\ 0 < k
          /\ forall j, 1 <= j < i ->
               Game.hand_size_at (Game.players g)
                 ((Game.current_turn g + j) mod n) = Some 0).
Proof.
  intros g Hn Hct n. unfold Game._advance_turn. fold (has_cards g). split.
  - intros ->. reflexivity.
  - intros Hc. rewrite Hc. cbn [negb].
    pose proof (next_with_cards_first g (Z.to_nat n) Hn ltac:(lia) 1) as H.
    cbv zeta in H. fold n in H.
    replace (1 + Z.of_nat (Z.to_nat n)) with (n + 1) in H by lia.
    destruct H as [(i & k & E1 & E2 & E3 & E4 & E5)|[_ Hnone]].
    + exists i, k. cbv zeta. fold n. rewrite E1.
      assert (0 <= (Game.current_turn g + i) mod n
              < Z.of_nat (length (Game.players g))) as Hr.
      { rewrite <- Hn. apply Z.mod_pos_bound. lia. }
      destruct (py_get_in_range (Game.players g) _ Hr) as (p & Hp).
      cbn [Game.players Game.with_turn]. rewrite Hp.
      split; [reflexivity|]. split; [lia|]. auto.
    + exfalso.
      destruct (has_cards_seat g Hc) as (q & p & Hq & Hp & Hpos).
      destruct (seat_is_reached n (Game.current_turn g) q ltac:(lia) Hct
                  ltac:(fold n in Hn; lia)) as (i & Hi & ->).
      specialize (Hnone i ltac:(lia)).
      destruct (hand_size_at_in_range _ _ Hq) as (p' & Hp' & Hsz).
      rewrite Hp in Hp'. injection Hp' as <-.
      rewrite Hsz in Hnone. injection Hnone as Hnone. lia.
Qed.

Lemma skip_example_seats :
  Game.num_players SkipExample.game
  = Z.of_nat (length (Game.players SkipExample.game)).
Proof. vm_compute. reflexivity. Qed.

Lemma skip_example_turn :
  0 <= Game.current_turn SkipExample.game < Game.num_players SkipExample.game.
Proof. vm_compute. split; [discriminate|reflexivity]. Qed.

Lemma skip_example_has_cards : has_cards SkipExample.game = true.
Proof. vm_compute. reflexivity. Qed.

(** The turn is with P1 and P2 holds no card: it goes to P0. *)
Lemma skip_example_skips :
  Game.current_turn SkipExample.game = 1
  /\ Game.hand_size_at (Game.players SkipExample.game) 2 = Some 0
  /\ option_map (fun x => (Game.current_turn (fst x), snd x))
       (Game._advance_turn SkipExample.game)
     = Some (0, [Game.ev_turn_changed 0; Game.ev_your_turn 0]).
Proof. vm_compute. auto. Qed.

Lemma turn_passes_to_next_with_cards_witness :
  exists i k,
    let t := (Game.current_turn SkipExample.game + i)
             mod Game.num_players SkipExample.game in
    Game._advance_turn SkipExample.game
    = Some (Game.with_turn SkipExample.game t,
            [Game.ev_turn_changed t; Game.ev_your_turn t])
    /\ 1 <= i <= Game.num_players SkipExample.game
    /\ Game.hand_size_at (Game.players SkipExample.game) t = Some k /\ 0 < k
    /\ forall j, 1 <= j < i ->
         Game.hand_size_at (Game.players SkipExample.game)
           ((Game.current_turn SkipExample.game + j)
            mod Game.num_players SkipExample.game) = Some 0.
Proof.
  exact (proj2 (turn_passes_to_next_with_cards SkipExample.game
                  skip_example_seats skip_example_turn)
           skip_example_has_cards).
Defined.

(** ** The end of a round *)

Section RoundEnd.
Import Cards Game.

Lemma fold_left_add_sumZ {A : Type} (f : A -> Z) (l : list A) :
  forall acc, fold_left (fun acc c => acc + f c) l acc = acc + sumZ (map f l).
Proof.
  induction l as [|x l IH]; intros acc; cbn; [lia|].
  rewrite IH. unfold sumZ. lia.
Qed.

Lemma player_earnings_sum (m : ArtistMap) (p : Player) :
  player_earnings m p = sumZ (map (fun c => m (artist_of c)) (paintings p)).
Proof. unfold player_earnings. now rewrite fold_left_add_sumZ. Qed.

Lemma nth_error_map_combine {A B C : Type} (f : A * B -> C) (d : B)
    (l : list A) (l' : list B) :
  length l' = length l ->
  forall i x, nth_error l i = Some x ->
    nth_error (map f (combine l l')) i = Some (f (x, nth i l' d)).
Proof.
  revert l'. induction l as [|a l IH]; intros [|b l'] Hlen [|i] x Hx;
    cbn in *; try discriminate.
  - now injection Hx as ->.
  - apply IH; [lia|exact Hx].
Qed.

Lemma _end_game_winner g rv e g' evs :
  _end_game g rv e = Some (g', evs) ->
  g' = with_game_over g
  /\ exists w, argmax_money (players g) (num_players g) = Some w
               /\ evs = [ev_round_ended rv (market g) e (round_num g);
                         ev_game_ended w].
Proof.
  unfold _end_game. cbn [players num_players with_game_over].
  destruct (argmax_money _ _) as [w|]; [|discriminate].
  unfold done. intros H. injection H as <- <-. eauto.
Qed.

(** The two ways a round ends, field by field. *)
Lemma _end_round_cases g g' evs :
  _end_round g = Some (g', evs) ->
  let m := fun a => market g a + calculate_round_values (board g) a in
  let paid := map (pay_player m) (players g) in
  (MAX_ROUNDS <= round_num g
   /\ g' = mkGame paid (num_players g) (deck g) (round_num g + 1)
             (current_turn g) (board g) m (current_auction g) false true
             (waiting_for_double g) (double_base_card g) (double_player_index g)
   /\ exists w, argmax_money paid (num_players g) = Some w
                /\ last evs ev_game_started = ev_game_ended w)
  \/ (round_num g < MAX_ROUNDS
      /\ exists new_hands deck',
           deal_cards (deck g) (num_players g) (round_num g + 1)
           = Some (new_hands, deck')
           /\ g' = mkGame
                     (map (fun ph => with_hand (fst ph) (hand (fst ph) ++ snd ph))
                          (combine paid new_hands))
                     (num_players g) deck' (round_num g + 1) 0 (fun _ => 0) m
                     (current_auction g) true (game_over g)
                     (waiting_for_double g) (double_base_card g)
                     (double_player_index g)).
Proof.
  unfold _end_round. cbn -[calculate_round_values deal_cards argmax_money].
  destruct (MAX_ROUNDS <? round_num g + 1) eqn:E.
  - intros H. left. split; [lia|].
    apply after_Some in H. destruct H as (evs0 & H & ->).
    apply _end_game_winner in H. destruct H as (-> & w & Hw & ->).
    split; [reflexivity|].
    exists w. split; [exact Hw|].
    match goal with
    | |- last (?l ++ [?x; ?y]) _ = _ =>
        replace (l ++ [x; y]) with ((l ++ [x]) ++ [y])
          by (rewrite <- app_assoc; reflexivity)
    end.
    apply last_last.
  - intros H. right. split; [lia|].
    destruct (deal_cards _ _ _) as [[new_hands deck']|] eqn:Ed; [|discriminate].
    cbn -[calculate_round_values py_get] in H.
    destruct (py_get _ 0); [|discriminate].
    unfold done in H. injection H as <- _. exists new_hands, deck'.
    split; reflexivity.
Qed.
End RoundEnd.

(** At the end of a round the values of the round are added to the market,
    and every player is paid, for each painting bought in the round, the
    market value the artist has reached after that addition: the value
    built up over the rounds so far, also for an artist who is not among
    the first three of this round.  The piles of paintings are emptied and
    the round number goes up by one. *)
Theorem round_end_pays_the_market :
  forall (g g' : Game.Game) (evs : list Game.event),
    Game._end_round g = Some (g', evs) ->
    Game.num_players g = Z.of_nat (length (Game.players g)) ->
    let m := fun a => Game.market g a
                      + Cards.calculate_round_values (Game.board g) a in
    (forall a, Game.market g' a = m a)
    /\ Game.round_num g' = Game.round_num g + 1
    /\ length (Game.players g') = length (Game.players g)
    /\ forall i p, nth_error (Game.players g) i = Some p ->
         exists p', nth_error (Game.players g') i = Some p'
           /\ Game.money p'
              = Game.money p
                + sumZ (map (fun c => m (Cards.artist_of c)) (Game.paintings p))
           /\ Game.paintings p' = []
           /\ Game.name p' = Game.name p.
Proof.
  intros g g' evs H Hn m.
  pose proof (deal_cards_length (Game.deck g) (Game.num_players g)
                (Game.round_num g + 1)) as Hdeal.
  apply _end_round_cases in H. cbv zeta in H. fold m in H.
  destruct H as [(_ & -> & _)|(_ & hs & d & Hd & ->)];
    cbn [Game.market Game.round_num Game.players].
  - split; [reflexivity|]. split; [reflexivity|].
    split; [apply length_map|].
    intros i p Hp. eexists. split; [apply map_nth_error; exact Hp|].
    unfold Game.pay_player.
    cbn [Game.money Game.paintings Game.name Game.with_paintings Game.with_money].
    rewrite player_earnings_sum. auto.
  - specialize (Hdeal hs d Hd).
    assert (length hs = length (map (Game.pay_player m) (Game.players g))) as Hl.
    { rewrite length_map. lia. }
    split; [reflexivity|]. split; [reflexivity|].
    split; [rewrite length_map_combine by exact Hl; apply length_map|].
    intros i p Hp. eexists. split.
    + apply (nth_error_map_combine _ [] _ _ Hl).
      apply map_nth_error. exact Hp.
    + unfold Game.pay_player.
      cbn [Game.money Game.paintings Game.name Game.with_paintings
           Game.with_money Game.with_hand fst snd].
      rewrite player_earnings_sum. auto.
Qed.

Lemma round_end_example_runs :
  Game._end_round RoundEndExample.game
  = Some (RoundEndExample.next, RoundEndExample.events).
Proof.
  unfold RoundEndExample.next, RoundEndExample.events.
  destruct (Game._end_round RoundEndExample.game) as [[g evs]|] eqn:E;
    [reflexivity|].
  exfalso. vm_compute in E. discriminate.
Qed.

Lemma round_end_example_seats :
  Game.num_players RoundEndExample.game
  = Z.of_nat (length (Game.players RoundEndExample.game)).
Proof. vm_compute. reflexivity. Qed.

Lemma round_end_pays_the_market_witness :
  Game.round_num RoundEndExample.next
  = Game.round_num RoundEndExample.game + 1.
Proof.
  exact (proj1 (proj2 (round_end_pays_the_market
                         RoundEndExample.game RoundEndExample.next
                         RoundEndExample.events round_end_example_runs
                         round_end_example_seats))).
Defined.

(** ** The next round, and the end of the game *)

Section GameEnd.
Import Cards Game.

Lemma money_at_in_range (ps : list Player) (i : Z) :
  0 <= i < Z.of_nat (length ps) ->
  exists p, nth_error ps (Z.to_nat i) = Some p /\ money_at ps i = Some (money p).
Proof.
  intros Hi. unfold money_at, py_get. rewrite (py_index_in_range _ _ Hi).
  destruct (nth_error ps (Z.to_nat i)) as [p|] eqn:E.
  - exists p. auto.
  - apply nth_error_None in E. lia.
Qed.

Lemma argmax_fold (ps : list Player) (m : nat) :
  forall lo best,
    0 < lo -> lo + Z.of_nat m <= Z.of_nat (length ps) ->
    best_so_far ps lo best ->
    exists best',
      fold_left
        (fun best i =>
           match best, money_at ps i with
           | Some (bi, bm), Some m =>
               if bm <? m then Some (i, m) else Some (bi, bm)
           | _, _ => None
           end)
        (range lo (lo + Z.of_nat m)) (Some best) = Some best'
      /\ best_so_far ps (lo + Z.of_nat m) best'.
Proof.
  induction m as [|m IH]; intros lo best Hlo Hhi Hb.
  - unfold range. replace (lo + Z.of_nat 0 - lo) with 0 by lia. cbn.
    exists best. split; [reflexivity|]. now rewrite Z.add_0_r.
  - rewrite range_cons by lia. cbn [fold_left].
    destruct best as [bi bm].
    destruct (money_at_in_range ps lo ltac:(lia)) as (p & Hp & Hm).
    rewrite Hm.
    destruct Hb as (B1 & B2 & B3). cbn [fst snd] in *.
    assert (best_so_far ps (lo + 1)
              (if bm <? money p then (lo, money p) else (bi, bm))) as Hb'.
    { destruct (bm <? money p) eqn:E; unfold best_so_far; cbn [fst snd].
      - apply Z.ltb_lt in E. split; [lia|]. split; [exact Hm|].
        intros q mq Hq Hmq. destruct (Z.eq_dec q lo) as [->|Hne].
        + rewrite Hm in Hmq. injection Hmq as <-. lia.
        + destruct (B3 q mq ltac:(lia) Hmq). lia.
      - apply Z.ltb_ge in E. split; [lia|]. split; [exact B2|].
        intros q mq Hq Hmq. destruct (Z.eq_dec q lo) as [->|Hne].
        + rewrite Hm in Hmq. injection Hmq as <-. lia.
        + apply B3; [lia|exact Hmq]. }
    specialize (IH (lo + 1) _ ltac:(lia) ltac:(lia) Hb').
    replace (lo + 1 + Z.of_nat m) with (lo + Z.of_nat (S m)) in IH by lia.
    destruct (bm <? money p); exact IH.
Qed.

Lemma argmax_money_first_richest (ps : list Player) (n w : Z) :
  n = Z.of_nat (length ps) -> argmax_money ps n = Some w -> first_richest ps w.
Proof.
  intros Hn. unfold argmax_money.
  destruct (Z_lt_dec 0 n) as [Hpos|Hneg].
  - rewrite range_cons by lia.
    destruct (money_at_in_range ps 0 ltac:(lia)) as (p0 & Hp0 & Hm0).
    rewrite Hm0.
    destruct (argmax_fold ps (Z.to_nat (n - 1)) (0 + 1) (0, money p0)
                ltac:(lia) ltac:(lia)) as (best & E & B1 & B2 & B3).
    { split; [cbn; lia|]. split; [exact Hm0|].
      intros q mq Hq Hmq. assert (q = 0) as -> by lia.
      rewrite Hm0 in Hmq. injection Hmq as <-. cbn. lia. }
    replace (0 + 1 + Z.of_nat (Z.to_nat (n - 1))) with n in * by lia.
    rewrite E. cbn [option_map]. intros H. injection H as <-.
    split; [lia|].
    destruct (money_at_in_range ps (fst best) ltac:(lia)) as (pw & Hpw & Hmw).
    rewrite Hmw in B2. injection B2 as B2.
    exists pw. split; [exact Hpw|].
    intros i p Hi.
    assert (i < length ps)%nat by (apply nth_error_Some; congruence).
    destruct (money_at_in_range ps (Z.of_nat i) ltac:(lia)) as (p' & Hp' & Hm').
    rewrite Nat2Z.id, Hi in Hp'. injection Hp' as <-.
    rewrite B2. apply (B3 (Z.of_nat i)); [lia|exact Hm'].
  - unfold range. replace (Z.to_nat (n - 0)) with 0%nat by lia. discriminate.
Qed.
End GameEnd.

(** When a round other than the last ends, the next round is set up: the
    board is cleared, [deal_cards] deals the next round from the deck left
    and each player's new cards are added behind the cards still in hand,
    the round is active again and the turn goes to the first seat, whoever
    played last. *)
Theorem round_end_deals_next_round :
  forall (g g' : Game.Game) (evs : list Game.event),
    Game._end_round g = Some (g', evs) ->
    Game.num_players g = Z.of_nat (length (Game.players g)) ->
    Game.round_num g < Cards.MAX_ROUNDS ->
    Game.game_over g' = Game.game_over g
    /\ Game.round_active g' = true
    /\ Game.current_turn g' = 0
    /\ (forall a, Game.board g' a = 0)
    /\ exists new_hands,
         Cards.deal_cards (Game.deck g) (Game.num_players g) (Game.round_num g + 1)
         = Some (new_hands, Game.deck g')
         /\ forall i p, nth_error (Game.players g) i = Some p ->
              exists p', nth_error (Game.players g') i = Some p'
                         /\ Game.hand p' = Game.hand p ++ nth i new_hands [].
Proof.
  intros g g' evs H Hn Hr.
  pose proof (deal_cards_length (Game.deck g) (Game.num_players g)
                (Game.round_num g + 1)) as Hdeal.
  apply _end_round_cases in H. cbv zeta in H.
  destruct H as [(Hge & _)|(_ & hs & d & Hd & ->)]; [lia|].
  cbn [Game.game_over Game.round_active Game.current_turn Game.board
       Game.deck Game.players].
  repeat (split; [reflexivity|]).
  exists hs. split; [exact Hd|].
  intros i p Hp. specialize (Hdeal hs d Hd). eexists. split.
  - apply (nth_error_map_combine _ [] _ _).
    + rewrite length_map. lia.
    + apply map_nth_error. exact Hp.
  - reflexivity.
Qed.

Lemma round_end_example_round :
  Game.round_num RoundEndExample.game < Cards.MAX_ROUNDS.
Proof. vm_compute. reflexivity. Qed.

Lemma round_end_deals_next_round_witness :
  Game.current_turn RoundEndExample.next = 0.
Proof.
  exact (proj1 (proj2 (proj2 (round_end_deals_next_round
                         RoundEndExample.game RoundEndExample.next
                         RoundEndExample.events round_end_example_runs
                         round_end_example_seats round_end_example_round)))).
Defined.

(** When the fourth round ends the game is over: no cards are dealt, the
    board and the hands stay as they are, and the last event names as the
    winner the player with the most money after the last payout, the first
    such seat when several have as much. *)
Theorem game_over_names_first_richest :
  forall (g g' : Game.Game) (evs : list Game.event),
    Game._end_round g = Some (g', evs) ->
    Game.num_players g = Z.of_nat (length (Game.players g)) ->
    Cards.MAX_ROUNDS <= Game.round_num g ->
    Game.game_over g' = true
    /\ Game.round_active g' = false
    /\ Game.deck g' = Game.deck g
    /\ (forall a, Game.board g' a = Game.board g a)
    /\ (forall i p, nth_error (Game.players g) i = Some p ->
          exists p', nth_error (Game.players g') i = Some p'
                     /\ Game.hand p' = Game.hand p)
    /\ exists w, last evs Game.ev_game_started = Game.ev_game_ended w
                 /\ first_richest (Game.players g') w.
Proof.
  intros g g' evs H Hn Hr.
  apply _end_round_cases in H. cbv zeta in H.
  destruct H as [(_ & -> & w & Hw & Hlast)|(Hlt & _)]; [|lia].
  cbn [Game.game_over Game.round_active Game.board Game.deck Game.players].
  repeat (split; [reflexivity|]).
  split.
  - intros i p Hp. eexists. split; [apply map_nth_error; exact Hp|reflexivity].
  - exists w. split; [exact Hlast|].
    apply (argmax_money_first_richest _ (Game.num_players g)); [|exact Hw].
    rewrite length_map. exact Hn.
Qed.

Lemma game_end_example_runs :
  Game._end_round GameEndExample.game
  = Some (GameEndExample.next, GameEndExample.events).
Proof.
  unfold GameEndExample.next, GameEndExample.events.
  destruct (Game._end_round GameEndExample.game) as [[g evs]|] eqn:E;
    [reflexivity|].
  exfalso. vm_compute in E. discriminate.
Qed.

Lemma game_end_example_seats :
  Game.num_players GameEndExample.game
  = Z.of_nat (length (Game.players GameEndExample.game)).
Proof. vm_compute. reflexivity. Qed.

Lemma game_end_example_round :
  Cards.MAX_ROUNDS <= Game.round_num GameEndExample.game.
Proof. vm_compute. discriminate. Qed.

Lemma game_over_names_first_richest_witness :
  Game.game_over GameEndExample.next = true.
Proof.
  exact (proj1 (game_over_names_first_richest
                  GameEndExample.game GameEndExample.next
                  GameEndExample.events game_end_example_runs
                  game_end_example_seats game_end_example_round)).
Defined.

(** ** Requests that are turned away *)

Section Rejections.
Import Cards Game.

Lemma clean_done g evs : existsb is_error evs = false -> clean (done g evs).
Proof. intros H g' evs' E. injection E as <- <-. exact H. Qed.

Lemma clean_after evs o :
  existsb is_error evs = false -> clean o -> clean (after evs o).
Proof.
  intros H Ho g' evs' E. apply after_Some in E. destruct E as (e0 & E & ->).
  rewrite no_error_app, H. exact (Ho _ _ E).
Qed.

Lemma clean_None : clean None.
Proof. intros g evs E. discriminate. Qed.

Lemma clean_end_round g : clean (_end_round g).
Proof. intros g' evs E. exact (_end_round_no_error _ _ _ E). Qed.

Lemma clean_advance_turn g : clean (_advance_turn g).
Proof.
  unfold _advance_turn. destruct (negb _); [apply clean_end_round|].
  destruct (next_with_cards _ _); [|apply clean_None].
  destruct (py_get _ _); [|apply clean_None]. now apply clean_done.
Qed.

Lemma clean_resolve_auction g r : clean (_resolve_auction g r).
Proof.
  unfold _resolve_auction. destruct (current_auction g); [|apply clean_None].
  destruct (settle_auction _ _ _); [|apply clean_None].
  apply clean_after; [reflexivity|apply clean_advance_turn].
Qed.

Lemma clean_resolve_if g evs res :
  existsb is_error evs = false -> clean (resolve_if g evs res).
Proof.
  intros H. destruct res; cbn [resolve_if].
  - apply clean_after; [exact H|apply clean_resolve_auction].
  - now apply clean_done.
Qed.

Lemma clean_start_auction g s c t dc : clean (_start_auction g s c t dc).
Proof. now apply clean_done. Qed.

Lemma clean_play_single_card g p c i : clean (_play_single_card g p c i).
Proof.
  unfold _play_single_card. destruct (py_index _ _); [|apply clean_None].
  cbv zeta. destruct (_check_round_end _ _);
    (apply clean_after; [reflexivity|]);
    [apply clean_end_round|apply clean_start_auction].
Qed.

Lemma clean_play_double g p c1 i1 c2 i2 : clean (_play_double g p c1 i1 c2 i2).
Proof.
  unfold _play_double. destruct (py_index _ _); [|apply clean_None].
  cbv zeta. destruct (_check_round_end _ _).
  - apply clean_after; [reflexivity|apply clean_end_round].
  - destruct (_check_round_end _ _);
      (apply clean_after; [reflexivity|]);
      [apply clean_end_round|apply clean_start_auction].
Qed.

Lemma turned_away_clean g p o : clean o -> turned_away g p o.
Proof. intros H g' evs E Herr. rewrite (H _ _ E) in Herr. discriminate. Qed.

Lemma turned_away_error g p e : turned_away g p (done g [ev_error p e]).
Proof. intros g' evs E _. injection E as <- <-. eauto. Qed.

Lemma turned_away_None g p : turned_away g p None.
Proof. intros g' evs E. discriminate. Qed.

Lemma turned_away_quiet g p : turned_away g p (done g []).
Proof. apply turned_away_clean. now apply clean_done. Qed.

(** An error of the auction: the auction written back is the one that was
    there. *)
Lemma turned_away_auction_error g a p q act amt e res a' :
  current_auction g = Some a ->
  Auction.process_action a q act amt = (Some e, res, a') ->
  turned_away g p (done (with_auction g (Some a')) [ev_error p (AuctionError e)]).
Proof.
  intros Ha E. apply error_changes_nothing in E. destruct E as [-> _].
  rewrite (with_auction_same g a Ha). apply turned_away_error.
Qed.

Lemma turned_away_play_card g p i d : turned_away g p (handle_play_card g p i d).
Proof.
  unfold handle_play_card.
  destruct (py_get (players g) p) as [pl|]; [|apply turned_away_None].
  destruct (game_over g || negb (round_active g)); [apply turned_away_error|].
  destruct (current_auction g); [apply turned_away_error|].
  destruct (negb (p =? current_turn g)); [apply turned_away_error|].
  destruct ((i <? 0) || _); [apply turned_away_error|].
  destruct (nth_error (hand pl) (Z.to_nat i)) as [c|]; [|apply turned_away_None].
  destruct (auction_type c);
    try (apply turned_away_clean; apply clean_play_single_card).
  destruct (0 <=? d).
  - destruct (_ || _); [apply turned_away_error|].
    destruct (nth_error (hand pl) (Z.to_nat d)) as [c2|]; [|apply turned_away_None].
    destruct (negb _); [apply turned_away_error|].
    apply turned_away_clean. apply clean_play_double.
  - destruct (has_match _ _ _).
    + destruct (py_index _ _); [|apply turned_away_None].
      apply turned_away_clean. now apply clean_done.
    + apply turned_away_clean. apply clean_play_single_card.
Qed.

Lemma turned_away_double_response g p i :
  turned_away g p (handle_double_response g p i).
Proof.
  apply turned_away_clean. unfold handle_double_response.
  destruct (_ || _); [now apply clean_done|].
  destruct (py_get (players g) p) as [pl|]; [|apply clean_None].
  destruct (py_index _ _) as [k|]; [|apply clean_None].
  destruct (double_base_card g) as [base|]; [|apply clean_None].
  cbv zeta.
  assert (clean
            (if _check_round_end
                  (board_incr (with_double g false None (-1)) (artist_of base))
                  (artist_of base)
             then _end_round
                    (board_incr (with_double g false None (-1)) (artist_of base))
             else after
                    [ev_card_played (artist_of base)
                       (board
                          (board_incr (with_double g false None (-1))
                             (artist_of base)) (artist_of base)) p t_open false]
                    (_start_auction
                       (board_incr (with_double g false None (-1)) (artist_of base))
                       p base t_open None))) as Hdecline.
  { destruct (_check_round_end _ _); [apply clean_end_round|].
    apply clean_after; [reflexivity|apply clean_start_auction]. }
  destruct (_ && _); [|exact Hdecline].
  destruct (nth_error (hand pl) (Z.to_nat i)) as [c2|]; [|apply clean_None].
  destruct (artist_eqb _ _); [|exact Hdecline].
  destruct (_check_round_end _ _); [apply clean_end_round|].
  destruct (_check_round_end _ _); [apply clean_end_round|].
  apply clean_after; [reflexivity|apply clean_start_auction].
Qed.

Lemma turned_away_bid g p x : turned_away g p (handle_bid g p x).
Proof.
  unfold handle_bid.
  destruct (current_auction g) as [a|] eqn:Ha; [|apply turned_away_quiet].
  destruct (py_get (players g) p) as [pl|]; [|apply turned_away_None].
  destruct (money pl <? x); [apply turned_away_error|].
  destruct (Auction.process_action a p Auction.a_bid x) as [[[e|] res] a'] eqn:E.
  - exact (turned_away_auction_error g a p p _ _ e res a' Ha E).
  - apply turned_away_clean. apply clean_resolve_if.
    now destruct (Auction.auction_type a').
Qed.

Lemma turned_away_pass g p : turned_away g p (handle_pass g p).
Proof.
  unfold handle_pass.
  destruct (current_auction g) as [a|] eqn:Ha; [|apply turned_away_quiet].
  destruct (Auction.process_action a p Auction.a_pass 0) as [[[e|] res] a'] eqn:E.
  - destruct (py_get (players g) p); [|apply turned_away_None].
    exact (turned_away_auction_error g a p p _ _ e res a' Ha E).
  - apply turned_away_clean.
    destruct (Auction.auction_type a');
      try (destruct (py_get (players g) p); [|apply clean_None]);
      now apply clean_resolve_if.
Qed.

Lemma turned_away_accept g p : turned_away g p (handle_accept g p).
Proof.
  unfold handle_accept.
  destruct (current_auction g) as [a|] eqn:Ha; [|apply turned_away_quiet].
  destruct (Auction.auction_type a); try apply turned_away_quiet.
  destruct (py_get (players g) p) as [pl|]; [|apply turned_away_None].
  destruct (money pl <? Auction.fixed_price a); [apply turned_away_error|].
  destruct (Auction.process_action a p Auction.a_accept 0) as [[[e|] res] a'] eqn:E.
  - exact (turned_away_auction_error g a p p _ _ e res a' Ha E).
  - apply turned_away_clean. now apply clean_resolve_if.
Qed.

Lemma turned_away_set_price g p x : turned_away g p (handle_set_price g p x).
Proof.
  unfold handle_set_price.
  destruct (current_auction g) as [a|] eqn:Ha; [|apply turned_away_quiet].
  destruct (Auction.auction_type a); try apply turned_away_quiet.
  destruct (negb _); [apply turned_away_quiet|].
  destruct (Auction.process_action a p Auction.a_set_price x)
    as [[[e|] res] a'] eqn:E;
    (destruct (py_get (players g) p); [|apply turned_away_None]).
  - exact (turned_away_auction_error g a p p _ _ e res a' Ha E).
  - apply turned_away_clean. now apply clean_resolve_if.
Qed.
End Rejections.

(** A request that is answered with an error changes nothing: whatever the
    request and the state of the game, if the handler sends an error then
    it sends exactly that one message, to the sender, and leaves the game,
    the auction included, exactly as it was. *)
Theorem rejected_request_changes_nothing :
  forall (g g' : Game.Game) (r : Game.request) (evs : list Game.event),
    Game.handle g r = Some (g', evs) ->
    existsb is_error evs = true ->
    g' = g /\ exists e, evs = [Game.ev_error (Game.sender r) e].
Proof.
  intros g g' r evs H Herr.
  destruct r as [p i d|p i|p x|p|p|p x]; cbn [Game.handle Game.sender] in *.
  - exact (turned_away_play_card g p i d g' evs H Herr).
  - exact (turned_away_double_response g p i g' evs H Herr).
  - exact (turned_away_bid g p x g' evs H Herr).
  - exact (turned_away_pass g p g' evs H Herr).
  - exact (turned_away_accept g p g' evs H Herr).
  - exact (turned_away_set_price g p x g' evs H Herr).
Qed.

Lemma rejected_request_example :
  Game.handle RoundEndExample.game (Game.play_card 2 0 (-1))
  = Some (RoundEndExample.game, [Game.ev_error 2 Game.NotYourTurn]).
Proof. vm_compute. reflexivity. Qed.

Lemma rejected_request_changes_nothing_witness :
  RoundEndExample.game = RoundEndExample.game
  /\ exists e, [Game.ev_error 2 Game.NotYourTurn]
               = [Game.ev_error (Game.sender (Game.play_card 2 0 (-1))) e].
Proof.
  exact (rejected_request_changes_nothing
           RoundEndExample.game RoundEndExample.game (Game.play_card 2 0 (-1))
           [Game.ev_error 2 Game.NotYourTurn] rejected_request_example eq_refl).
Defined.

(** ** Nobody goes into debt *)

Section BackedBids.
Import Cards Auction.

Variable ps : list Game.Player.

Lemma backed_grow ps' a : grows ps ps' -> backed ps a -> backed ps' a.
Proof.
  intros Hg (H0 & H1 & H2 & H3). split; [exact H0|]. split; [exact H1|]. split.
  - destruct H2 as [H2|[H2|(p & Hp & Hle)]]; [now left|now right; left|].
    right. right.
    destruct (Hg _ _ Hp) as (p' & Hp' & Hm). exists p'. split; [exact Hp'|lia].
  - intros q v Hin. destruct (H3 q v Hin) as (Hv & p & Hp & Hle).
    split; [exact Hv|]. destruct (Hg _ _ Hp) as (p' & Hp' & Hm).
    exists p'. split; [exact Hp'|lia].
Qed.

Lemma backed_new t s c n dc : backed ps (new_auction t s c n dc).
Proof.
  unfold backed. cbn. split; [lia|]. split; [lia|]. split; [now right; left|].
  intros q v [].
Qed.

(** Writes that touch no bid. *)
Lemma backed_same a b :
  auction_type b = auction_type a ->
  current_bid b = current_bid a -> fixed_price b = fixed_price a ->
  current_bidder b = current_bidder a -> bids b = bids a ->
  backed ps a -> backed ps b.
Proof. unfold backed. intros -> -> -> -> ->. auto. Qed.

Lemma backed_start_once_around a : backed ps a -> backed ps (start_once_around a).
Proof. apply backed_same; reflexivity. Qed.

Lemma backed_set_state a st : backed ps a -> backed ps (set_state a st).
Proof. apply backed_same; reflexivity. Qed.

Lemma backed_set_passed a l : backed ps a -> backed ps (set_passed a l).
Proof. apply backed_same; reflexivity. Qed.

Lemma backed_set_turn a t : backed ps a -> backed ps (set_turn a t).
Proof. apply backed_same; reflexivity. Qed.

Lemma backed_set_bid a p x pl :
  nth_error ps (Z.to_nat p) = Some pl -> 0 <= x <= Game.money pl ->
  backed ps a -> backed ps (set_bid a p x).
Proof.
  intros Hp Hx (H0 & H1 & H2 & H3). unfold backed. cbn.
  split; [lia|]. split; [exact H1|]. split.
  - right. right. exists pl. split; [exact Hp|lia].
  - intros q v Hin. apply dict_set_In in Hin.
    destruct Hin as [[-> ->]|Hin]; [|now apply H3].
    split; [lia|]. exists pl. split; [exact Hp|lia].
Qed.

Lemma backed_set_sealed a p x pl :
  nth_error ps (Z.to_nat p) = Some pl -> 0 <= x <= Game.money pl ->
  backed ps a -> backed ps (set_sealed a p x).
Proof.
  intros Hp Hx (H0 & H1 & H2 & H3). unfold backed. cbn.
  split; [exact H0|]. split; [exact H1|]. split; [exact H2|].
  intros q v Hin. apply dict_set_In in Hin.
  destruct Hin as [[-> ->]|Hin]; [|now apply H3].
  split; [lia|]. exists pl. split; [exact Hp|lia].
Qed.

Lemma payable_default a :
  auction_type a <> t_fixed_price -> backed ps a -> payable ps (default_result a).
Proof.
  intros Ht (H0 & H1 & H2 & H3). unfold default_result, payable.
  destruct (current_bidder a =? -1) eqn:E; cbn.
  - split; [lia|now left].
  - split; [exact H0|]. right.
    destruct H2 as [H2|[H2|H2]];
      [contradiction|apply Z.eqb_neq in E; contradiction|exact H2].
Qed.

Lemma check_open_resolved_backed : check_backed ps t_open check_open_resolved.
Proof.
  intros a Ht Hb. unfold check_open_resolved. destruct (_ || _); cbn [fst snd].
  - split; [now apply backed_set_state|].
    intros r E. injection E as <-. apply payable_default; [congruence|exact Hb].
  - split; [exact Hb|discriminate].
Qed.

Lemma check_once_around_resolved_backed :
  check_backed ps t_once_around check_once_around_resolved.
Proof.
  intros a Ht Hb. unfold check_once_around_resolved.
  destruct (_ || _); cbn [fst snd].
  - split; [now apply backed_set_state|].
    intros r E. injection E as <-. apply payable_default; [congruence|exact Hb].
  - split; [exact Hb|discriminate].
Qed.

Lemma payable_seller s x : 0 <= x -> payable ps (mkResult s x s).
Proof. intros H. split; [exact H|now left]. Qed.

Lemma check_sealed_resolved_backed : check_backed ps t_sealed check_sealed_resolved.
Proof.
  intros a _ Hb. unfold check_sealed_resolved.
  destruct (_ <=? _); cbn [fst snd]; [|split; [exact Hb|discriminate]].
  destruct (bids a) as [|b rest] eqn:Eb; cbn [fst snd].
  - split; [now apply backed_set_state|].
    intros r E. injection E as <-. apply payable_seller. lia.
  - destruct (max_value _ _ =? 0); cbn [fst snd].
    + split; [now apply backed_set_state|].
      intros r E. injection E as <-. apply payable_seller. lia.
    + split; [now apply backed_set_state|].
      intros r E. injection E as <-.
      destruct (max_bid_item_spec rest b) as [Hin _].
      destruct Hb as (_ & _ & _ & H3). rewrite Eb in H3.
      destruct (max_bid_item b rest) as [q v]. cbn [fst snd] in *.
      destruct (H3 q v Hin) as (Hv & p & Hp & Hle).
      split; [exact Hv|]. right. exists p. auto.
Qed.

Lemma check_fixed_price_resolved_backed :
  check_backed ps t_fixed_price check_fixed_price_resolved.
Proof.
  intros a _ Hb. unfold check_fixed_price_resolved.
  destruct (negb _); cbn [fst snd]; [split; [exact Hb|discriminate]|].
  destruct (_ || _); cbn [fst snd]; [|split; [exact Hb|discriminate]].
  split; [now apply backed_set_state|].
  intros r E. injection E as <-. apply payable_seller. apply Hb.
Qed.

Lemma checked_backed t a er check :
  check_backed ps t check -> backed ps a ->
  (fst er = None -> backed ps (snd er) /\ auction_type (snd er) = t) ->
  (forall e, fst er = Some e -> snd er = a) ->
  backed ps (snd (checked er check))
  /\ forall r, snd (fst (checked er check)) = Some r -> payable ps r.
Proof.
  intros Hc Hb Hok Herr. unfold checked. destruct (fst er) as [e|] eqn:E.
  - cbn [fst snd]. split; [rewrite (Herr e eq_refl); exact Hb|discriminate].
  - cbn [fst snd]. destruct (Hok eq_refl) as [H1 H2]. exact (Hc _ H2 H1).
Qed.

Lemma unchecked_backed t a check :
  check_backed ps t check -> auction_type a = t -> backed ps a ->
  backed ps (snd (unchecked (check a)))
  /\ forall r, snd (fst (unchecked (check a))) = Some r -> payable ps r.
Proof. intros Hc Ht Hb. exact (Hc a Ht Hb). Qed.

Lemma backed_cond_passed a (b : bool) l :
  backed ps a -> backed ps (if b then set_passed a l else a).
Proof. intros H. destruct b; [now apply backed_set_passed|exact H]. Qed.

Lemma type_cond_passed a (b : bool) l :
  auction_type (if b then set_passed a l else a) = auction_type a.
Proof. now destruct b. Qed.

(** One action of the player [pl] at seat [p]: a bid within the balance,
    an acceptance of a price within the balance, or anything else. *)
Lemma process_action_backed a p act amt pl :
  backed ps a ->
  nth_error ps (Z.to_nat p) = Some pl -> 0 <= Game.money pl ->
  (act = a_bid -> amt <= Game.money pl) ->
  (act = a_accept -> fixed_price a <= Game.money pl) ->
  backed ps (snd (process_action a p act amt))
  /\ forall r, snd (fst (process_action a p act amt)) = Some r -> payable ps r.
Proof.
  intros Hb Hp Hm Hbid Hacc.
  assert (forall x : option error * option AuctionResult * Auction,
             x = (None, None, a) ->
             backed ps (snd x) /\ forall r, snd (fst x) = Some r -> payable ps r)
    as Hnothing.
  { intros x ->. cbn. split; [exact Hb|discriminate]. }
  unfold process_action.
  destruct (auction_type a) eqn:Ht; destruct act;
    try (apply Hnothing; reflexivity).
  - (* open, bid *)
    apply (checked_backed t_open a); [apply check_open_resolved_backed|exact Hb| |].
    + unfold open_bid. destruct (negb _); [discriminate|].
      destruct (p =? seller_index a); [discriminate|].
      destruct (amt <=? current_bid a) eqn:E; [discriminate|].
      destruct (negb _); [discriminate|]. intros _. cbn [snd].
      split; [|exact Ht].
      apply (backed_set_bid a p amt pl Hp); [|exact Hb].
      destruct Hb as (H0 & _). specialize (Hbid eq_refl). lia.
    + unfold open_bid. intros e.
      destruct (negb _); [reflexivity|].
      destruct (p =? seller_index a); [reflexivity|].
      destruct (amt <=? current_bid a); [reflexivity|].
      destruct (negb _); [reflexivity|discriminate].
  - (* open, pass *)
    apply (unchecked_backed t_open); [apply check_open_resolved_backed| |].
    + unfold open_pass. now rewrite type_cond_passed.
    + unfold open_pass. now apply backed_cond_passed.
  - (* once around, bid *)
    apply (checked_backed t_once_around a);
      [apply check_once_around_resolved_backed|exact Hb| |].
    + unfold once_around_bid. destruct (negb _); [discriminate|].
      destruct (amt <=? current_bid a) eqn:E; [discriminate|].
      destruct (negb _); [discriminate|]. intros _. cbn [snd].
      split; [|exact Ht].
      apply backed_set_turn, backed_set_passed.
      apply (backed_set_bid a p amt pl Hp); [|exact Hb].
      destruct Hb as (H0 & _). specialize (Hbid eq_refl). lia.
    + unfold once_around_bid. intros e.
      destruct (negb _); [reflexivity|].
      destruct (amt <=? current_bid a); [reflexivity|].
      destruct (negb _); [reflexivity|discriminate].
  - (* once around, pass *)
    apply (unchecked_backed t_once_around);
      [apply check_once_around_resolved_backed| |].
    + unfold once_around_pass. cbn [auction_type set_turn].
      now rewrite type_cond_passed.
    + unfold once_around_pass. apply backed_set_turn. now apply backed_cond_passed.
  - (* sealed, bid *)
    apply (checked_backed t_sealed a); [apply check_sealed_resolved_backed|exact Hb| |].
    + unfold sealed_bid. destruct (p =? seller_index a); [discriminate|].
      destruct (dict_mem _ _); [discriminate|].
      destruct (amt <? 0) eqn:E; [discriminate|].
      destruct (negb _); [discriminate|]. intros _. cbn [snd].
      split; [|exact Ht].
      apply (backed_set_sealed a p amt pl Hp); [|exact Hb].
      specialize (Hbid eq_refl). lia.
    + unfold sealed_bid. intros e.
      destruct (p =? seller_index a); [reflexivity|].
      destruct (dict_mem _ _); [reflexivity|].
      destruct (amt <? 0); [reflexivity|].
      destruct (negb _); [reflexivity|discriminate].
  - (* sealed, pass *)
    apply (unchecked_backed t_sealed); [apply check_sealed_resolved_backed| |].
    + unfold sealed_pass. now destruct (_ && _).
    + unfold sealed_pass. destruct (_ && _); [|exact Hb].
      apply (backed_set_sealed a p 0 pl Hp); [lia|exact Hb].
  - (* fixed price, pass *)
    apply (unchecked_backed t_fixed_price);
      [apply check_fixed_price_resolved_backed| |].
    + unfold fixed_price_decline. cbn [auction_type set_turn].
      now rewrite type_cond_passed.
    + unfold fixed_price_decline. apply backed_set_turn.
      now apply backed_cond_passed.
  - (* fixed price, set_price *)
    apply (checked_backed t_fixed_price a);
      [apply check_fixed_price_resolved_backed|exact Hb| |].
    + unfold set_fixed_price. destruct (negb _); [discriminate|].
      destruct (amt <=? 0) eqn:E; [discriminate|].
      destruct (negb _); [discriminate|]. intros _. cbn [snd].
      split; [|exact Ht].
      apply backed_set_turn.
      destruct Hb as (H0 & H1 & H2 & H3). unfold backed. cbn.
      split; [lia|]. split; [lia|]. split; [now left|exact H3].
    + unfold set_fixed_price. intros e.
      destruct (negb _); [reflexivity|].
      destruct (amt <=? 0); [reflexivity|].
      destruct (negb _); [reflexivity|discriminate].
  - (* fixed price, accept *)
    unfold unchecked, fixed_price_accept.
    destruct (negb _); cbn [fst snd]; [split; [exact Hb|discriminate]|].
    split; [now apply backed_set_state|].
    intros r E. injection E as <-. split; [apply Hb|]. cbn.
    right. exists pl. split; [exact Hp|]. now apply Hacc.
  - (* fixed price, decline *)
    apply (unchecked_backed t_fixed_price);
      [apply check_fixed_price_resolved_backed| |].
    + unfold fixed_price_decline. cbn [auction_type set_turn].
      now rewrite type_cond_passed.
    + unfold fixed_price_decline. apply backed_set_turn.
      now apply backed_cond_passed.
Qed.
End BackedBids.

Section SolventGame.
Import Cards Game.

Lemma grows_refl ps : grows ps ps.
Proof. intros i p Hp. exists p. split; [exact Hp|lia]. Qed.

Lemma grows_trans ps1 ps2 ps3 : grows ps1 ps2 -> grows ps2 ps3 -> grows ps1 ps3.
Proof.
  intros H12 H23 i p Hp. destruct (H12 _ _ Hp) as (p2 & Hp2 & Hm2).
  destruct (H23 _ _ Hp2) as (p3 & Hp3 & Hm3). exists p3. split; [exact Hp3|lia].
Qed.

Lemma grows_list_update ps k (u : Player -> Player) :
  (forall x, money x <= money (u x)) -> grows ps (list_update ps k u).
Proof.
  intros Hu i p Hp. rewrite nth_error_list_update, Hp.
  destruct (Nat.eqb i k); cbn [option_map]; eexists; (split; [reflexivity|]).
  - apply Hu.
  - lia.
Qed.

Lemma grows_map ps (u : Player -> Player) :
  (forall x, money x <= money (u x)) -> grows ps (map u ps).
Proof.
  intros Hu i p Hp. exists (u p). split; [now apply map_nth_error|apply Hu].
Qed.

Lemma grows_map_combine {B : Type} ps (hs : list B) (u : Player * B -> Player) :
  length hs = length ps -> (forall x h, money x <= money (u (x, h))) ->
  grows ps (map u (combine ps hs)).
Proof.
  intros Hlen Hu i p Hp.
  destruct (nth_error hs i) as [h|] eqn:Eh.
  - exists (u (p, h)). split; [|apply Hu].
    apply map_nth_error.
    clear Hu. revert hs i Hlen Hp Eh.
    induction ps as [|x ps IH]; intros [|y hs] [|i] Hlen Hp Eh;
      cbn in *; try discriminate.
    + now injection Hp as ->; injection Eh as ->.
    + apply IH; [lia|exact Hp|exact Eh].
  - apply nth_error_None in Eh.
    assert (i < length ps)%nat by (apply nth_error_Some; congruence). lia.
Qed.

Lemma Forall_list_update {A : Type} (P : A -> Prop) (l : list A) k u :
  Forall P l -> (forall x, P x -> P (u x)) -> Forall P (list_update l k u).
Proof.
  intros H Hu. revert k. induction H as [|x l Hx Hl IH]; intros [|k]; cbn;
    constructor; auto.
Qed.

Lemma Forall_map_combine {B : Type} (P : Player -> Prop) ps (hs : list B)
    (u : Player * B -> Player) :
  Forall P ps -> (forall x h, P x -> P (u (x, h))) ->
  Forall P (map u (combine ps hs)).
Proof.
  intros H Hu. revert hs. induction H as [|x l Hx Hl IH]; intros [|h hs]; cbn;
    constructor; auto.
Qed.

Lemma sumZ_nonneg (l : list Z) : Forall (fun x => 0 <= x) l -> 0 <= sumZ l.
Proof. induction 1; unfold sumZ in *; cbn [fold_right]; lia. Qed.

Lemma player_earnings_nonneg (m : ArtistMap) (p : Player) :
  (forall a, 0 <= m a) -> 0 <= player_earnings m p.
Proof.
  intros Hm. rewrite player_earnings_sum. apply sumZ_nonneg.
  apply Forall_forall. intros x Hx. apply in_map_iff in Hx.
  destruct Hx as (c & <- & _). apply Hm.
Qed.

Lemma calculate_round_values_nonneg (b : ArtistMap) (a : artist) :
  0 <= calculate_round_values b a.
Proof.
  rewrite calculate_round_values_rank. destruct (0 <? b a); [|lia].
  unfold RoundSpec.award.
  destruct (_ =? 1); [lia|]. destruct (_ =? 2); [lia|].
  destruct (_ =? 3); lia.
Qed.

(** A game that differs in nothing that counts. *)
Lemma solvent_same g g' :
  players g' = players g -> market g' = market g ->
  current_auction g' = current_auction g -> solvent g -> solvent g'.
Proof. unfold solvent. intros -> -> ->. auto. Qed.

Lemma solvent_pop_hand g k i : solvent g -> solvent (pop_hand g k i).
Proof.
  intros (H1 & H2 & H3). unfold solvent, pop_hand. fields.
  split; [|split; [exact H2|]].
  - apply Forall_list_update; [exact H1|]. intros x Hx. exact Hx.
  - intros a Ha. apply (backed_grow (players g)); [|now apply H3].
    apply grows_list_update. intros x. cbn. lia.
Qed.

Lemma stays_solvent_done g evs : solvent g -> stays_solvent (done g evs).
Proof. intros H g' evs' E. injection E as <- _. exact H. Qed.

Lemma stays_solvent_None : stays_solvent None.
Proof. intros g evs E. discriminate. Qed.

Lemma stays_solvent_after evs o : stays_solvent o -> stays_solvent (after evs o).
Proof.
  intros H g evs' E. apply after_Some in E. destruct E as (e0 & E & _).
  exact (H _ _ E).
Qed.

Lemma stays_solvent_start_auction g s c t dc :
  solvent g -> stays_solvent (_start_auction g s c t dc).
Proof.
  intros (H1 & H2 & _). apply stays_solvent_done.
  unfold solvent. fields. split; [exact H1|]. split; [exact H2|].
  intros a E. injection E as <-.
  destruct t;
    first [apply backed_new | apply backed_start_once_around, backed_new].
Qed.

Lemma stays_solvent_end_round g :
  num_players g = Z.of_nat (length (players g)) ->
  solvent g -> stays_solvent (_end_round g).
Proof.
  intros Hn (H1 & H2 & H3) g' evs E.
  pose proof (deal_cards_length (deck g) (num_players g) (round_num g + 1))
    as Hdeal.
  apply _end_round_cases in E. cbv zeta in E.
  set (m := fun a => market g a + calculate_round_values (board g) a) in *.
  assert (forall a, 0 <= m a) as Hm.
  { intros a. unfold m. pose proof (H2 a).
    pose proof (calculate_round_values_nonneg (board g) a). lia. }
  clearbody m.
  assert (forall x, money x <= money (pay_player m x)) as Hpay.
  { intros x. unfold pay_player. cbn [money with_paintings with_money].
    pose proof (player_earnings_nonneg m x Hm). lia. }
  assert (Forall (fun p => 0 <= money p) (map (pay_player m) (players g))) as Hpaid.
  { apply Forall_map. eapply Forall_impl; [|exact H1].
    intros x Hx. specialize (Hpay x). cbn beta in *. lia. }
  destruct E as [(_ & -> & _)|(_ & hs & d & Hd & ->)]; unfold solvent; fields.
  - split; [exact Hpaid|]. split; [exact Hm|].
    intros a Ha. apply (backed_grow (players g)); [|now apply H3].
    now apply grows_map.
  - specialize (Hdeal hs d Hd).
    assert (length hs = length (map (pay_player m) (players g))) as Hl.
    { rewrite length_map. lia. }
    split; [|split; [exact Hm|]].
    + apply Forall_map_combine; [exact Hpaid|]. intros x h Hx. exact Hx.
    + intros a Ha. apply (backed_grow (players g)); [|now apply H3].
      apply (grows_trans _ (map (pay_player m) (players g)));
        [now apply grows_map|].
      apply grows_map_combine; [exact Hl|]. intros x h. cbn. lia.
Qed.

Lemma stays_solvent_advance_turn g :
  num_players g = Z.of_nat (length (players g)) ->
  solvent g -> stays_solvent (_advance_turn g).
Proof.
  intros Hn Hs. unfold _advance_turn.
  destruct (negb _); [now apply stays_solvent_end_round|].
  destruct (next_with_cards _ _); [|apply stays_solvent_None].
  destruct (py_get _ _); [|apply stays_solvent_None].
  apply stays_solvent_done. revert Hs. now apply solvent_same.
Qed.

Lemma Forall_nth_error {A : Type} (P : A -> Prop) (l : list A) :
  (forall i x, nth_error l i = Some x -> P x) -> Forall P l.
Proof.
  intros H. apply Forall_forall. intros x Hx.
  apply In_nth_error in Hx. destruct Hx as (i & Hi). exact (H i x Hi).
Qed.

(** A sale the winner can pay leaves nobody in debt. *)
Lemma stays_solvent_resolve_auction g a r :
  num_players g = Z.of_nat (length (players g)) ->
  solvent g -> current_auction g = Some a ->
  0 <= Auction.winner_index r < num_players g ->
  0 <= Auction.res_seller_index r < num_players g ->
  payable (players g) r ->
  stays_solvent (_resolve_auction g r).
Proof.
  intros Hn (H1 & H2 & _) Ha Hw Hs (Hprice & Hpay).
  unfold _resolve_auction. rewrite Ha.
  destruct (settle_auction_seats g a r ltac:(lia) ltac:(lia))
    as (ps & -> & Hlen & Hps).
  apply stays_solvent_after. apply stays_solvent_advance_turn.
  { fields. lia. }
  unfold solvent. fields. split; [|split; [exact H2|discriminate]].
  apply Forall_nth_error. intros i x Hx.
  assert (i < length (players g))%nat as Hi.
  { rewrite <- Hlen. apply nth_error_Some. congruence. }
  destruct (nth_error (players g) i) as [p|] eqn:Ep.
  2:{ apply nth_error_None in Ep. lia. }
  rewrite (Hps i p Ep) in Hx. injection Hx as <-.
  assert (0 <= money p) as Hp.
  { rewrite Forall_forall in H1. apply H1. eapply nth_error_In. exact Ep. }
  unfold settled. cbn [money].
  destruct (Auction.winner_index r =? Auction.res_seller_index r) eqn:Ews; [exact Hp|].
  destruct (Z.of_nat i =? Auction.winner_index r) eqn:Eiw.
  - destruct Hpay as [Hpay|(pw & Hpw & Hle)]; [apply Z.eqb_neq in Ews; contradiction|].
    apply Z.eqb_eq in Eiw. rewrite <- Eiw, Nat2Z.id, Ep in Hpw.
    injection Hpw as <-. lia.
  - destruct (Z.of_nat i =? Auction.res_seller_index r); lia.
Qed.
End SolventGame.

(** ** A double play on the fifth card *)

Section DoublePlay.
Import Cards Game.

Lemma _end_round_round_num g g' evs :
  _end_round g = Some (g', evs) -> round_num g' = round_num g + 1.
Proof.
  intros H. apply _end_round_cases in H. cbv zeta in H.
  destruct H as [(_ & -> & _)|(_ & hs & d & _ & ->)]; reflexivity.
Qed.

(** The hand of a seat after the round has ended: the hand before, and
    behind it what was dealt. *)
Lemma _end_round_hand g g' evs k pl :
  num_players g = Z.of_nat (length (players g)) ->
  _end_round g = Some (g', evs) ->
  nth_error (players g) k = Some pl ->
  exists pl' dealt,
    nth_error (players g') k = Some pl' /\ hand pl' = hand pl ++ dealt.
Proof.
  intros Hn H Hk.
  pose proof (deal_cards_length (deck g) (num_players g) (round_num g + 1))
    as Hdeal.
  apply _end_round_cases in H. cbv zeta in H.
  destruct H as [(_ & -> & _)|(_ & hs & d & Hd & ->)]; cbn [players].
  - eexists _, []. split; [apply map_nth_error; exact Hk|].
    now rewrite app_nil_r.
  - specialize (Hdeal hs d Hd). eexists _, _. split.
    + apply (nth_error_map_combine _ [] _ _).
      * rewrite length_map. lia.
      * apply map_nth_error. exact Hk.
    + reflexivity.
Qed.

(** The first increment of a double play makes five. *)
Lemma _play_double_fifth g p c1 i c2 d :
  0 <= p < Z.of_nat (length (players g)) ->
  board g (artist_of c1) + 1 = ROUND_END_CARD_COUNT ->
  let a := artist_of c1 in
  let g2 := board_incr
              (pop_hand (pop_hand g (Z.to_nat p) (Z.to_nat (Z.max i d)))
                 (Z.to_nat p) (Z.to_nat (Z.min i d))) a in
  _play_double g p c1 i c2 d
  = after [ev_card_played a ROUND_END_CARD_COUNT p t_double true] (_end_round g2)
  /\ board g2 = amap_set (board g) a ROUND_END_CARD_COUNT.
Proof.
  intros Hp Hfive a g2.
  assert (board g2 = amap_set (board g) a ROUND_END_CARD_COUNT) as Hb.
  { subst g2. fields. subst a. now rewrite Hfive. }
  split; [|exact Hb].
  unfold _play_double. rewrite (py_index_in_range _ _ Hp). fold a. cbv zeta.
  fold g2. unfold _check_round_end. rewrite Hb, amap_set_same, Z.leb_refl.
  reflexivity.
Qed.
End DoublePlay.

(** A double card played together with its partner on an artist who has
    four cards on the board: the first of the two cards makes five and the
    round ends there.  The second card is not counted (the values of the
    round are those of the board with five cards of the artist, and the
    count announced is five), no auction is held and no error is sent,
    and yet both cards have left the player's hand. *)
Theorem double_play_stops_at_five :
  forall (g : Game.Game) (p i d : Z) (pl : Game.Player) (c1 c2 : Cards.Card),
    game_wf g ->
    Game.game_over g = false -> Game.round_active g = true ->
    Game.current_auction g = None ->
    p = Game.current_turn g ->
    nth_error (Game.players g) (Z.to_nat p) = Some pl ->
    0 <= i -> nth_error (Game.hand pl) (Z.to_nat i) = Some c1 ->
    Cards.auction_type c1 = Cards.t_double ->
    0 <= d -> d <> i -> nth_error (Game.hand pl) (Z.to_nat d) = Some c2 ->
    Cards.artist_of c2 = Cards.artist_of c1 ->
    Game.board g (Cards.artist_of c1) + 1 = Cards.ROUND_END_CARD_COUNT ->
    let a := Cards.artist_of c1 in
    exists g' evs,
      Game.handle_play_card g p i d
      = Some (g', Game.ev_card_played a Cards.ROUND_END_CARD_COUNT p
                    Cards.t_double true :: evs)
      /\ existsb is_error evs = false
      /\ Game.current_auction g' = None
      /\ Game.round_num g' = Game.round_num g + 1
      /\ (forall b, Game.market g' b
                    = Game.market g b
                      + Cards.calculate_round_values
                          (Cards.amap_set (Game.board g) a
                             Cards.ROUND_END_CARD_COUNT) b)
      /\ exists pl' dealt,
           nth_error (Game.players g') (Z.to_nat p) = Some pl'
           /\ Game.hand pl'
              = list_pop (list_pop (Game.hand pl) (Z.to_nat (Z.max i d)))
                  (Z.to_nat (Z.min i d)) ++ dealt.
Proof.
  intros g p i d pl c1 c2 Hwf Hover Hact Hauc Hp Hpl Hi Hc1 Ht Hd Hdi Hc2 Hart
         Hfive a.
  pose proof Hwf as (Hn & _ & Hturn & _).
  assert (0 <= p < Z.of_nat (length (Game.players g))) as Hp' by lia.
  assert (Z.to_nat i < length (Game.hand pl))%nat as Hi'
    by (apply nth_error_Some; congruence).
  assert (Z.to_nat d < length (Game.hand pl))%nat as Hd'
    by (apply nth_error_Some; congruence).
  destruct (_play_double_fifth g p c1 i c2 d Hp' Hfive) as [Eplay Hboard].
  fold a in Eplay, Hboard.
  set (g2 := Game.board_incr
               (Game.pop_hand
                  (Game.pop_hand g (Z.to_nat p) (Z.to_nat (Z.max i d)))
                  (Z.to_nat p) (Z.to_nat (Z.min i d))) a) in *.
  assert (game_wf g2) as Hwf2.
  { subst g2. apply game_wf_board_incr. now do 2 apply game_wf_pop_hand. }
  destruct (_end_round_good g2 Hwf2) as (g' & evs & E & _).
  exists g', evs.
  split; [|split; [|split; [|split; [|split]]]].
  - unfold Game.handle_play_card, py_get.
    rewrite (py_index_in_range _ _ Hp'), Hpl, Hover, Hact, Hauc, Hp, Z.eqb_refl.
    cbn [orb negb].
    replace ((i <? 0) || (Z.of_nat (length (Game.hand pl)) <=? i)) with false
      by (symmetry; apply orb_false_intro; lia).
    rewrite Hc1, Ht.
    replace (0 <=? d) with true by (symmetry; lia).
    replace ((Z.of_nat (length (Game.hand pl)) <=? d) || (d =? i)) with false
      by (symmetry; apply orb_false_intro; lia).
    rewrite Hc2, Hart, artist_eqb_refl. cbn [negb].
    rewrite <- Hp, Eplay, E. reflexivity.
  - exact (_end_round_no_error g2 g' evs E).
  - rewrite (_end_round_auction g2 g' evs E). exact Hauc.
  - rewrite (_end_round_round_num g2 g' evs E). reflexivity.
  - intros b. rewrite (_end_round_market g2 g' evs E b), Hboard. reflexivity.
  - assert (nth_error (Game.players g2) (Z.to_nat p)
            = Some (Game.with_hand
                      (Game.with_hand pl
                         (list_pop (Game.hand pl) (Z.to_nat (Z.max i d))))
                      (list_pop
                         (list_pop (Game.hand pl) (Z.to_nat (Z.max i d)))
                         (Z.to_nat (Z.min i d))))) as Hpl2.
    { subst g2. fields. rewrite !nth_error_list_update, Nat.eqb_refl, Hpl.
      reflexivity. }
    destruct (_end_round_hand g2 g' evs _ _ (proj1 Hwf2) E Hpl2)
      as (pl' & dealt & H1 & H2).
    exists pl', dealt. split; [exact H1|exact H2].
Qed.

Lemma game_end_example_wf : game_wf GameEndExample.game.
Proof.
  unfold game_wf.
  split; [vm_compute; reflexivity|].
  split; [eexists; vm_compute; reflexivity|].
  split; [vm_compute; split; [discriminate|reflexivity]|].
  split; [vm_compute; discriminate|].
  split; [intros a E; vm_compute in E; discriminate|].
  intros E. vm_compute in E. discriminate.
Qed.

Lemma game_end_example_on : Game.game_over GameEndExample.game = false.
Proof. vm_compute. reflexivity. Qed.

Lemma game_end_example_active : Game.round_active GameEndExample.game = true.
Proof. vm_compute. reflexivity. Qed.

Lemma game_end_example_no_auction :
  Game.current_auction GameEndExample.game = None.
Proof. vm_compute. reflexivity. Qed.

Lemma game_end_example_turn : 1 = Game.current_turn GameEndExample.game.
Proof. vm_compute. reflexivity. Qed.

Lemma game_end_example_player :
  nth_error (Game.players GameEndExample.game) (Z.to_nat 1)
  = Some GameEndExample.player.
Proof. vm_compute. reflexivity. Qed.

Lemma game_end_example_double :
  nth_error (Game.hand GameEndExample.player) (Z.to_nat 0)
  = Some GameEndExample.double.
Proof. vm_compute. reflexivity. Qed.

Lemma game_end_example_partner :
  nth_error (Game.hand GameEndExample.player) (Z.to_nat 1)
  = Some GameEndExample.partner.
Proof. vm_compute. reflexivity. Qed.

Lemma game_end_example_four :
  Game.board GameEndExample.game (Cards.artist_of GameEndExample.double) + 1
  = Cards.ROUND_END_CARD_COUNT.
Proof. vm_compute. reflexivity. Qed.

Lemma double_play_stops_at_five_witness :
  exists g' evs,
    Game.handle_play_card GameEndExample.game 1 0 1
    = Some (g', Game.ev_card_played (Cards.artist_of GameEndExample.double)
                  Cards.ROUND_END_CARD_COUNT 1 Cards.t_double true :: evs)
    /\ existsb is_error evs = false
    /\ Game.current_auction g' = None
    /\ Game.round_num g' = Game.round_num GameEndExample.game + 1
    /\ (forall b, Game.market g' b
                  = Game.market GameEndExample.game b
                    + Cards.calculate_round_values
                        (Cards.amap_set (Game.board GameEndExample.game)
                           (Cards.artist_of GameEndExample.double)
                           Cards.ROUND_END_CARD_COUNT) b)
    /\ exists pl' dealt,
         nth_error (Game.players g') (Z.to_nat 1) = Some pl'
         /\ Game.hand pl'
            = list_pop (list_pop (Game.hand GameEndExample.player)
                          (Z.to_nat (Z.max 0 1)))
                (Z.to_nat (Z.min 0 1)) ++ dealt.
Proof.
  exact (double_play_stops_at_five GameEndExample.game 1 0 1
           GameEndExample.player GameEndExample.double GameEndExample.partner
           game_end_example_wf game_end_example_on game_end_example_active
           game_end_example_no_auction game_end_example_turn
           game_end_example_player ltac:(lia) game_end_example_double eq_refl
           ltac:(lia) ltac:(lia) game_end_example_partner eq_refl
           game_end_example_four).
Defined.

Section SolventHandlers.
Import Cards Game.

Lemma solvent_with_auction g a :
  solvent g -> backed (players g) a -> solvent (with_auction g (Some a)).
Proof.
  intros (H1 & H2 & _) Hb. unfold solvent. fields.
  split; [exact H1|]. split; [exact H2|]. intros a' E. now injection E as <-.
Qed.

Lemma seat_lookup (ps : list Player) (p : Z) (pl : Player) :
  0 <= p < Z.of_nat (length ps) -> py_get ps p = Some pl ->
  nth_error ps (Z.to_nat p) = Some pl.
Proof. intros Hp. unfold py_get. now rewrite (py_index_in_range _ _ Hp). Qed.

Lemma seat_in_credit g p pl :
  solvent g -> nth_error (players g) (Z.to_nat p) = Some pl -> 0 <= money pl.
Proof.
  intros (H1 & _) Hp. rewrite Forall_forall in H1. apply H1.
  eapply nth_error_In. exact Hp.
Qed.

(** The tail of the auction handlers, after an action that left the bids
    backed and returned a result the winner can pay. *)
Lemma stays_solvent_resolve_if g a' evs res :
  num_players g = Z.of_nat (length (players g)) ->
  solvent g -> backed (players g) a' ->
  (forall r, res = Some r ->
     payable (players g) r
     /\ 0 <= Auction.winner_index r < num_players g
     /\ 0 <= Auction.res_seller_index r < num_players g) ->
  stays_solvent (resolve_if (with_auction g (Some a')) evs res).
Proof.
  intros Hn Hs Hb Hres.
  pose proof (solvent_with_auction g a' Hs Hb) as Hs'.
  destruct res as [r|]; cbn [resolve_if].
  - destruct (Hres r eq_refl) as (Hpay & Hw & Hsell).
    apply stays_solvent_after.
    apply (stays_solvent_resolve_auction (with_auction g (Some a')) a' r);
      try assumption; reflexivity.
  - now apply stays_solvent_done.
Qed.

(** One action of the player at seat [p] on the auction in progress. *)
Lemma action_in_game g a p act amt pl :
  game_wf g -> solvent g -> current_auction g = Some a ->
  0 <= p < num_players g -> py_get (players g) p = Some pl ->
  (act = Auction.a_bid -> amt <= money pl) ->
  (act = Auction.a_accept -> Auction.fixed_price a <= money pl) ->
  backed (players g) (snd (Auction.process_action a p act amt))
  /\ forall r, snd (fst (Auction.process_action a p act amt)) = Some r ->
       payable (players g) r
       /\ 0 <= Auction.winner_index r < num_players g
       /\ 0 <= Auction.res_seller_index r < num_players g.
Proof.
  intros Hwf Hs Ha Hp Hpl Hbid Hacc.
  pose proof Hwf as (Hn & _).
  pose proof (seat_lookup (players g) p pl ltac:(lia) Hpl) as Hseat.
  destruct (process_action_backed (players g) a p act amt pl) as [B1 B2];
    try assumption.
  - destruct Hs as (_ & _ & H3). now apply H3.
  - exact (seat_in_credit g p pl Hs Hseat).
  - destruct (process_action_in_game g a p act amt Hwf Ha Hp) as [_ W].
    split; [exact B1|]. intros r Hr. split; [now apply B2|now apply W].
Qed.

Lemma stays_solvent_bid g p x :
  game_wf g -> solvent g -> 0 <= p < num_players g ->
  stays_solvent (handle_bid g p x).
Proof.
  intros Hwf Hs Hp. pose proof Hwf as (Hn & _). unfold handle_bid.
  destruct (current_auction g) as [a|] eqn:Ha; [|now apply stays_solvent_done].
  destruct (py_get (players g) p) as [pl|] eqn:Hpl; [|apply stays_solvent_None].
  destruct (money pl <? x) eqn:Em; [now apply stays_solvent_done|].
  destruct (action_in_game g a p Auction.a_bid x pl Hwf Hs Ha Hp Hpl
              ltac:(intros _; lia) ltac:(discriminate)) as [B R].
  destruct (Auction.process_action a p Auction.a_bid x) as [[[e|] res] a'];
    cbn [fst snd] in B, R.
  - apply stays_solvent_done. now apply solvent_with_auction.
  - now apply stays_solvent_resolve_if.
Qed.

Lemma stays_solvent_pass g p :
  game_wf g -> solvent g -> 0 <= p < num_players g ->
  stays_solvent (handle_pass g p).
Proof.
  intros Hwf Hs Hp. pose proof Hwf as (Hn & _). unfold handle_pass.
  destruct (current_auction g) as [a|] eqn:Ha; [|now apply stays_solvent_done].
  destruct (py_get_in_range (players g) p ltac:(lia)) as [pl Hpl].
  destruct (action_in_game g a p Auction.a_pass 0 pl Hwf Hs Ha Hp Hpl
              ltac:(discriminate) ltac:(discriminate)) as [B R].
  destruct (Auction.process_action a p Auction.a_pass 0) as [[[e|] res] a'];
    cbn [fst snd] in B, R.
  - rewrite Hpl. apply stays_solvent_done. now apply solvent_with_auction.
  - destruct (Auction.auction_type a'); try rewrite Hpl;
      now apply stays_solvent_resolve_if.
Qed.

Lemma stays_solvent_accept g p :
  game_wf g -> solvent g -> 0 <= p < num_players g ->
  stays_solvent (handle_accept g p).
Proof.
  intros Hwf Hs Hp. pose proof Hwf as (Hn & _). unfold handle_accept.
  destruct (current_auction g) as [a|] eqn:Ha; [|now apply stays_solvent_done].
  destruct (Auction.auction_type a); try now apply stays_solvent_done.
  destruct (py_get (players g) p) as [pl|] eqn:Hpl; [|apply stays_solvent_None].
  destruct (money pl <? Auction.fixed_price a) eqn:Em;
    [now apply stays_solvent_done|].
  destruct (action_in_game g a p Auction.a_accept 0 pl Hwf Hs Ha Hp Hpl
              ltac:(discriminate) ltac:(intros _; lia)) as [B R].
  destruct (Auction.process_action a p Auction.a_accept 0) as [[[e|] res] a'];
    cbn [fst snd] in B, R.
  - apply stays_solvent_done. now apply solvent_with_auction.
  - now apply stays_solvent_resolve_if.
Qed.

Lemma stays_solvent_set_price g p x :
  game_wf g -> solvent g -> 0 <= p < num_players g ->
  stays_solvent (handle_set_price g p x).
Proof.
  intros Hwf Hs Hp. pose proof Hwf as (Hn & _). unfold handle_set_price.
  destruct (current_auction g) as [a|] eqn:Ha; [|now apply stays_solvent_done].
  destruct (Auction.auction_type a); try now apply stays_solvent_done.
  destruct (negb _); [now apply stays_solvent_done|].
  destruct (py_get_in_range (players g) p ltac:(lia)) as [pl Hpl].
  destruct (action_in_game g a p Auction.a_set_price x pl Hwf Hs Ha Hp Hpl
              ltac:(discriminate) ltac:(discriminate)) as [B R].
  rewrite Hpl.
  destruct (Auction.process_action a p Auction.a_set_price x)
    as [[[e|] res] a']; cbn [fst snd] in B, R.
  - apply stays_solvent_done. now apply solvent_with_auction.
  - now apply stays_solvent_resolve_if.
Qed.

Lemma seated_pop_hand g k i :
  num_players g = Z.of_nat (length (players g)) ->
  num_players (pop_hand g k i) = Z.of_nat (length (players (pop_hand g k i))).
Proof. intros H. fields. now rewrite list_update_length. Qed.

Lemma solvent_board_incr g a : solvent g -> solvent (board_incr g a).
Proof. apply solvent_same; reflexivity. Qed.

Lemma solvent_with_double g w c p : solvent g -> solvent (with_double g w c p).
Proof. apply solvent_same; reflexivity. Qed.

(** A card goes on the board: the round ends or an auction starts. *)
Lemma stays_solvent_play g a (evs : Game -> list event) s c t dc :
  num_players g = Z.of_nat (length (players g)) -> solvent g ->
  stays_solvent
    (if _check_round_end (board_incr g a) a
     then after (evs (board_incr g a)) (_end_round (board_incr g a))
     else after (evs (board_incr g a))
            (_start_auction (board_incr g a) s c t dc)).
Proof.
  intros Hn Hs. destruct (_check_round_end _ _); apply stays_solvent_after.
  - apply stays_solvent_end_round; [exact Hn|now apply solvent_board_incr].
  - apply stays_solvent_start_auction. now apply solvent_board_incr.
Qed.

Lemma stays_solvent_play_single_card g p c i :
  num_players g = Z.of_nat (length (players g)) -> solvent g ->
  stays_solvent (_play_single_card g p c i).
Proof.
  intros Hn Hs. unfold _play_single_card.
  destruct (py_index _ _) as [k|]; [|apply stays_solvent_None]. cbv zeta.
  apply (stays_solvent_play (pop_hand g k (Z.to_nat i)) (artist_of c)
           (fun g2 => [ev_card_played (artist_of c) (board g2 (artist_of c)) p
                         (auction_type c) false])).
  - now apply seated_pop_hand.
  - now apply solvent_pop_hand.
Qed.

Lemma stays_solvent_play_double g p c1 i1 c2 i2 :
  num_players g = Z.of_nat (length (players g)) -> solvent g ->
  stays_solvent (_play_double g p c1 i1 c2 i2).
Proof.
  intros Hn Hs. unfold _play_double.
  destruct (py_index _ _) as [k|]; [|apply stays_solvent_None]. cbv zeta.
  set (g1 := pop_hand (pop_hand g k (Z.to_nat (Z.max i1 i2))) k
               (Z.to_nat (Z.min i1 i2))).
  assert (num_players g1 = Z.of_nat (length (players g1))) as Hn1
    by (subst g1; now do 2 apply seated_pop_hand).
  assert (solvent g1) as Hs1 by (subst g1; now do 2 apply solvent_pop_hand).
  destruct (_check_round_end (board_incr g1 (artist_of c1)) (artist_of c1)).
  - apply stays_solvent_after.
    apply stays_solvent_end_round; [exact Hn1|now apply solvent_board_incr].
  - destruct (_check_round_end _ _); apply stays_solvent_after.
    + apply stays_solvent_end_round; [exact Hn1|].
      now do 2 apply solvent_board_incr.
    + apply stays_solvent_start_auction. now do 2 apply solvent_board_incr.
Qed.

Lemma stays_solvent_play_card g p i d :
  num_players g = Z.of_nat (length (players g)) -> solvent g ->
  stays_solvent (handle_play_card g p i d).
Proof.
  intros Hn Hs. unfold handle_play_card.
  destruct (py_get (players g) p) as [pl|]; [|apply stays_solvent_None].
  destruct (game_over g || negb (round_active g)); [now apply stays_solvent_done|].
  destruct (current_auction g); [now apply stays_solvent_done|].
  destruct (negb (p =? current_turn g)); [now apply stays_solvent_done|].
  destruct ((i <? 0) || _); [now apply stays_solvent_done|].
  destruct (nth_error (hand pl) (Z.to_nat i)) as [c|]; [|apply stays_solvent_None].
  destruct (auction_type c);
    try (now apply stays_solvent_play_single_card).
  destruct (0 <=? d).
  - destruct (_ || _); [now apply stays_solvent_done|].
    destruct (nth_error (hand pl) (Z.to_nat d)) as [c2|];
      [|apply stays_solvent_None].
    destruct (negb _); [now apply stays_solvent_done|].
    now apply stays_solvent_play_double.
  - destruct (has_match _ _ _).
    + destruct (py_index _ _); [|apply stays_solvent_None].
      apply stays_solvent_done. apply solvent_pop_hand.
      now apply solvent_with_double.
    + now apply stays_solvent_play_single_card.
Qed.

Lemma stays_solvent_double_response g p i :
  num_players g = Z.of_nat (length (players g)) -> solvent g ->
  stays_solvent (handle_double_response g p i).
Proof.
  intros Hn Hs. unfold handle_double_response.
  destruct (_ || _); [now apply stays_solvent_done|].
  destruct (py_get (players g) p) as [pl|]; [|apply stays_solvent_None].
  destruct (py_index _ _) as [k|]; [|apply stays_solvent_None].
  destruct (double_base_card g) as [base|]; [|apply stays_solvent_None].
  cbv zeta.
  set (g0 := with_double g false None (-1)).
  assert (solvent g0) as Hs0 by (subst g0; now apply solvent_with_double).
  assert (num_players g0 = Z.of_nat (length (players g0))) as Hn0 by exact Hn.
  set (a := artist_of base).
  assert (stays_solvent
            (if _check_round_end (board_incr g0 a) a
             then _end_round (board_incr g0 a)
             else after
                    [ev_card_played a (board (board_incr g0 a) a) p t_open false]
                    (_start_auction (board_incr g0 a) p base t_open None)))
    as Hdecline.
  { destruct (_check_round_end (board_incr g0 a) a).
    - apply stays_solvent_end_round; [exact Hn0|now apply solvent_board_incr].
    - apply stays_solvent_after, stays_solvent_start_auction.
      now apply solvent_board_incr. }
  destruct (_ && _); [|exact Hdecline].
  destruct (nth_error (hand pl) (Z.to_nat i)) as [c2|]; [|apply stays_solvent_None].
  destruct (artist_eqb _ _); [|exact Hdecline].
  set (g1 := pop_hand g0 k (Z.to_nat i)).
  assert (num_players g1 = Z.of_nat (length (players g1))) as Hn1
    by (subst g1; now apply seated_pop_hand).
  assert (solvent g1) as Hs1 by (subst g1; now apply solvent_pop_hand).
  destruct (_check_round_end (board_incr g1 a) a).
  - apply stays_solvent_end_round; [exact Hn1|now apply solvent_board_incr].
  - destruct (_check_round_end (board_incr (board_incr g1 a) a) a).
    + apply stays_solvent_end_round; [exact Hn1|].
      now do 2 apply solvent_board_incr.
    + apply stays_solvent_after, stays_solvent_start_auction.
      now do 2 apply solvent_board_incr.
Qed.

Lemma stays_solvent_handle g r :
  game_wf g -> solvent g -> 0 <= sender r < num_players g ->
  stays_solvent (handle g r).
Proof.
  intros Hwf Hs Hp. pose proof Hwf as (Hn & _).
  destruct r; cbn [handle sender] in *.
  - now apply stays_solvent_play_card.
  - now apply stays_solvent_double_response.
  - now apply stays_solvent_bid.
  - now apply stays_solvent_pass.
  - now apply stays_solvent_accept.
  - now apply stays_solvent_set_price.
Qed.

Lemma run_solvent rs :
  forall g, game_wf g -> board_below_five g -> solvent g ->
            Forall (fun r => 0 <= sender r < num_players g) rs ->
            exists g' evs, run g rs = Some (g', evs) /\ solvent g'.
Proof.
  induction rs as [|r rs IH]; intros g Hwf Hb Hs Hrs.
  - exists g, []. split; [reflexivity|exact Hs].
  - inversion Hrs as [|? ? Hr Hrest]; subst.
    destruct (handle_good g r Hwf Hb Hr) as (g1 & evs1 & E & Hwf1 & Hb1 & Hn1 & _).
    pose proof (stays_solvent_handle g r Hwf Hs Hr g1 evs1 E) as Hs1.
    rewrite <- Hn1 in Hrest.
    destruct (IH g1 Hwf1 Hb1 Hs1 Hrest) as (g' & evs & E' & Hs').
    exists g', (evs1 ++ evs). cbn [run]. rewrite E, E'. auto.
Qed.

Lemma start_solvent (ps : list Player) (shuffled : list Card) g0 evs0 :
  Forall (fun p => 0 <= money p) ps ->
  start (new_game ps) shuffled = Some (g0, evs0) -> solvent g0.
Proof.
  intros Hps. unfold start. cbn -[deal_cards py_get].
  destruct (deal_cards _ _ _) as [[hands deck']|]; [|discriminate].
  cbn -[py_get]. destruct (py_get _ _); [|discriminate].
  intros E. injection E as <- _. unfold solvent. cbn.
  split; [|split; [lia|discriminate]].
  apply Forall_map_combine; [exact Hps|]. intros x h Hx. exact Hx.
Qed.
End SolventHandlers.

(** Nobody goes into debt.  In a game of three to five players who start
    with balances that are not negative, whatever the seated players
    request, the handlers return and leave every balance at 0 or more:
    a bid is accepted only within the bidder's balance at the time, a fixed
    price is accepted only within the buyer's balance, no balance falls
    while an auction is open, and every bid the open auction has on record
    is one the bidder can still pay. *)
Theorem nobody_goes_into_debt :
  forall (ps : list Game.Player) (shuffled : list Cards.Card)
         (rs : list Game.request),
    3 <= Z.of_nat (length ps) <= 5 ->
    Forall (fun p => 0 <= Game.money p) ps ->
    Forall (fun r => 0 <= Game.sender r < Z.of_nat (length ps)) rs ->
    exists g0 evs0 g evs,
      Game.start (Game.new_game ps) shuffled = Some (g0, evs0)
      /\ Game.run g0 rs = Some (g, evs)
      /\ Forall (fun p => 0 <= Game.money p) (Game.players g)
      /\ forall a, Game.current_auction g = Some a ->
           forall q v, In (q, v) (Auction.bids a) ->
             0 <= v
             /\ exists p, nth_error (Game.players g) (Z.to_nat q) = Some p
                          /\ v <= Game.money p.
Proof.
  intros ps shuffled rs Hn Hps Hrs.
  destruct (start_good ps shuffled Hn) as (g0 & evs0 & E0 & Hwf & Hb & Hnum & _).
  pose proof (start_solvent ps shuffled g0 evs0 Hps E0) as Hs0.
  rewrite <- Hnum in Hrs.
  destruct (run_solvent rs g0 Hwf Hb Hs0 Hrs) as (g & evs & E & H1 & _ & H3).
  exists g0, evs0, g, evs. split; [exact E0|]. split; [exact E|].
  split; [exact H1|]. intros a Ha. exact (proj2 (proj2 (proj2 (H3 a Ha)))).
Qed.

Lemma sale_example_players :
  Forall (fun p => 0 <= Game.money p) Scenario.three_players.
Proof. repeat constructor; discriminate. Qed.

(** The balances after the two sales of the example. *)
Lemma sale_example_balances :
  option_map (fun x => map Game.money (Game.players (fst x)))
    (Scenario.play_out SaleExample.requests)
  = Some [105000; 195000; 0].
Proof. vm_compute. reflexivity. Qed.

Lemma nobody_goes_into_debt_witness :
  exists g0 evs0 g evs,
    Game.start (Game.new_game Scenario.three_players) Scenario.shuffled
    = Some (g0, evs0)
    /\ Game.run g0 SaleExample.requests = Some (g, evs)
    /\ Forall (fun p => 0 <= Game.money p) (Game.players g)
    /\ forall a, Game.current_auction g = Some a ->
         forall q v, In (q, v) (Auction.bids a) ->
           0 <= v
           /\ exists p, nth_error (Game.players g) (Z.to_nat q) = Some p
                        /\ v <= Game.money p.
Proof.
  apply (nobody_goes_into_debt Scenario.three_players Scenario.shuffled
           SaleExample.requests).
  - cbn. lia.
  - exact sale_example_players.
  - apply senders_in_range. reflexivity.
Defined.
